(** * Verification of the operation-log and diff engine of save-hoarder.

    Shallow embedding of the Rust sources:
    - [hoard/iter/operation.rs]        : [OperationIter::next]
    - [hoard/iter/all_files.rs]        : [AllFilesIter]
    - [checkers/history/operation/util.rs] : [file_is_log], [cleanup_operations]
    - [checkers/history/operation/v2.rs]   : [OperationV2], [Hoard], [Pile],
                                           [OperationV2::from_v1], [Hoard::new]
    Maps ([HashMap]) are stdpp [gmap]s, sets ([HashSet]) are [gset]s,
    paths are strings (relative paths) or lists of path components. *)

From Stdlib Require Import Ascii.
From stdpp Require Import base gmap sets list strings sorting.

Local Set Warnings "-register-all".

(* ===================================================================== *)
(** * Shared data model *)
(* ===================================================================== *)

(** [crate::hoard::Direction]. *)
Inductive Direction := Backup | Restore.

(** [crate::hoard_file::Checksum]: externally tagged [{ "md5": hex }] or
    [{ "sha256": hex }]. *)
Inductive Checksum := MD5 (hex : string) | SHA256 (hex : string).

Global Instance Direction_eq_dec : EqDecision Direction.
Proof. solve_decision. Defined.
Global Instance Checksum_eq_dec : EqDecision Checksum.
Proof. solve_decision. Defined.

(** I/O error kinds ([std::io::ErrorKind] as far as the code inspects it). *)
Inductive IoErrorKind := NotFound | PermissionDenied | NotADirectory | OtherIo.

Global Instance IoErrorKind_eq_dec : EqDecision IoErrorKind.
Proof. solve_decision. Defined.

(** [Result<T, E>]. *)
Inductive result (T E : Type) := Ok (t : T) | Err (e : E).
Arguments Ok {T E} t.
Arguments Err {T E} e.

(** A [HoardItem] (alias [HoardFile]) as the operation layer sees it: its
    pile, its relative path, and what [system_checksum] / [hoard_checksum]
    return for the pile's checksum type ([Result<Option<Checksum>>]; [None]
    when the file is absent on that side). The checksum computation itself
    lives in [hoard_file.rs], which is not part of the sources; its results
    are data of the item here. *)
Record HoardItem := {
  item_pile_name : option string;
  item_relative_path : string;
  item_system_checksum : result (option Checksum) IoErrorKind;
  item_hoard_checksum : result (option Checksum) IoErrorKind;
}.

(* ===================================================================== *)
(** * [OperationIter] (hoard/iter/operation.rs) *)
(* ===================================================================== *)

Module Operation.

(** [crate::hoard::iter::DiffSource]. *)
Inductive DiffSource := Local | Remote | Mixed | Unknown.

(** [crate::hoard::iter::HoardFileDiff]. *)
Inductive HoardFileDiff :=
| BinaryModified (file : HoardItem) (diff_source : DiffSource)
| TextModified (file : HoardItem) (unified_diff : string) (diff_source : DiffSource)
| PermissionsModified (file : HoardItem) (hoard_perms system_perms : N)
    (diff_source : DiffSource)
| Created (file : HoardItem) (diff_source : DiffSource)
| Recreated (file : HoardItem) (diff_source : DiffSource)
| Deleted (file : HoardItem) (diff_source : DiffSource)
| Unchanged (file : HoardItem).

(** [ItemOperation]. *)
Inductive ItemOperation :=
| Create (file : HoardItem)
| Modify (file : HoardItem)
| Delete (file : HoardItem)
| Nothing (file : HoardItem).

(** The body of [OperationIter::next] applied to one item of the diff
    stream (the [map] closure; [diff?] passes errors through). *)
Definition next_op {E} (direction : Direction) (diff : result HoardFileDiff E)
  : result ItemOperation E :=
  match diff with
  | Err e => Err e
  | Ok d =>
      Ok (match d with
          | BinaryModified file _
          | TextModified file _ _
          | PermissionsModified file _ _ _ => Modify file
          | Created file diff_source
          | Recreated file diff_source =>
              match direction, diff_source with
              | _, Mixed => Create file
              | Backup, Local => Create file
              | Backup, (Remote | Unknown) => Delete file
              | Restore, (Remote | Unknown) => Create file
              | Restore, Local => Delete file
              end
          | Deleted file diff_source =>
              match direction, diff_source with
              | _, Mixed => Delete file
              | Backup, Local
              | Restore, (Remote | Unknown) => Delete file
              | Backup, (Remote | Unknown)
              | Restore, Local => Create file
              end
          | Unchanged file => Nothing file
          end)
  end.

(** [OperationIter] over a finite diff stream. *)
Definition operation_iter {E} (direction : Direction)
  (diffs : list (result HoardFileDiff E)) : list (result ItemOperation E) :=
  map (next_op direction) diffs.

(** The truth table of the specification, section 4.6, row by row. *)
Inductive DiffKind := KModified | KCreated | KDeleted | KUnchanged.
Inductive OpKind := OCreate | OModify | ODelete | ONothing.

Definition table_4_6 (k : DiffKind) (direction : Direction) (src : DiffSource) : OpKind :=
  match k, direction, src with
  | KModified, _, _ => OModify
  | KCreated, _, Mixed => OCreate
  | KCreated, Backup, Local => OCreate
  | KCreated, Backup, (Remote | Unknown) => ODelete
  | KCreated, Restore, (Remote | Unknown) => OCreate
  | KCreated, Restore, Local => ODelete
  | KDeleted, _, Mixed => ODelete
  | KDeleted, Backup, Local => ODelete
  | KDeleted, Backup, (Remote | Unknown) => OCreate
  | KDeleted, Restore, (Remote | Unknown) => ODelete
  | KDeleted, Restore, Local => OCreate
  | KUnchanged, _, _ => ONothing
  end.

(** Classification of a diff for the table: kind, item and source
    ([Unchanged] carries no source; its row reads "any"). *)
Definition diff_kind (d : HoardFileDiff) : DiffKind :=
  match d with
  | BinaryModified _ _ | TextModified _ _ _ | PermissionsModified _ _ _ _ => KModified
  | Created _ _ | Recreated _ _ => KCreated
  | Deleted _ _ => KDeleted
  | Unchanged _ => KUnchanged
  end.

Definition diff_file (d : HoardFileDiff) : HoardItem :=
  match d with
  | BinaryModified f _ | TextModified f _ _ | PermissionsModified f _ _ _
  | Created f _ | Recreated f _ | Deleted f _ | Unchanged f => f
  end.

Definition diff_source_of (d : HoardFileDiff) : DiffSource :=
  match d with
  | BinaryModified _ s | TextModified _ _ s | PermissionsModified _ _ _ s
  | Created _ s | Recreated _ s | Deleted _ s => s
  | Unchanged _ => Mixed
  end.

Definition op_kind (o : ItemOperation) : OpKind :=
  match o with
  | Create _ => OCreate | Modify _ => OModify | Delete _ => ODelete | Nothing _ => ONothing
  end.

Definition op_file (o : ItemOperation) : HoardItem :=
  match o with Create f | Modify f | Delete f | Nothing f => f end.

End Operation.

(* ===================================================================== *)
(** * Log files and retention (checkers/history/operation/util.rs) *)
(* ===================================================================== *)

Module Util.

(** Regular expressions, matched by Brzozowski derivatives. *)
Inductive regex :=
| RNone
| REps
| RClass (p : ascii -> bool)
| RCat (r1 r2 : regex)
| RAlt (r1 r2 : regex).

Fixpoint nullable (r : regex) : bool :=
  match r with
  | RNone => false
  | REps => true
  | RClass _ => false
  | RCat r1 r2 => nullable r1 && nullable r2
  | RAlt r1 r2 => nullable r1 || nullable r2
  end.

Fixpoint deriv (c : ascii) (r : regex) : regex :=
  match r with
  | RNone | REps => RNone
  | RClass p => if p c then REps else RNone
  | RCat r1 r2 =>
      if nullable r1 then RAlt (RCat (deriv c r1) r2) (deriv c r2)
      else RCat (deriv c r1) r2
  | RAlt r1 r2 => RAlt (deriv c r1) (deriv c r2)
  end.

(** [r] matches the whole of [s]. *)
Fixpoint full_match (r : regex) (s : string) : bool :=
  match s with
  | EmptyString => nullable r
  | String c s' => full_match (deriv c r) s'
  end.

(** [r{n}]. *)
Fixpoint rep (n : nat) (r : regex) : regex :=
  match n with
  | O => REps
  | S n' => RCat r (rep n' r)
  end.

Definition lit (c : ascii) : regex := RClass (fun d => Ascii.eqb d c).

(** [[0-9]]. *)
Definition digit : regex :=
  RClass (fun c => (N.leb 48 (N_of_ascii c) && N.leb (N_of_ascii c) 57)%bool).

Fixpoint lits (s : string) : regex :=
  match s with
  | EmptyString => REps
  | String c s' => RCat (lit c) (lits s')
  end.

(** [LOG_FILE_REGEX]:
    [^[0-9]{4}(_[0-9]{2}){2}-([0-9]{2}_){2}([0-9]{2})\.[0-9]{6}\.log$].
    Both anchors are present, so [is_match] is a match of the whole name. *)
Definition LOG_FILE_REGEX : regex :=
  RCat (rep 4 digit)
 (RCat (rep 2 (RCat (lit "_") (rep 2 digit)))
 (RCat (lit "-")
 (RCat (rep 2 (RCat (rep 2 digit) (lit "_")))
 (RCat (rep 2 digit)
 (RCat (lit ".")
 (RCat (rep 6 digit)
       (lits ".log"))))))).

Definition is_match (r : regex) (name : string) : bool := full_match r name.

(** A path as its list of components. [Path::file_name] is the last
    component, [None] for the empty path and for a path ending in [..]. *)
Definition file_name (path : list string) : option string :=
  match last path with
  | None => None
  | Some n => if String.eqb n ".." then None else Some n
  end.

(** [file_is_log]; [is_file] is [Path::is_file] in the current filesystem. *)
Definition file_is_log (is_file : list string -> bool) (path : list string) : bool :=
  is_file path &&
  match file_name path with
  | None => false
  | Some name => is_match LOG_FILE_REGEX name
  end.

(** ** Retention within one [(system, hoard)] directory *)

(** [Operation::from_file(path)] followed by [is_backup()]; reading may
    fail. *)
Definition LogReader := string -> result bool IoErrorKind.

(** [Iterator::find_map] *)
Fixpoint find_map {A B} (f : A -> option B) (l : list A) : option B :=
  match l with
  | [] => None
  | x :: l' => match f x with Some b => Some b | None => find_map f l' end
  end.

(** [Iterator::enumerate] *)
Definition enumerate {A} (l : list A) : list (nat * A) := zip (seq 0 (length l)) l.

(** [Vec::remove] (in range). *)
Definition vec_remove {A} (i : nat) (l : list A) : list A := take i l ++ drop (S i) l.

(** [Vec::pop]: the remaining vector and the popped element. *)
Definition vec_pop {A} (l : list A) : list A * option A :=
  match last l with
  | None => (l, None)
  | Some x => (removelast l, Some x)
  end.

(** [files.iter().enumerate().rev().find_map(..).transpose()?]: index of the
    latest backup among [files]. *)
Definition latest_backup_index (read : LogReader) (files : list string)
  : result (option nat) IoErrorKind :=
  match find_map (fun '(i, path) =>
                    match read path with
                    | Err e => Some (Err e)
                    | Ok is_backup => if is_backup then Some (Ok i) else None
                    end) (rev (enumerate files)) with
  | None => Ok None
  | Some (Ok i) => Ok (Some i)
  | Some (Err e) => Err e
  end.

(** The closure of [cleanup_operations] applied to one hoard directory,
    given the names of its entries (already filtered by [file_is_log]):
    the list of log files to delete. *)
Definition hoard_deletions (read : LogReader) (logs : list string)
  : result (list string) IoErrorKind :=
  let files := merge_sort String.le logs in
  let '(files, recent) := vec_pop files in
  match recent with
  | None => Ok files
  | Some recent =>
      match read recent with
      | Err e => Err e
      | Ok true => Ok files
      | Ok false =>
          match latest_backup_index read files with
          | Err e => Err e
          | Ok None => Ok files
          | Ok (Some index) => Ok (vec_remove index files)
          end
      end
  end.

(** The entries of a hoard directory that [file_is_log] keeps. *)
Definition log_entries (is_file : list string -> bool) (dir : list string)
  (entries : list string) : list string :=
  filter (fun name => file_is_log is_file (dir ++ [name]) = true) entries.

(** ** Deleting the collected files *)

(** The filesystem as far as deletion is concerned: the existing files and
    the files whose removal is refused. *)
Record DelFs := { fs_files : gset string; fs_protected : gset string }.

(** [fs::remove_file]. *)
Definition remove_file (p : string) (fs : DelFs) : result unit IoErrorKind * DelFs :=
  if decide (p ∈ fs_files fs) then
    if decide (p ∈ fs_protected fs) then (Err PermissionDenied, fs)
    else (Ok tt, {| fs_files := fs_files fs ∖ {[p]}; fs_protected := fs_protected fs |})
  else (Err NotFound, fs).

(** [.map(|path| fs::remove_file(path)).fold(Ok((0, ())), |acc, res2| ..)]:
    [map] is lazy, so every element is produced (its [remove_file] run)
    before the folding closure sees it. *)
Fixpoint delete_fold (acc : result (nat * unit) (nat * IoErrorKind))
  (paths : list string) (fs : DelFs)
  : result (nat * unit) (nat * IoErrorKind) * DelFs :=
  match paths with
  | [] => (acc, fs)
  | path :: paths' =>
      let '(res2, fs') := remove_file path fs in
      let acc' :=
        match acc with
        | Err e => Err e
        | Ok (count, _) =>
            match res2 with
            | Ok u => Ok (count + 1, u)
            | Err err => Err (count, err)
            end
        end in
      delete_fold acc' paths' fs'
  end.

(** The tail of [cleanup_operations]: [.map(|(count, _)| count)]. *)
Definition delete_all (paths : list string) (fs : DelFs)
  : result nat (nat * IoErrorKind) * DelFs :=
  let '(r, fs') := delete_fold (Ok (0, tt)) paths fs in
  (match r with Ok (count, _) => Ok count | Err e => Err e end, fs').

(** The retention rule of the specification (section 4.7): keep the latest
    log and, when it records a restore, the latest backup. *)
Definition is_latest (logs : list string) (f : string) : Prop :=
  f ∈ logs /\ forall g, g ∈ logs -> String.le g f.

Definition retained_by_rule (is_backup : string -> bool) (logs : list string)
  (f : string) : Prop :=
  is_latest logs f \/
  ((exists l, is_latest logs l /\ is_backup l = false) /\ is_backup f = true /\
   forall g, g ∈ logs -> is_backup g = true -> String.le g f).

End Util.

(* ===================================================================== *)
(** * Operation logs, version 2 (checkers/history/operation/v2.rs) *)
(* ===================================================================== *)

Module V2.
Import Operation.

(** [Pile]: relative paths ([PathBuf]) are strings. *)
Record Pile := {
  created : gmap string Checksum;
  modified : gmap string Checksum;
  deleted : gset string;
  unmodified : gmap string Checksum;
}.

(** [Pile::default()]. *)
Definition pile_default : Pile :=
  {| created := ∅; modified := ∅; deleted := ∅; unmodified := ∅ |}.

Definition pile_insert_created (rel : string) (c : Checksum) (p : Pile) : Pile :=
  {| created := <[rel := c]> (created p); modified := modified p;
     deleted := deleted p; unmodified := unmodified p |}.
Definition pile_insert_modified (rel : string) (c : Checksum) (p : Pile) : Pile :=
  {| created := created p; modified := <[rel := c]> (modified p);
     deleted := deleted p; unmodified := unmodified p |}.
Definition pile_insert_unmodified (rel : string) (c : Checksum) (p : Pile) : Pile :=
  {| created := created p; modified := modified p;
     deleted := deleted p; unmodified := <[rel := c]> (unmodified p) |}.
Definition pile_insert_deleted (rel : string) (p : Pile) : Pile :=
  {| created := created p; modified := modified p;
     deleted := {[rel]} ∪ deleted p; unmodified := unmodified p |}.
(** [pile.deleted = deleted] *)
Definition pile_set_deleted (d : gset string) (p : Pile) : Pile :=
  {| created := created p; modified := modified p;
     deleted := d; unmodified := unmodified p |}.

(** [enum Hoard] ([#[serde(untagged)]]). *)
Inductive Hoard :=
| Anonymous (pile : Pile)
| Named (piles : gmap string Pile).

(** [OffsetDateTime], whose [PartialEq] compares the instant: nanoseconds
    since the Unix epoch. *)
Definition OffsetDateTime := Z.

(** [OperationV2]. [hoards_root] is [#[serde(skip, default)]]. *)
Record OperationV2 := {
  timestamp : OffsetDateTime;
  direction : Direction;
  hoard : string;
  files : Hoard;
  hoards_root : string;
}.

(** The piles of a hoard. *)
Definition hoard_piles (h : Hoard) : list Pile :=
  match h with
  | Anonymous p => [p]
  | Named ps => map snd (map_to_list ps)
  end.

(** ** Version-1 logs *)

(** Modelled from the spec: [v1::OperationV1] and [v1::Hoard] (v1.rs is not
    part of the sources). A v1 log carries [(timestamp, is_backup,
    hoard_name, files)], [files] mapping each relative path of a pile to its
    MD5 hex digest. *)
Inductive HoardV1 :=
| AnonymousV1 (files : gmap string string)
| NamedV1 (piles : gmap string (gmap string string)).

Record OperationV1 := {
  v1_timestamp : OffsetDateTime;
  v1_is_backup : bool;
  v1_hoard_name : string;
  v1_hoard : HoardV1;
}.

(** Modelled from the spec: [OperationV1::all_files_with_checksums], every
    [(pile_name, relative_path, checksum)] of the log, the digest read as
    [Checksum::MD5] (as the conversion tests expect). *)
Definition v1_all_files (op : OperationV1) : list (option string * string * Checksum) :=
  match v1_hoard op with
  | AnonymousV1 m => map (fun '(p, c) => (None, p, MD5 c)) (map_to_list m)
  | NamedV1 ps =>
      mjoin (map (fun '(n, m) => map (fun '(p, c) => (Some n, p, MD5 c)) (map_to_list m))
                 (map_to_list ps))
  end.

Definition v1_direction (op : OperationV1) : Direction :=
  if v1_is_backup op then Backup else Restore.

(** ** [OperationV2::from_v1] *)

Abbreviation PileFile := (option string * string)%type.

(** One iteration of the [for file_info in ..] loop: the per-pile maps
    ([files]), [these_files] and [file_checksums]. *)
Definition from_v1_step
  (st : gmap (option string) Pile * gset PileFile * gmap PileFile (option Checksum))
  (fi : option string * string * Checksum)
  : gmap (option string) Pile * gset PileFile * gmap PileFile (option Checksum) :=
  let '(files, these_files, file_checksums) := st in
  let '(pile_name, relative_path, checksum) := fi in
  let pile := default pile_default (files !! pile_name) in
  let pile_file := (pile_name, relative_path) in
  let pile' :=
    match file_checksums !! pile_file with
    | Some None => pile_insert_created relative_path checksum pile
    | Some (Some old_checksum) =>
        if decide (old_checksum = checksum)
        then pile_insert_unmodified relative_path checksum pile
        else pile_insert_modified relative_path checksum pile
    | None => pile_insert_created relative_path checksum pile
    end in
  (<[pile_name := pile']> files, {[pile_file]} ∪ these_files,
   <[pile_file := Some checksum]> file_checksums).

(** The [deleted] fold over [file_set.difference(&these_files)]. *)
Definition group_deleted (s : gset PileFile) : gmap (option string) (gset string) :=
  set_fold (fun (pf : PileFile) acc =>
              <[pf.1 := {[pf.2]} ∪ default ∅ (acc !! pf.1)]> acc) ∅ s.

(** [for (pile_name, deleted) in deleted { .. }] *)
Definition attach_deleted (files : gmap (option string) Pile)
  (del : gmap (option string) (gset string)) : gmap (option string) Pile :=
  fold_left (fun acc '(pile_name, d) =>
               <[pile_name := pile_set_deleted d (default pile_default (acc !! pile_name))]> acc)
            (map_to_list del) files.

(** [files.into_iter().filter_map(|(name, pile)| name.map(..)).collect()] *)
Definition named_piles (files : gmap (option string) Pile) : gmap string Pile :=
  list_to_map (omap (fun '(k, p) => match k with Some n => Some (n, p) | None => None end)
                    (map_to_list files)).

(** The anonymous pile when the log has nothing for the [None] pile. *)
Definition empty_anonymous_pile : Pile := pile_set_deleted {[""]} pile_default.

(** [OperationV2::from_v1(file_checksums, file_set, old_v1)]: the new log and
    the updated [file_checksums] and [file_set]. *)
Definition from_v1 (file_checksums : gmap PileFile (option Checksum))
  (file_set : gset PileFile) (old_v1 : OperationV1)
  : OperationV2 * gmap PileFile (option Checksum) * gset PileFile :=
  let is_anonymous := match v1_hoard old_v1 with AnonymousV1 _ => true | _ => false end in
  let '(files, these_files, file_checksums') :=
    fold_left from_v1_step (v1_all_files old_v1) (∅, ∅, file_checksums) in
  let del := group_deleted (file_set ∖ these_files) in
  let files := attach_deleted files del in
  let files :=
    if is_anonymous then Anonymous (default empty_anonymous_pile (files !! None))
    else Named (named_piles files) in
  ({| timestamp := v1_timestamp old_v1; direction := v1_direction old_v1;
      hoard := v1_hoard_name old_v1; files := files; hoards_root := "" |},
   file_checksums', these_files).

(** A backup log of the anonymous hoard [h] at time [ts] with the files [m]. *)
Definition upgrade_log (ts : Z) (m : gmap string string) : OperationV1 :=
  {| v1_timestamp := ts; v1_is_backup := true; v1_hoard_name := "h";
     v1_hoard := AnonymousV1 m |}.

(** A file of the anonymous pile at [p] whose system copy has the MD5
    digest [c] and which is missing from the hoard. *)
Definition sample_item (p c : string) : HoardItem :=
  {| item_pile_name := None; item_relative_path := p;
     item_system_checksum := Ok (Some (MD5 c)); item_hoard_checksum := Ok None |}.

(** ** [Hoard::new] *)

(** An operation stream that creates [a] and leaves [b] unchanged. *)
Definition sample_ops : list (result ItemOperation IoErrorKind) :=
  [Ok (Create (sample_item "a" "x")); Ok (Nothing (sample_item "b" "y"))].

(** The pile a backup of [sample_ops] records. *)
Definition sample_pile : Pile :=
  pile_insert_unmodified "b" (MD5 "y") (pile_insert_created "a" (MD5 "x") pile_default).

(** [get_or_create_pile]: the key of a pile in the map being built. *)
Definition pile_key (pile_name : option string) : string := default "" pile_name.

Definition require_checksum (c : result (option Checksum) IoErrorKind)
  : result Checksum IoErrorKind :=
  match c with
  | Err e => Err e
  | Ok None => Err NotFound
  | Ok (Some c) => Ok c
  end.

(** The closure folded over [OperationIter]. *)
Definition hoard_new_step (direction : Direction)
  (acc : result (gmap string Pile) IoErrorKind) (op : result ItemOperation IoErrorKind)
  : result (gmap string Pile) IoErrorKind :=
  match acc with
  | Err e => Err e
  | Ok acc =>
      match op with
      | Err e => Err e
      | Ok op =>
          let file := op_file op in
          let key := pile_key (item_pile_name file) in
          let pile := default pile_default (acc !! key) in
          let rel := item_relative_path file in
          let side_checksum :=
            match direction with
            | Backup => require_checksum (item_system_checksum file)
            | Restore => require_checksum (item_hoard_checksum file)
            end in
          match op with
          | Create _ =>
              match side_checksum with
              | Err e => Err e
              | Ok c => Ok (<[key := pile_insert_created rel c pile]> acc)
              end
          | Modify _ =>
              match side_checksum with
              | Err e => Err e
              | Ok c => Ok (<[key := pile_insert_modified rel c pile]> acc)
              end
          | Delete _ => Ok (<[key := pile_insert_deleted rel pile]> acc)
          | Nothing _ =>
              match require_checksum (item_system_checksum file) with
              | Err e => Err e
              | Ok c => Ok (<[key := pile_insert_unmodified rel c pile]> acc)
              end
          end
      end
  end.

(** The map of piles built by [Hoard::new] from the [OperationIter] stream. *)
Definition hoard_new_inner (direction : Direction)
  (ops : list (result ItemOperation IoErrorKind)) : result (gmap string Pile) IoErrorKind :=
  fold_left (hoard_new_step direction) ops (Ok ∅).

(** The part of [Hoard::new] after [OperationIter::new(..)?] has succeeded:
    the fold over its stream and the choice between [Anonymous] and
    [Named]. [hoard_new_with_iter] adds the failure of the constructor. *)
Definition hoard_new (direction : Direction)
  (ops : list (result ItemOperation IoErrorKind)) : result Hoard IoErrorKind :=
  match hoard_new_inner direction ops with
  | Err e => Err e
  | Ok inner =>
      match inner !! "" with
      | Some p => if decide (size inner = 1) then Ok (Anonymous p) else Ok (Named inner)
      | None => Ok (Named inner)
      end
  end.

(** [Hoard::new] with the outcome of [OperationIter::new(..)]: the
    constructor's error ([inl]) is returned by its [?]; otherwise the stream
    is folded, and an error of the fold is an item's error ([inr]). *)
Definition hoard_new_with_iter {E : Type} (direction : Direction)
  (iter : result (list (result ItemOperation IoErrorKind)) E) : result Hoard (E + IoErrorKind) :=
  match iter with
  | Err e => Err (inl e)
  | Ok ops =>
      match hoard_new direction ops with
      | Err e => Err (inr e)
      | Ok h => Ok h
      end
  end.

(** The relative paths of the pile [k] in a set of pile files. *)
Definition pile_paths (k : option string) (X : gset PileFile) : gset string :=
  set_map snd (filter (fun pf : PileFile => pf.1 = k) X).

(** The four parts of a pile have pairwise disjoint key sets. *)
Definition pile_disjoint (p : Pile) : Prop :=
  dom (created p) ## dom (modified p) /\ dom (created p) ## dom (unmodified p) /\
  dom (modified p) ## dom (unmodified p) /\ dom (created p) ## deleted p /\
  dom (modified p) ## deleted p /\ dom (unmodified p) ## deleted p.

(** The pile file of an entry of [all_files_with_checksums]. *)
Definition v1_key (x : option string * string * Checksum) : PileFile := (x.1.1, x.1.2).

(** The pile and relative path an operation is recorded under. *)
Definition op_key (o : ItemOperation) : string * string :=
  (pile_key (item_pile_name (op_file o)), item_relative_path (op_file o)).

(** The invariant of the [for file_info in ..] loop of [from_v1]. *)
Definition from_v1_inv
  (st : gmap (option string) Pile * gset PileFile * gmap PileFile (option Checksum)) : Prop :=
  forall k pile, st.1.1 !! k = Some pile ->
    pile_disjoint pile /\ deleted pile = ∅ /\
    dom (created pile) ∪ dom (modified pile) ∪ dom (unmodified pile) ⊆ pile_paths k st.1.2.

(** Some operation of [ops] is recorded under the pile [k] and path [p]
    and has kind [K]. *)
Definition recorded_by (ops : list (result ItemOperation IoErrorKind)) (k p : string)
  (K : OpKind) : Prop :=
  exists o, Ok o ∈ ops /\ op_key o = (k, p) /\ op_kind o = K.

(** Every entry of every pile of [m] comes from an operation of [ops] of the
    matching kind. *)
Definition pile_provenance (ops : list (result ItemOperation IoErrorKind))
  (m : gmap string Pile) : Prop :=
  forall k pile, m !! k = Some pile -> forall p,
    (p ∈ dom (created pile) -> recorded_by ops k p OCreate) /\
    (p ∈ dom (modified pile) -> recorded_by ops k p OModify) /\
    (p ∈ dom (unmodified pile) -> recorded_by ops k p ONothing) /\
    (p ∈ deleted pile -> recorded_by ops k p ODelete).

(** Operations on the same pile and path have the same kind. *)
Definition ops_consistent (ops : list (result ItemOperation IoErrorKind)) : Prop :=
  forall o1 o2, Ok o1 ∈ ops -> Ok o2 ∈ ops -> op_key o1 = op_key o2 -> op_kind o1 = op_kind o2.

(** At most one operation per pile and path. *)
Definition ops_unique (ops : list (result ItemOperation IoErrorKind)) : Prop :=
  forall o1 o2, Ok o1 ∈ ops -> Ok o2 ∈ ops -> op_key o1 = op_key o2 -> o1 = o2.

(** The entry expected for the operation [o] in its pile: unchanged files
    under [unmodified] with the system checksum, created and modified files
    with the system checksum on a backup and the hoard checksum on a
    restore, deleted files under [deleted]. *)
Definition recorded_as (dir : Direction) (o : ItemOperation) (pile : Pile) : Prop :=
  let f := op_file o in
  let side := match dir with
              | Backup => item_system_checksum f
              | Restore => item_hoard_checksum f
              end in
  match o with
  | Create _ => exists c, side = Ok (Some c) /\ created pile !! item_relative_path f = Some c
  | Modify _ => exists c, side = Ok (Some c) /\ modified pile !! item_relative_path f = Some c
  | Delete _ => item_relative_path f ∈ deleted pile
  | Nothing _ => exists c, item_system_checksum f = Ok (Some c) /\
                           unmodified pile !! item_relative_path f = Some c
  end.

(** ** Reading a v2 log *)

(** [Hoard::get_pile]. *)
Definition get_pile (name : option string) (h : Hoard) : option Pile :=
  match name, h with
  | None, Anonymous pile => Some pile
  | Some name, Named piles => piles !! name
  | _, _ => None
  end.

(** [Pile::contains_file]. *)
Definition pile_contains_file (p : Pile) (rel_path : string) (only_modified : bool) : bool :=
  bool_decide (rel_path ∈ dom (created p))
  || bool_decide (rel_path ∈ dom (modified p))
  || bool_decide (rel_path ∈ deleted p)
  || (negb only_modified && bool_decide (rel_path ∈ dom (unmodified p))).

(** [Pile::checksum_for]. *)
Definition pile_checksum_for (p : Pile) (rel_path : string) : option Checksum :=
  match created p !! rel_path with
  | Some c => Some c
  | None =>
      match modified p !! rel_path with
      | Some c => Some c
      | None => unmodified p !! rel_path
      end
  end.

(** [Pile::all_files_with_checksums]: the iterators of [created],
    [modified], [unmodified] and [deleted] chained in this order; within a
    part, the order is the map's iteration order. *)
Definition pile_all_files_with_checksums (p : Pile) : list (string * option Checksum) :=
  map (fun '(path, checksum) => (path, Some checksum)) (map_to_list (created p)) ++
  map (fun '(path, checksum) => (path, Some checksum)) (map_to_list (modified p)) ++
  map (fun '(path, checksum) => (path, Some checksum)) (map_to_list (unmodified p)) ++
  map (fun path => (path, None)) (elements (deleted p)).

(** [OperationImpl::contains_file] for [OperationV2]. *)
Definition contains_file (op : OperationV2) (pile_name : option string) (rel_path : string)
  (only_modified : bool) : bool :=
  match get_pile pile_name (files op) with
  | Some pile => pile_contains_file pile rel_path only_modified
  | None => false
  end.

(** [OperationImpl::checksum_for] for [OperationV2]. *)
Definition checksum_for (op : OperationV2) (pile_name : option string) (rel_path : string)
  : option Checksum :=
  match get_pile pile_name (files op) with
  | Some pile => pile_checksum_for pile rel_path
  | None => None
  end.

(** [OperationImpl::all_files_with_checksums] for [OperationV2]: each
    [OperationFileInfo] as [(pile_name, relative_path, checksum)]. *)
Definition all_files_with_checksums (op : OperationV2)
  : list (option string * string * option Checksum) :=
  match files op with
  | Anonymous pile =>
      map (fun '(path, checksum) => (None, path, checksum)) (pile_all_files_with_checksums pile)
  | Named piles =>
      mjoin (map (fun '(pile_name, pile) =>
                    map (fun '(path, checksum) => (Some pile_name, path, checksum))
                        (pile_all_files_with_checksums pile))
                 (map_to_list piles))
  end.

(** [OperationV2::new], given the clock ([OffsetDateTime::now_utc()]) and
    the [OperationIter] stream that [Hoard::new] folds. *)
Definition operation_new (hoards_root : string) (name : string) (direction : Direction)
  (now : OffsetDateTime) (ops : list (result ItemOperation IoErrorKind))
  : result OperationV2 IoErrorKind :=
  match hoard_new direction ops with
  | Err e => Err e
  | Ok h => Ok {| timestamp := now; direction := direction; hoard := name;
                  files := h; hoards_root := hoards_root |}
  end.

(** A backup log of the hoard [h] whose files are [sample_pile]. *)
Definition sample_log : OperationV2 :=
  {| timestamp := 0%Z; direction := Backup; hoard := "h"; files := Anonymous sample_pile;
     hoards_root := "" |}.

(** The failure of the step of [Hoard::new] on one item of the stream, if
    any: the item's own error, or the error of the checksum the operation
    records ([require_checksum] turns a missing file into [NotFound]). *)
Definition op_failure (direction : Direction) (x : result ItemOperation IoErrorKind)
  : option IoErrorKind :=
  match x with
  | Err e => Some e
  | Ok op =>
      let file := op_file op in
      let side := match direction with
                  | Backup => item_system_checksum file
                  | Restore => item_hoard_checksum file
                  end in
      let failure c := match require_checksum c with Err e => Some e | Ok _ => None end in
      match op with
      | Create _ | Modify _ => failure side
      | Delete _ => None
      | Nothing _ => failure (item_system_checksum file)
      end
  end.

(** The checksum a log built by [Hoard::new] records for an operation: the
    system checksum for an unchanged file, the checksum of the side copied
    from for a created or modified one, none for a deleted one. *)
Definition recorded_checksum (direction : Direction) (op : ItemOperation) : option Checksum :=
  let file := op_file op in
  let side := match direction with
              | Backup => item_system_checksum file
              | Restore => item_hoard_checksum file
              end in
  let present c := match c with Ok (Some c) => Some c | _ => None end in
  match op with
  | Create _ | Modify _ => present side
  | Delete _ => None
  | Nothing _ => present (item_system_checksum file)
  end.

(** All operations of a stream are for the anonymous pile, or all are for
    piles with a non-empty name. *)
Definition uniform_pile_names (ops : list (result ItemOperation IoErrorKind)) : Prop :=
  (forall o, Ok o ∈ ops -> item_pile_name (op_file o) = None) \/
  (forall o, Ok o ∈ ops -> exists n, item_pile_name (op_file o) = Some n /\ n <> "").

(** A pile name fits a v1 hoard: [None] for an anonymous one, a name for a
    named one. *)
Definition fits_v1_hoard (h : HoardV1) (k : option string) : bool :=
  match h, k with
  | AnonymousV1 _, None | NamedV1 _, Some _ => true
  | _, _ => false
  end.

(** What the fold of [from_v1] has built after the entries [P], starting
    from the checksums [fcs0]. *)
Definition from_v1_fold_state (fcs0 : gmap PileFile (option Checksum))
  (P : list (option string * string * Checksum))
  (st : gmap (option string) Pile * gset PileFile * gmap PileFile (option Checksum)) : Prop :=
  from_v1_inv st /\
  st.1.2 = list_to_set (map v1_key P) /\
  (forall k p c, (k, p, c) ∈ P -> st.2 !! (k, p) = Some (Some c)) /\
  (forall pf, pf ∉ map v1_key P -> st.2 !! pf = fcs0 !! pf) /\
  (forall k p c, pile_checksum_for (default pile_default (st.1.1 !! k)) p = Some c <-> (k, p, c) ∈ P) /\
  (forall k, is_Some (st.1.1 !! k) <-> exists p c, (k, p, c) ∈ P).

End V2.

(* ===================================================================== *)
(** * The serde JSON form of a v2 log *)
(* ===================================================================== *)

(** JSON values; an object is its list of entries in order. The codec
    (serde_json and the derive macros) is a collaborator: [Serialize] and
    [Deserialize] are modelled as the derives behave. *)
Module Json.
Import V2.

Inductive Json :=
| JNull
| JBool (b : bool)
| JNum (z : Z)
| JStr (s : string)
| JArr (l : list Json)
| JObj (l : list (string * Json)).

(** *** Serialization *)

(** Modelled from the spec: [Checksum] (hoard_file.rs is not part of the
    sources) is written [{"md5": hex}] or [{"sha256": hex}] (section 6), as
    the token test of v2.rs expects. *)
Definition ser_checksum (c : Checksum) : Json :=
  match c with
  | MD5 h => JObj [("md5", JStr h)]
  | SHA256 h => JObj [("sha256", JStr h)]
  end.

(** [HashMap<PathBuf, Checksum>]: an object, in the map's iteration order. *)
Definition ser_checksum_map (m : gmap string Checksum) : Json :=
  JObj (map (fun '(k, c) => (k, ser_checksum c)) (map_to_list m)).

(** [HashSet<PathBuf>]: an array. *)
Definition ser_path_set (s : gset string) : Json := JArr (map JStr (elements s)).

(** [Pile]: a struct, fields in declaration order. *)
Definition ser_pile (p : Pile) : Json :=
  JObj [("created", ser_checksum_map (created p));
        ("modified", ser_checksum_map (modified p));
        ("deleted", ser_path_set (deleted p));
        ("unmodified", ser_checksum_map (unmodified p))].

(** [Hoard] is [#[serde(untagged)]]: the variant's content alone. *)
Definition ser_hoard (h : Hoard) : Json :=
  match h with
  | Anonymous p => ser_pile p
  | Named ps => JObj (map (fun '(k, p) => (k, ser_pile p)) (map_to_list ps))
  end.

(** Modelled from the spec: [Direction] is written ["backup"] or
    ["restore"] (section 6). *)
Definition ser_direction (d : Direction) : Json :=
  match d with Backup => JStr "backup" | Restore => JStr "restore" end.

(** [OffsetDateTime] through the [time] crate's [Serialize]: the date, the
    time to the nanosecond and the offset (a string for a human-readable
    format such as JSON, a tuple otherwise). The encoding is abstracted as
    the instant it denotes, in nanoseconds since the Unix epoch; no digit is
    dropped. *)
Definition ser_timestamp (t : OffsetDateTime) : Json := JNum t.

(** [OperationV2]; [hoards_root] is skipped. *)
Definition ser_operation (o : OperationV2) : Json :=
  JObj [("timestamp", ser_timestamp (timestamp o));
        ("direction", ser_direction (direction o));
        ("hoard", JStr (hoard o));
        ("files", ser_hoard (files o))].

(** *** Deserialization *)

Definition de_str (j : Json) : option string :=
  match j with JStr s => Some s | _ => None end.

(** An externally tagged enum: an object with exactly one entry. *)
Definition de_checksum (j : Json) : option Checksum :=
  match j with
  | JObj [(tag, JStr h)] =>
      if String.eqb tag "md5" then Some (MD5 h)
      else if String.eqb tag "sha256" then Some (SHA256 h)
      else None
  | _ => None
  end.

(** A [HashMap] from an object: entries inserted in order. *)
Definition de_checksum_map (j : Json) : option (gmap string Checksum) :=
  match j with
  | JObj l =>
      fold_left (fun acc '(k, v) =>
                   m ← acc; c ← de_checksum v; Some (<[k := c]> m)) l (Some ∅)
  | _ => None
  end.

(** A [HashSet] from an array. *)
Definition de_path_set (j : Json) : option (gset string) :=
  match j with
  | JArr l => fold_left (fun acc v => s ← acc; p ← de_str v; Some ({[p]} ∪ s)) l (Some ∅)
  | _ => None
  end.

(** A struct field of an object: unknown fields are ignored, a missing or
    a duplicated field is an error. *)
Definition field (name : string) (l : list (string * Json)) : option Json :=
  match filter (fun kv => kv.1 = name) l with
  | [(_, v)] => Some v
  | _ => None
  end.

Definition de_pile (j : Json) : option Pile :=
  match j with
  | JObj l =>
      c ← field "created" l ≫= de_checksum_map;
      m ← field "modified" l ≫= de_checksum_map;
      d ← field "deleted" l ≫= de_path_set;
      u ← field "unmodified" l ≫= de_checksum_map;
      Some {| created := c; modified := m; deleted := d; unmodified := u |}
  | _ => None
  end.

Definition de_named (j : Json) : option (gmap string Pile) :=
  match j with
  | JObj l =>
      fold_left (fun acc '(k, v) =>
                   m ← acc; p ← de_pile v; Some (<[k := p]> m)) l (Some ∅)
  | _ => None
  end.

(** [#[serde(untagged)]]: the variants are tried in order. *)
Definition de_hoard (j : Json) : option Hoard :=
  match de_pile j with
  | Some p => Some (Anonymous p)
  | None => Named <$> de_named j
  end.

Definition de_direction (j : Json) : option Direction :=
  match j with
  | JStr s =>
      if String.eqb s "backup" then Some Backup
      else if String.eqb s "restore" then Some Restore
      else None
  | _ => None
  end.

Definition de_timestamp (j : Json) : option OffsetDateTime :=
  match j with JNum ns => Some ns | _ => None end.

(** [OperationV2]; [hoards_root] takes its [Default] value. *)
Definition de_operation (j : Json) : option OperationV2 :=
  match j with
  | JObj l =>
      t ← field "timestamp" l ≫= de_timestamp;
      d ← field "direction" l ≫= de_direction;
      h ← field "hoard" l ≫= de_str;
      f ← field "files" l ≫= de_hoard;
      Some {| timestamp := t; direction := d; hoard := h; files := f; hoards_root := "" |}
  | _ => None
  end.

(** The value a log is read back as: [hoards_root] reset to its default. *)
Definition reloaded (o : OperationV2) : OperationV2 :=
  {| timestamp := timestamp o; direction := direction o;
     hoard := hoard o; files := files o; hoards_root := "" |}.

End Json.

(* ===================================================================== *)
(** * [AllFilesIter] (hoard/iter/all_files.rs) *)
(* ===================================================================== *)

Module AllFiles.

(** A directory tree: a file, or a directory with its entries in the order
    [read_dir] returns them. *)
Inductive Tree :=
| TFile
| TDir (entries : list (string * Tree)).

(** The first entry of a directory with the given name. *)
Fixpoint find_entry (n : string) (es : list (string * Tree)) : option Tree :=
  match es with
  | [] => None
  | (m, t) :: es' => if String.eqb m n then Some t else find_entry n es'
  end.

(** The node at a relative path under an (optional) root. *)
Fixpoint lookup (t : option Tree) (p : list string) : option Tree :=
  match p with
  | [] => t
  | n :: p' =>
      match t with
      | Some (TDir es) => lookup (find_entry n es) p'
      | _ => None
      end
  end.

Definition path_is_file (t : option Tree) (p : list string) : bool :=
  match lookup t p with Some TFile => true | _ => false end.
Definition path_is_dir (t : option Tree) (p : list string) : bool :=
  match lookup t p with Some (TDir _) => true | _ => false end.

(** The listing of a directory of a tree at a relative path: the entries'
    paths relative to the pile's prefix ([entry.path().strip_prefix(prefix)]);
    [NotFound] for a missing path and [NotADirectory] for a file. *)
Definition list_dir (t : option Tree) (p : list string) : result (list (list string)) IoErrorKind :=
  match lookup t p with
  | None => Err NotFound
  | Some TFile => Err NotADirectory
  | Some (TDir es) => Ok (map (fun e => p ++ [e.1]) es)
  end.

(** An item of [fs::ReadDir]: an entry's path relative to the pile's prefix,
    or the [io::Error] of an entry that could not be read. *)
Definition Entry := result (list string) IoErrorKind.

(** [fs::read_dir] at a relative path: the entries, or the error of the call.
    It is left arbitrary: any [io::Error] for the call or for an entry. *)
Definition DirReader := list string -> result (list Entry) IoErrorKind.

(** The [fs::read_dir] of a tree: its listing, every entry readable. *)
Definition tree_read_dir (t : option Tree) : DirReader :=
  fun p => match list_dir t p with Ok es => Ok (map Ok es) | Err e => Err e end.

(** One pile of the hoard: its name, the system tree under its system
    prefix, the hoard tree under its hoard prefix (what the metadata calls
    of [HoardFile::is_file] and [HoardFile::is_dir] see), the [fs::read_dir]
    of either side, and its [Filters] ([filters.keep(system_prefix,
    system_path)] as a predicate on the relative path). *)
Record PileRoot := {
  pile_name : option string;
  system_tree : option Tree;
  hoard_tree : option Tree;
  system_read_dir : DirReader;
  hoard_read_dir : DirReader;
  keep_path : list string -> bool;
}.

(** [RootPathItem]: the [HoardFile] (pile and relative path) with the
    pile's filters. *)
Record RootPathItem := { item_pile : PileRoot; relative_path : list string }.

(** Modelled from the spec: [HoardFile::is_file] and [HoardFile::is_dir]
    (hoard_file.rs is not part of the sources): the item is a file (a
    directory) when its path is one on the system side or on the hoard
    side. *)
Definition is_file (i : RootPathItem) : bool :=
  path_is_file (system_tree (item_pile i)) (relative_path i)
  || path_is_file (hoard_tree (item_pile i)) (relative_path i).
Definition is_dir (i : RootPathItem) : bool :=
  path_is_dir (system_tree (item_pile i)) (relative_path i)
  || path_is_dir (hoard_tree (item_pile i)) (relative_path i).

(** [RootPathItem::keep]. *)
Definition keep (i : RootPathItem) : bool :=
  (is_file i || is_dir i) && keep_path (item_pile i) (relative_path i).

(** What the iterator yields for a file: [(pile_name, relative_path)]. *)
Definition hoard_file (i : RootPathItem) : option string * list string :=
  (pile_name (item_pile i), relative_path i).

(** What [next] yields. *)
Definition Item := result (option string * list string) IoErrorKind.

(** The iterator state. [root_paths] is the [Vec] used as a stack, its top
    first; [system_entries] and [hoard_entries] are the unread rest of the
    [Peekable<ReadDir>]s. *)
Record AllFilesIter := {
  root_paths : list RootPathItem;
  system_entries : option (list Entry);
  hoard_entries : option (list Entry);
  current_root : option RootPathItem;
}.

(** [AllFilesIter::new]: one item per pile with a path, pushed in order. *)
Definition new (piles : list PileRoot) : AllFilesIter :=
  {| root_paths := rev (map (fun p => {| item_pile := p; relative_path := [] |}) piles);
     system_entries := None; hoard_entries := None; current_root := None |}.

(** [has_dir_entries]: [peek().is_some()] on either side, so an unread
    [Err] entry counts. *)
Definition has_entries (e : option (list Entry)) : bool :=
  match e with Some (_ :: _) => true | _ => false end.
Definition has_dir_entries (se he : option (list Entry)) : bool :=
  has_entries se || has_entries he.

Definition mk_state (stack : list RootPathItem) (se he : option (list Entry))
  (cur : option RootPathItem) : AllFilesIter :=
  {| root_paths := stack; system_entries := se; hoard_entries := he; current_root := cur |}.

(** [ensure_dir_entries]: the [while] loop, one popped item per round.
    [Some None] ends the iteration, [Some (Some r)] returns [r], [None]
    hands over to the entry loops. A [read_dir] error other than
    [NotFound] is returned; on the system side before [system_entries]
    is set, on the hoard side after. *)
Fixpoint ensure_dir_entries (stack : list RootPathItem)
  (se he : option (list Entry)) (cur : option RootPathItem)
  : option (option Item) * AllFilesIter :=
  if has_dir_entries se he then (None, mk_state stack se he cur) else
  match stack with
  | [] => (Some None, mk_state [] se he cur)
  | item :: stack' =>
      if keep item then
        if is_file item then (Some (Some (Ok (hoard_file item))), mk_state stack' se he cur)
        else if is_dir item then
          let sys := system_read_dir (item_pile item) (relative_path item) in
          let hrd := hoard_read_dir (item_pile item) (relative_path item) in
          match sys with
          | Err e =>
              if decide (e = NotFound) then
                match hrd with
                | Ok hs => ensure_dir_entries stack' None (Some hs) (Some item)
                | Err e' =>
                    if decide (e' = NotFound)
                    then ensure_dir_entries stack' None None (Some item)
                    else (Some (Some (Err e')), mk_state stack' None he cur)
                end
              else (Some (Some (Err e)), mk_state stack' se he cur)
          | Ok ss =>
              match hrd with
              | Ok hs => ensure_dir_entries stack' (Some ss) (Some hs) (Some item)
              | Err e' =>
                  if decide (e' = NotFound)
                  then ensure_dir_entries stack' (Some ss) None (Some item)
                  else (Some (Some (Err e')), mk_state stack' (Some ss) he cur)
              end
          end
        else ensure_dir_entries stack' se he cur
      else ensure_dir_entries stack' se he cur
  end.

(** The [for entry in entries] loop over one side: what to return (if
    anything), the unread entries and the stack. An [Err] entry is
    returned, consumed from the [ReadDir]. *)
Fixpoint drain (cur : RootPathItem) (es : list Entry) (stack : list RootPathItem)
  : option Item * list Entry * list RootPathItem :=
  match es with
  | [] => (None, [], stack)
  | Err err :: es' => (Some (Err err), es', stack)
  | Ok rel :: es' =>
      let new_item := {| item_pile := item_pile cur; relative_path := rel |} in
      if keep new_item then
        if is_file new_item then (Some (Ok (hoard_file new_item)), es', stack)
        else if is_dir new_item then drain cur es' (new_item :: stack)
        else drain cur es' stack
      else drain cur es' stack
  end.

(** [if let Some(entries) = ..as_mut() { for entry in entries { .. } }] *)
Definition drain_side (cur : RootPathItem) (e : option (list Entry)) (stack : list RootPathItem)
  : option Item * option (list Entry) * list RootPathItem :=
  match e with
  | Some es => let '(y, es', stack') := drain cur es stack in (y, Some es', stack')
  | None => (None, None, stack)
  end.

(** The outcome of one round of the [loop] in [next]. *)
Inductive Round (S : Type) :=
| Yield (r : Item) (st : S)
| Finished (st : S)
| Panic
| Continue (st : S).
Arguments Yield {S} r st.
Arguments Finished {S} st.
Arguments Panic {S}.
Arguments Continue {S} st.

(** One round of the [loop] in [AllFilesIter::next]. *)
Definition round (st : AllFilesIter) : Round AllFilesIter :=
  match ensure_dir_entries (root_paths st) (system_entries st) (hoard_entries st)
          (current_root st) with
  | (Some None, st') => Finished st'
  | (Some (Some r), st') => Yield r st'
  | (None, st') =>
      match current_root st' with
      | None => Panic  (* "current_root should not be None" *)
      | Some cur =>
          let '(y, se, stack) := drain_side cur (system_entries st') (root_paths st') in
          match y with
          | Some r => Yield r (mk_state stack se (hoard_entries st') (Some cur))
          | None =>
              let '(y, he, stack) := drain_side cur (hoard_entries st') stack in
              match y with
              | Some r => Yield r (mk_state stack se he (Some cur))
              | None => Continue (mk_state stack se he (Some cur))
              end
          end
      end
  end.

(** How a bounded run of the iterator ended. *)
Inductive Outcome := Done | Panicked | OutOfFuel.

(** Collecting the iterator until [next] returns [None]; [fuel] bounds the
    rounds of the [loop]. *)
Fixpoint run (fuel : nat) (st : AllFilesIter) : list Item * Outcome :=
  match fuel with
  | O => ([], OutOfFuel)
  | S fuel' =>
      match round st with
      | Finished _ => ([], Done)
      | Panic => ([], Panicked)
      | Yield r st' => let '(l, o) := run fuel' st' in (r :: l, o)
      | Continue st' => run fuel' st'
      end
  end.

(** ** The iterator over readable trees

    The same loop when every [read_dir] is the listing of a tree
    ([tree_read_dir]): the unread entries are plain paths, no entry is an
    [Err], and the reads are those of the trees. The proofs about the
    iterator are carried out on this version and transferred to the one
    above through [lift]. *)

(** The state, with the unread entries as paths. *)
Record TreeIter := {
  t_root_paths : list RootPathItem;
  t_system_entries : option (list (list string));
  t_hoard_entries : option (list (list string));
  t_current_root : option RootPathItem;
}.

Definition t_new (piles : list PileRoot) : TreeIter :=
  {| t_root_paths := rev (map (fun p => {| item_pile := p; relative_path := [] |}) piles);
     t_system_entries := None; t_hoard_entries := None; t_current_root := None |}.

Definition t_has_entries (e : option (list (list string))) : bool :=
  match e with Some (_ :: _) => true | _ => false end.
Definition t_has_dir_entries (se he : option (list (list string))) : bool :=
  t_has_entries se || t_has_entries he.

Definition t_mk_state (stack : list RootPathItem) (se he : option (list (list string)))
  (cur : option RootPathItem) : TreeIter :=
  {| t_root_paths := stack; t_system_entries := se; t_hoard_entries := he; t_current_root := cur |}.

(** [ensure_dir_entries], reading the trees. *)
Fixpoint t_ensure_dir_entries (stack : list RootPathItem)
  (se he : option (list (list string))) (cur : option RootPathItem)
  : option (option Item) * TreeIter :=
  if t_has_dir_entries se he then (None, t_mk_state stack se he cur) else
  match stack with
  | [] => (Some None, t_mk_state [] se he cur)
  | item :: stack' =>
      if keep item then
        if is_file item then (Some (Some (Ok (hoard_file item))), t_mk_state stack' se he cur)
        else if is_dir item then
          let sys := list_dir (system_tree (item_pile item)) (relative_path item) in
          let hrd := list_dir (hoard_tree (item_pile item)) (relative_path item) in
          match sys with
          | Err e =>
              if decide (e = NotFound) then
                match hrd with
                | Ok hs => t_ensure_dir_entries stack' None (Some hs) (Some item)
                | Err e' =>
                    if decide (e' = NotFound)
                    then t_ensure_dir_entries stack' None None (Some item)
                    else (Some (Some (Err e')), t_mk_state stack' None he cur)
                end
              else (Some (Some (Err e)), t_mk_state stack' se he cur)
          | Ok ss =>
              match hrd with
              | Ok hs => t_ensure_dir_entries stack' (Some ss) (Some hs) (Some item)
              | Err e' =>
                  if decide (e' = NotFound)
                  then t_ensure_dir_entries stack' (Some ss) None (Some item)
                  else (Some (Some (Err e')), t_mk_state stack' (Some ss) he cur)
              end
          end
        else t_ensure_dir_entries stack' se he cur
      else t_ensure_dir_entries stack' se he cur
  end.

(** The entry loop over one side: the file to yield (if any), the unread
    entries and the stack. *)
Fixpoint t_drain (cur : RootPathItem) (es : list (list string)) (stack : list RootPathItem)
  : option (option string * list string) * list (list string) * list RootPathItem :=
  match es with
  | [] => (None, [], stack)
  | rel :: es' =>
      let new_item := {| item_pile := item_pile cur; relative_path := rel |} in
      if keep new_item then
        if is_file new_item then (Some (hoard_file new_item), es', stack)
        else if is_dir new_item then t_drain cur es' (new_item :: stack)
        else t_drain cur es' stack
      else t_drain cur es' stack
  end.

Definition t_drain_side (cur : RootPathItem) (e : option (list (list string)))
  (stack : list RootPathItem)
  : option (option string * list string) * option (list (list string)) * list RootPathItem :=
  match e with
  | Some es => let '(y, es', stack') := t_drain cur es stack in (y, Some es', stack')
  | None => (None, None, stack)
  end.

Definition t_round (st : TreeIter) : Round TreeIter :=
  match t_ensure_dir_entries (t_root_paths st) (t_system_entries st) (t_hoard_entries st)
          (t_current_root st) with
  | (Some None, st') => Finished st'
  | (Some (Some r), st') => Yield r st'
  | (None, st') =>
      match t_current_root st' with
      | None => Panic  (* "current_root should not be None" *)
      | Some cur =>
          let '(y, se, stack) := t_drain_side cur (t_system_entries st') (t_root_paths st') in
          match y with
          | Some f => Yield (Ok f) (t_mk_state stack se (t_hoard_entries st') (Some cur))
          | None =>
              let '(y, he, stack) := t_drain_side cur (t_hoard_entries st') stack in
              match y with
              | Some f => Yield (Ok f) (t_mk_state stack se he (Some cur))
              | None => Continue (t_mk_state stack se he (Some cur))
              end
          end
      end
  end.

Fixpoint t_run (fuel : nat) (st : TreeIter) : list Item * Outcome :=
  match fuel with
  | O => ([], OutOfFuel)
  | S fuel' =>
      match t_round st with
      | Finished _ => ([], Done)
      | Panic => ([], Panicked)
      | Yield r st' => let '(l, o) := t_run fuel' st' in (r :: l, o)
      | Continue st' => t_run fuel' st'
      end
  end.

(** A state of the tree version as a state of [AllFilesIter]: every unread
    entry is an [Ok] entry. *)
Definition lift_entries (e : option (list (list string))) : option (list Entry) :=
  option_map (map Ok) e.
Definition lift (st : TreeIter) : AllFilesIter :=
  mk_state (t_root_paths st) (lift_entries (t_system_entries st))
    (lift_entries (t_hoard_entries st)) (t_current_root st).
Definition lift_round (r : Round TreeIter) : Round AllFilesIter :=
  match r with
  | Yield i st => Yield i (lift st)
  | Finished st => Finished (lift st)
  | Panic => Panic
  | Continue st => Continue (lift st)
  end.

(** The filtered union of the specification for one pile: the relative
    paths that are files on the system side or on the hoard side and that
    the filters keep, together with every directory above them. *)
Definition in_filtered_union (pr : PileRoot) (rel : list string) : Prop :=
  (path_is_file (system_tree pr) rel = true \/ path_is_file (hoard_tree pr) rel = true) /\
  forall k, k <= length rel -> keep_path pr (take k rel) = true.

(** No path is a file on one side and a directory on the other. *)
Definition type_consistent (pr : PileRoot) : Prop :=
  forall rel,
    ~ (path_is_file (system_tree pr) rel = true /\ path_is_dir (hoard_tree pr) rel = true) /\
    ~ (path_is_dir (system_tree pr) rel = true /\ path_is_file (hoard_tree pr) rel = true).

(** Every [fs::read_dir] of the pile lists the directory of its tree with
    every entry readable, or fails with [NotFound] (a missing path) or
    [NotADirectory] (a file). *)
Definition reads_succeed (pr : PileRoot) : Prop :=
  forall p, system_read_dir pr p = tree_read_dir (system_tree pr) p /\
            hoard_read_dir pr p = tree_read_dir (hoard_tree pr) p.


(** ** Measures and invariants used in the proofs about [AllFilesIter] *)

(** The number of nodes of a tree. It bounds the depth of any path that
    resolves in the tree and the number of entries of any of its
    directories. *)
Fixpoint tree_size (t : Tree) : nat :=
  match t with
  | TFile => 1
  | TDir es => S (sum_list_with (fun e => tree_size e.2) es)
  end.
Definition size_opt (t : option Tree) : nat := match t with Some t => tree_size t | None => 0 end.
Definition pile_size (p : PileRoot) : nat := size_opt (system_tree p) + size_opt (hoard_tree p).

(** The termination measure: a pending item at depth [d] weighs
    [B ^ (pile_size - d)] with [B = 2 * pile_size + 1]; an unread directory
    entry weighs twice the item it may become. *)
Definition weight (p : PileRoot) (d : nat) : nat := (2 * pile_size p + 1) ^ (pile_size p - d).
Definition stack_weight (stack : list RootPathItem) : nat :=
  sum_list_with (fun i => weight (item_pile i) (length (relative_path i))) stack.
Definition entries_weight (p : PileRoot) (es : list (list string)) : nat :=
  sum_list_with (fun e => 2 * weight p (length e)) es.
Definition entries_of (st : TreeIter) : list (list string) :=
  default [] (t_system_entries st) ++ default [] (t_hoard_entries st).
Definition potential (st : TreeIter) : nat :=
  stack_weight (t_root_paths st) +
  match t_current_root st with Some c => entries_weight (item_pile c) (entries_of st) | None => 0 end.

(** Every proper prefix of the path is kept by the pile's filters. *)
Definition anc_kept (pr : PileRoot) (rel : list string) : Prop :=
  forall k, k < length rel -> keep_path pr (take k rel) = true.
Definition item_ok (piles : list PileRoot) (i : RootPathItem) : Prop :=
  item_pile i ∈ piles /\ anc_kept (item_pile i) (relative_path i).
(** The item built from a directory entry of [current_root]. *)
Definition entry_item (c : RootPathItem) (e : list string) : RootPathItem :=
  {| item_pile := item_pile c; relative_path := e |}.

(** The state invariant: pending items and entries belong to the piles and
    lie under kept directories; unread entries have a [current_root]. *)
Definition iter_inv (piles : list PileRoot) (st : TreeIter) : Prop :=
  Forall (item_ok piles) (t_root_paths st) /\
  (entries_of st <> [] -> is_Some (t_current_root st)) /\
  (forall c, t_current_root st = Some c -> Forall (fun e => item_ok piles (entry_item c e)) (entries_of st)).

(** A path of pile [pr] is still to be reached: a pending item or an unread
    entry of that pile is a prefix of it. *)
Definition covers (pr : PileRoot) (rel : list string) (st : TreeIter) : Prop :=
  (exists i, i ∈ t_root_paths st /\ item_pile i = pr /\ relative_path i `prefix_of` rel) \/
  (exists c e, t_current_root st = Some c /\ item_pile c = pr /\ e ∈ entries_of st /\ e `prefix_of` rel).

(** The [system_entries] or [hoard_entries] that [ensure_dir_entries] stores
    for a directory: [read_dir]'s entries, or [None] on an error. *)
Definition read_side (t : option Tree) (p : list string) : option (list (list string)) :=
  match list_dir t p with Ok es => Some es | Err _ => None end.

(** A pile whose system and hoard directories both hold the file [a]. *)
Definition both_sides_pile : PileRoot :=
  {| pile_name := None; system_tree := Some (TDir [("a", TFile)]);
     hoard_tree := Some (TDir [("a", TFile)]);
     system_read_dir := tree_read_dir (Some (TDir [("a", TFile)]));
     hoard_read_dir := tree_read_dir (Some (TDir [("a", TFile)]));
     keep_path := fun _ => true |}.

(** The same pile when [fs::read_dir] of the system directory is refused. *)
Definition denied_pile : PileRoot :=
  {| pile_name := None; system_tree := Some (TDir [("a", TFile)]);
     hoard_tree := Some (TDir [("a", TFile)]);
     system_read_dir := fun _ => Err PermissionDenied;
     hoard_read_dir := tree_read_dir (Some (TDir [("a", TFile)]));
     keep_path := fun _ => true |}.

(** The same pile when the first entry of the system listing fails. *)
Definition bad_entry_pile : PileRoot :=
  {| pile_name := None; system_tree := Some (TDir [("a", TFile)]);
     hoard_tree := Some (TDir [("a", TFile)]);
     system_read_dir := fun _ => Ok [Err OtherIo; Ok ["a"]];
     hoard_read_dir := tree_read_dir (Some (TDir [("a", TFile)]));
     keep_path := fun _ => true |}.

End AllFiles.

(* ##################################################################### *)
(** * Theorems *)
(* ##################################################################### *)

(* ===================================================================== *)
(** ** The operation translator *)
(* ===================================================================== *)

Section OperationTranslator.
Import Operation.

(** Claim C1: for every diff and every direction, [OperationIter] yields
    exactly one operation, for the same item, whose kind is the entry of
    the table of section 4.6 for the diff's kind and source (Modified of
    any flavour gives Modify, Created/Recreated and Deleted follow the
    direction and source rows, Unchanged gives Nothing); the translation of
    a stream is the element-wise translation of its diffs, so it is a pure
    function of the stream and the direction. *)
Theorem operation_iter_table :
  (forall (E : Type) (dir : Direction) (d : HoardFileDiff),
     exists o, next_op (E := E) dir (Ok d) = Ok o /\
               op_kind o = table_4_6 (diff_kind d) dir (diff_source_of d) /\
               op_file o = diff_file d) /\
  (forall (E : Type) (dir : Direction) (diffs : list (result HoardFileDiff E)) (i : nat),
     operation_iter dir diffs !! i = next_op dir <$> diffs !! i).
Proof.
  split.
  - intros E dir d.
    destruct d as [f s|f u s|f hp sp s|f s|f s|f s|f];
      try destruct dir; try destruct s;
      (eexists; split; [reflexivity | split; reflexivity]).
  - intros E dir diffs i. unfold operation_iter. apply list_lookup_fmap.
Qed.

End OperationTranslator.

(* ===================================================================== *)
(** ** Log file names *)
(* ===================================================================== *)

Section LogFiles.
Import Util.

(** Claim C9: a directory entry is an operation log for enumeration and
    retention exactly when it is a file whose name matches the anchored
    [LOG_FILE_REGEX]; [2024_01_02-03_04_05.000000.log] matches while
    [2024-01-02T03:04:05.log], [last_paths.json] and
    [2024_01_02-03_04_05.log] do not. *)
Theorem file_is_log_regex :
  (forall (is_file : list string -> bool) (path : list string),
     file_is_log is_file path = true <->
     is_file path = true /\
     exists name, file_name path = Some name /\ is_match LOG_FILE_REGEX name = true) /\
  (forall (is_file : list string -> bool) (dir : list string) (entries : list string)
          (name : string),
     name ∈ log_entries is_file dir entries <->
     name ∈ entries /\ file_is_log is_file (dir ++ [name]) = true) /\
  is_match LOG_FILE_REGEX "2024_01_02-03_04_05.000000.log" = true /\
  is_match LOG_FILE_REGEX "2024-01-02T03:04:05.log" = false /\
  is_match LOG_FILE_REGEX "last_paths.json" = false /\
  is_match LOG_FILE_REGEX "2024_01_02-03_04_05.log" = false.
Proof.
  split; [|split; [|vm_compute; repeat split]].
  - intros is_file path. unfold file_is_log.
    rewrite andb_true_iff. destruct (file_name path) as [name|].
    + split.
      * intros [H1 H2]. split; [done|]. exists name. split; [reflexivity | exact H2].
      * intros [H1 (n & [= <-] & H2)]. done.
    + split.
      * intros [_ H]; discriminate.
      * intros [_ (n & [=] & _)].
  - intros is_file dir entries name. unfold log_entries.
    rewrite list_elem_of_filter. tauto.
Qed.

End LogFiles.

(* ===================================================================== *)
(** ** Retention *)
(* ===================================================================== *)

Section Retention.
Import Util.

Lemma vec_pop_some {A} (l rest : list A) (x : A) :
  vec_pop l = (rest, Some x) -> l = rest ++ [x].
Proof.
  unfold vec_pop. destruct (last l) eqn:E; intros [= <- <-].
  apply last_Some in E as [l' ->]. by rewrite removelast_last.
Qed.

Lemma vec_pop_none {A} (l rest : list A) : vec_pop l = (rest, None) -> l = [].
Proof.
  unfold vec_pop. destruct (last l) eqn:E; intros [=]. by apply last_None.
Qed.

Lemma enumerate_snoc {A} (l : list A) (x : A) :
  enumerate (l ++ [x]) = enumerate l ++ [(length l, x)].
Proof.
  unfold enumerate. rewrite length_app. simpl. rewrite seq_app.
  rewrite (zip_with_app pair (seq 0 (length l)) _ l [x]); [done|].
  by rewrite length_seq.
Qed.

Lemma latest_backup_index_spec (is_backup : string -> bool) (l : list string) :
  match latest_backup_index (fun f => Ok (is_backup f)) l with
  | Ok (Some i) =>
      exists b, l !! i = Some b /\ is_backup b = true /\
        forall j b', i < j -> l !! j = Some b' -> is_backup b' = false
  | Ok None => forall j b', l !! j = Some b' -> is_backup b' = false
  | Err _ => False
  end.
Proof.
  induction l as [|x l IH] using rev_ind.
  - simpl. intros j b' H. by rewrite lookup_nil in H.
  - unfold latest_backup_index in *.
    rewrite enumerate_snoc, rev_app_distr. simpl.
    destruct (is_backup x) eqn:Hx.
    + exists x. split; [|split; [done|]].
      * rewrite lookup_app_r, Nat.sub_diag; done.
      * intros j b' Hj Hb'. apply lookup_lt_Some in Hb'.
        rewrite length_app in Hb'. simpl in Hb'. lia.
    + destruct (find_map _ (rev (enumerate l))) as [[i|e]|]; [|done|].
      * destruct IH as (b & Hb & Hbb & Hlater). exists b.
        split; [by apply lookup_app_l_Some|]. split; [done|].
        intros j b' Hj Hb'.
        destruct (decide (j < length l)).
        -- rewrite lookup_app_l in Hb' by done. eauto.
        -- apply lookup_app_Some in Hb' as [Hb'|[Hge Hb']]; [eauto|].
           apply list_lookup_singleton_Some in Hb' as [_ <-]. done.
      * intros j b' Hb'.
        apply lookup_app_Some in Hb' as [Hb'|[Hge Hb']]; [eauto|].
        apply list_lookup_singleton_Some in Hb' as [_ <-]. done.
Qed.

Lemma strongly_sorted_lookup {A} (R : relation A) (l : list A) i j x y :
  StronglySorted R l -> j < i -> l !! j = Some x -> l !! i = Some y -> R x y.
Proof.
  intros Hs. revert i j. induction Hs as [|a l Hs IH Hf]; intros i j Hji Hj Hi.
  - done.
  - destruct j as [|j], i as [|i]; simpl in *; try lia.
    + injection Hj as <-. by eapply Forall_lookup_1.
    + apply (IH i j); auto; lia.
Qed.

Lemma vec_remove_elem {A} (l : list A) i b x :
  NoDup l -> l !! i = Some b -> x ∈ l -> (x ∉ vec_remove i l <-> x = b).
Proof.
  intros Hnd Hb Hx. unfold vec_remove.
  pose proof (take_drop_middle l i b Hb) as Hl.
  rewrite <- Hl in Hnd, Hx.
  apply NoDup_app in Hnd as (_ & Hdisj & Hnd2).
  apply NoDup_cons in Hnd2 as [Hbd _].
  rewrite elem_of_app, elem_of_cons in Hx.
  split.
  - intros Hn. destruct Hx as [Hx|[Hx|Hx]]; [|done|];
      exfalso; apply Hn; rewrite elem_of_app; auto.
  - intros ->. rewrite elem_of_app. intros [Hin|Hin].
    + apply (Hdisj b Hin). by left.
    + done.
Qed.

(** Claim C3: in one [(system, hoard)] directory whose logs are all
    readable, retention succeeds, deletes only logs, and a log survives
    exactly when it is the lexicographically latest one, or the latest
    backup when the latest log records a restore. For the sequences
    B1, B2, R3 and B1, R2, B3 the survivors are {B2, R3} and {B3}. *)
Theorem cleanup_retention :
  (forall (is_backup : string -> bool) (logs : list string),
     NoDup logs ->
     exists dels,
       hoard_deletions (fun f => Ok (is_backup f)) logs = Ok dels /\
       (forall f, f ∈ dels -> f ∈ logs) /\
       (forall f, f ∈ logs -> (f ∉ dels <-> retained_by_rule is_backup logs f))) /\
  (let B1 := "2024_01_01-10_00_00.000000.log" in
   let B2 := "2024_01_02-10_00_00.000000.log" in
   let R3 := "2024_01_03-10_00_00.000000.log" in
   let rd := fun f => Ok (bool_decide (f ∈ [B1; B2])) in
   exists dels, hoard_deletions rd [B1; B2; R3] = Ok dels /\
     filter (fun f => f ∉ dels) [B1; B2; R3] = [B2; R3]) /\
  (let B1 := "2024_01_01-10_00_00.000000.log" in
   let R2 := "2024_01_02-10_00_00.000000.log" in
   let B3 := "2024_01_03-10_00_00.000000.log" in
   let rd := fun f => Ok (bool_decide (f ∈ [B1; B3])) in
   exists dels, hoard_deletions rd [B1; R2; B3] = Ok dels /\
     filter (fun f => f ∉ dels) [B1; R2; B3] = [B3]).
Proof.
  split; [|split; (eexists; split; [vm_compute; reflexivity | vm_compute; reflexivity])].
  intros is_b logs Hnd.
  pose proof (merge_sort_Permutation String.le logs) as Hperm.
  pose proof (StronglySorted_merge_sort String.le logs) as Hss.
  assert (Hnd' : NoDup (merge_sort String.le logs)) by (by rewrite Hperm).
  unfold hoard_deletions.
  destruct (vec_pop (merge_sort String.le logs)) as [rest [recent|]] eqn:Hpop.
  2:{ pose proof Hpop as Hp2. apply vec_pop_none in Hpop. rewrite Hpop in Hperm, Hp2.
      unfold vec_pop in Hp2. simpl in Hp2. injection Hp2 as <-.
      apply Permutation_nil_l in Hperm. subst logs.
      exists []. split; [done|]. split; intros f Hf; by apply elem_of_nil in Hf. }
  apply vec_pop_some in Hpop. rewrite Hpop in Hperm, Hss, Hnd'.
  assert (Hin : forall f, f ∈ logs <-> f ∈ rest \/ f = recent).
  { intros f. rewrite <- Hperm, elem_of_app, list_elem_of_singleton. done. }
  apply NoDup_app in Hnd' as (Hndr & Hdisj & _).
  assert (Hrecent : recent ∉ rest).
  { intros Hr. apply (Hdisj recent Hr). by left. }
  assert (Hmax : forall g, g ∈ rest -> String.le g recent).
  { intros g Hg. eapply StronglySorted_app_1_elem_of; [exact Hss|exact Hg|by left]. }
  assert (Hlatest : forall f, is_latest logs f <-> f = recent).
  { intros f. split.
    - intros [Hf Hge]. apply Hin in Hf as [Hf| ->]; [|done].
      apply (anti_symm String.le); [by apply Hmax|]. apply Hge, Hin. by right.
    - intros ->. split; [apply Hin; by right|].
      intros g Hg. apply Hin in Hg as [Hg| ->]; [by apply Hmax|done]. }
  assert (Hrest_sub : forall f, f ∈ rest -> f ∈ logs) by (intros f Hf; apply Hin; auto).
  destruct (is_b recent) eqn:Hr.
  - exists rest. split; [done|]. split; [done|].
    intros f Hf. unfold retained_by_rule. rewrite Hlatest. split.
    + intros Hn. left. apply Hin in Hf as [Hf|Hf]; [done|done].
    + intros [-> |[(l & Hl & Hlb) _]]; [done|].
      apply Hlatest in Hl. subst l. congruence.
  - pose proof (latest_backup_index_spec is_b rest) as Hspec.
    destruct (latest_backup_index _ rest) as [[i|]|e]; [|simpl|done].
    + destruct Hspec as (b & Hb & Hbb & Hlater).
      assert (Hbrest : b ∈ rest) by (by eapply list_elem_of_lookup_2).
      (* backups of [rest] are at or before index [i] *)
      assert (Hbefore : forall g, g ∈ rest -> is_b g = true -> String.le g b).
      { intros g Hg Hgb. apply list_elem_of_lookup in Hg as [j Hj].
        destruct (lt_eq_lt_dec j i) as [[Hji| ->]|Hij].
        - eapply strongly_sorted_lookup; [|exact Hji|exact Hj|exact Hb].
          by apply StronglySorted_app_1_l in Hss.
        - rewrite Hj in Hb. injection Hb as ->. done.
        - by rewrite (Hlater j g Hij Hj) in Hgb. }
      exists (vec_remove i rest). split; [done|]. split.
      * intros f Hf. apply Hrest_sub. unfold vec_remove in Hf.
        rewrite <- (take_drop_middle rest i b Hb).
        rewrite elem_of_app in Hf |- *. rewrite elem_of_cons. tauto.
      * intros f Hf. unfold retained_by_rule. rewrite Hlatest.
        assert (Hiff : f ∉ vec_remove i rest <-> f = recent \/ f = b).
        { apply Hin in Hf as [Hf| ->].
          - rewrite (vec_remove_elem rest i b f Hndr Hb Hf).
            split; [auto|]. intros [-> |]; [done|done].
          - split; [auto|]. intros _ Hrm. apply Hrecent.
            unfold vec_remove in Hrm. rewrite <- (take_drop_middle rest i b Hb).
            rewrite elem_of_app in Hrm |- *. rewrite elem_of_cons. tauto. }
        rewrite Hiff. split.
        -- intros [-> | ->]; [by left|right].
           split; [exists recent; split; [by apply Hlatest|done]|].
           split; [done|]. intros g Hg Hgb. apply Hin in Hg as [Hg| ->].
           ++ by apply Hbefore.
           ++ congruence.
        -- intros [-> |[_ [Hfb Hfmax]]]; [by left|right].
           assert (Hfr : f ∈ rest).
           { apply Hin in Hf as [Hf| ->]; [done|congruence]. }
           apply (anti_symm String.le).
           ++ by apply Hbefore.
           ++ apply Hfmax; [by apply Hrest_sub|done].
    + exists rest. split; [done|]. split; [done|].
      intros f Hf. unfold retained_by_rule. rewrite Hlatest. split.
      * intros Hn. left. apply Hin in Hf as [Hf|Hf]; [done|done].
      * intros [-> |[_ [Hfb _]]]; [done|].
        apply Hin in Hf as [Hf| ->]; [|congruence].
        apply list_elem_of_lookup in Hf as [j Hj].
        by rewrite (Hspec j f Hj) in Hfb.
Qed.

Lemma cleanup_retention_witness :
  NoDup ["b.log"; "a.log"; "c.log"] /\
  exists dels,
    hoard_deletions (fun f => Ok (bool_decide (f = "a.log"))) ["b.log"; "a.log"; "c.log"] = Ok dels /\
    (forall f, f ∈ dels -> f ∈ ["b.log"; "a.log"; "c.log"]) /\
    (forall f, f ∈ ["b.log"; "a.log"; "c.log"] ->
       (f ∉ dels <-> retained_by_rule (fun f => bool_decide (f = "a.log")) ["b.log"; "a.log"; "c.log"] f)).
Proof.
  assert (Hnd : NoDup ["b.log"; "a.log"; "c.log"]) by (apply (bool_decide_unpack _); vm_compute; reflexivity).
  split; [exact Hnd|].
  exact (proj1 cleanup_retention (fun f => bool_decide (f = "a.log")) _ Hnd).
Defined.

End Retention.

Section Deletion.
Import Util.

(** Claim C7: [cleanup_operations] does not stop deleting at the first
    failure. With the paths [a] and [b] where [a] cannot be removed, the
    result is the error of [a] with count 0, and [b] is still removed. *)
Theorem cleanup_deletes_after_error :
  let fs := {| fs_files := {["a"; "b"]}; fs_protected := {["a"]} |} in
  delete_all ["a"; "b"] fs =
    (Err (0, PermissionDenied), {| fs_files := {["a"]}; fs_protected := {["a"]} |}).
Proof. vm_compute. reflexivity. Qed.

End Deletion.

Section UpgradeV1.
Import Operation V2.

Lemma pile_paths_empty k : pile_paths k ∅ = ∅.
Proof. unfold pile_paths. set_solver. Qed.

Lemma pile_paths_union k x X :
  pile_paths k ({[x]} ∪ X) =
    if decide (x.1 = k) then {[x.2]} ∪ pile_paths k X else pile_paths k X.
Proof.
  unfold pile_paths. apply set_eq. intros p.
  destruct (decide (x.1 = k)); set_solver.
Qed.

Lemma group_deleted_lookup X k :
  group_deleted X !! k =
    if decide (pile_paths k X = ∅) then None else Some (pile_paths k X).
Proof.
  unfold group_deleted. revert X k.
  refine (set_fold_ind_L (fun r X => forall k, r !! k =
    if decide (pile_paths k X = ∅) then None else Some (pile_paths k X)) _ _ _ _).
  - intros k. rewrite pile_paths_empty, lookup_empty. done.
  - intros x Y r _ IH k. rewrite pile_paths_union.
    destruct (decide (x.1 = k)) as [<-|Hne].
    + rewrite lookup_insert_eq.
      rewrite decide_False by set_solver. f_equal. f_equal.
      specialize (IH x.1). destruct (decide (pile_paths x.1 Y = ∅)) as [He|];
        rewrite IH; [by rewrite He|done].
    + rewrite lookup_insert_ne by done. apply IH.
Qed.

Lemma attach_deleted_lookup files del k :
  attach_deleted files del !! k =
    match del !! k with
    | Some d => Some (pile_set_deleted d (default pile_default (files !! k)))
    | None => files !! k
    end.
Proof.
  unfold attach_deleted. rewrite <- (list_to_map_to_list del) at 2.
  pose proof (NoDup_fst_map_to_list del) as Hnd.
  revert files Hnd. generalize (map_to_list del) as l.
  induction l as [|[k' d] l IH]; intros files Hnd; simpl; [by rewrite lookup_empty|].
  apply NoDup_cons in Hnd as [Hk' Hnd]. rewrite IH by done.
  destruct (decide (k = k')) as [->|Hne].
  - rewrite lookup_insert_eq.
    rewrite (not_elem_of_list_to_map_1 l k') by done. by rewrite lookup_insert_eq.
  - rewrite !lookup_insert_ne by done. done.
Qed.

(** Claim C4: the upgrader never records a deleted path's checksum as
    [None]: after a log that deletes [a], the carried checksum of [a] is
    still its old one, and when [a] comes back with the same content the
    next log lists it as unmodified, not created. *)
Theorem from_v1_deleted_keeps_checksum :
  let '(op1, fcs1, fs1) := from_v1 ∅ ∅ (upgrade_log 1 {["a" := "x"]}) in
  let '(op2, fcs2, fs2) := from_v1 fcs1 fs1 (upgrade_log 2 ∅) in
  let '(op3, _, _) := from_v1 fcs2 fs2 (upgrade_log 3 {["a" := "x"]}) in
  files op2 = Anonymous (pile_set_deleted {["a"]} pile_default) /\
  fcs2 !! (None, "a") = Some (Some (MD5 "x")) /\
  files op3 = Anonymous (pile_insert_unmodified "a" (MD5 "x") pile_default).
Proof. vm_compute. repeat split; reflexivity. Qed.

(** Counterexample to claim C8: an anonymous v1 log with no files, after a
    log that had [file_1], upgrades to a pile whose [deleted] is
    [file_1], not the empty relative path. *)
Theorem from_v1_empty_anonymous_counterexample :
  let '(_, fcs1, fs1) := from_v1 ∅ ∅ (upgrade_log 1 {["file_1" := "x"]}) in
  let '(op2, _, _) := from_v1 fcs1 fs1 (upgrade_log 2 ∅) in
  files op2 = Anonymous (pile_set_deleted {["file_1"]} pile_default) /\
  files op2 <> Anonymous (pile_set_deleted {[""]} pile_default).
Proof. vm_compute. split; [reflexivity|]. intros [=]. Qed.

(** Claim C8 (amended): the upgrade of an anonymous v1 log with no files is
    an anonymous log with nothing created, modified or unmodified, whose
    [deleted] holds the anonymous paths of the carried presence set, or
    only the empty relative path when that set has none. *)
Theorem from_v1_empty_anonymous fcs file_set ts is_backup name :
  let '(op, _, _) :=
    from_v1 fcs file_set {| v1_timestamp := ts; v1_is_backup := is_backup;
                            v1_hoard_name := name; v1_hoard := AnonymousV1 ∅ |} in
  files op = Anonymous (pile_set_deleted
    (if decide (pile_paths None file_set = ∅) then {[""]} else pile_paths None file_set)
    pile_default).
Proof.
  unfold from_v1, v1_all_files. simpl. rewrite map_to_list_empty. simpl.
  f_equal. rewrite attach_deleted_lookup, group_deleted_lookup, difference_empty_L.
  destruct (decide (pile_paths None file_set = ∅)); reflexivity.
Qed.

Lemma elem_of_pile_paths k p X : p ∈ pile_paths k X <-> (k, p) ∈ X.
Proof.
  unfold pile_paths. rewrite elem_of_map. split.
  - intros [[k' p'] [-> Hf]]. apply elem_of_filter in Hf as [Hk Hin].
    simpl in *. by subst.
  - intros H. exists (k, p). split; [done|]. by apply elem_of_filter.
Qed.

Lemma v1_pile_keys_nodup n (l : list (string * string)) :
  NoDup l.*1 -> NoDup (map v1_key (map (fun '(p, c) => (n, p, MD5 c)) l)).
Proof.
  induction l as [|[p c] l IH]; simpl; intros Hnd; [constructor|].
  apply NoDup_cons in Hnd as [Hp Hnd]. constructor; [|by apply IH].
  intros Hin. apply list_elem_of_In, in_map_iff in Hin as [x [Heq Hin]].
  apply in_map_iff in Hin as [[p' c'] [<- Hin]].
  unfold v1_key in Heq. simpl in Heq. injection Heq as Heq. subst p'.
  apply Hp, list_elem_of_fmap. exists (p, c'). split; [done|].
  by apply list_elem_of_In.
Qed.

Lemma v1_named_keys_in (l : list (string * gmap string string)) x :
  x ∈ map v1_key (mjoin (map (fun '(n, m) =>
         map (fun '(p, c) => (Some n, p, MD5 c)) (map_to_list m)) l)) ->
  exists n, x.1 = Some n /\ n ∈ l.*1.
Proof.
  induction l as [|[n m] l IH]; simpl; [by intros ?%elem_of_nil|].
  rewrite map_app, elem_of_app. intros [Hx|Hx].
  - apply list_elem_of_In, in_map_iff in Hx as [y [<- Hy]].
    apply in_map_iff in Hy as [[p c] [<- _]].
    exists n. split; [done|]. by left.
  - destruct (IH Hx) as (n' & Hn' & Hin). exists n'. split; [done|]. by right.
Qed.

Lemma v1_keys_nodup op : NoDup (map v1_key (v1_all_files op)).
Proof.
  unfold v1_all_files. destruct (v1_hoard op) as [m|ps].
  - apply v1_pile_keys_nodup, NoDup_fst_map_to_list.
  - pose proof (NoDup_fst_map_to_list ps) as Hnd.
    induction (map_to_list ps) as [|[n m] l IH]; simpl; [constructor|].
    apply NoDup_cons in Hnd as [Hn Hnd].
    rewrite map_app. apply NoDup_app. split; [|split].
    + apply v1_pile_keys_nodup, NoDup_fst_map_to_list.
    + intros x Hx1 Hx2. apply v1_named_keys_in in Hx2 as (n' & Hn' & Hin).
      apply list_elem_of_In, in_map_iff in Hx1 as [y [<- Hy]].
      apply in_map_iff in Hy as [[p c] [<- _]].
      unfold v1_key in Hn'. simpl in Hn'. injection Hn' as <-. done.
    + by apply IH.
Qed.

Lemma from_v1_step_inv st x :
  from_v1_inv st -> v1_key x ∉ st.1.2 -> from_v1_inv (from_v1_step st x).
Proof.
  destruct st as [[fs these] fcs], x as [[k p] c]. unfold v1_key. simpl.
  intros Hinv Hx k' pile. simpl.
  assert (Hold : pile_disjoint (default pile_default (fs !! k)) /\
     deleted (default pile_default (fs !! k)) = ∅ /\
     dom (created (default pile_default (fs !! k))) ∪ dom (modified (default pile_default (fs !! k)))
       ∪ dom (unmodified (default pile_default (fs !! k))) ⊆ pile_paths k these).
  { destruct (fs !! k) as [old|] eqn:E; simpl; [by apply (Hinv k old)|].
    unfold pile_disjoint, pile_default; simpl. rewrite !dom_empty_L. set_solver. }
  assert (Hp : p ∉ pile_paths k these) by (by rewrite elem_of_pile_paths).
  rewrite pile_paths_union. simpl.
  destruct (decide (k' = k)) as [->|Hne].
  - rewrite lookup_insert_eq. intros [= <-]. rewrite decide_True by done.
    destruct Hold as ((H1 & H2 & H3 & _) & Hdel & Hsub).
    destruct (fcs !! (k, p)) as [[old|]|];
      [destruct (decide (old = c))|..];
      unfold pile_disjoint, pile_insert_created, pile_insert_modified, pile_insert_unmodified;
      simpl; rewrite ?dom_insert_L, Hdel; (split; [|split]); set_solver.
  - rewrite lookup_insert_ne by done. intros Hk.
    destruct (Hinv k' pile Hk) as (Hd & Hdel & Hsub).
    split; [done|split; [done|]]. case_decide; set_solver.
Qed.

Lemma from_v1_fold_inv l st :
  from_v1_inv st -> NoDup (map v1_key l) -> (forall x, x ∈ map v1_key l -> x ∉ st.1.2) ->
  from_v1_inv (fold_left from_v1_step l st).
Proof.
  revert st. induction l as [|x l IH]; intros st Hinv Hnd Hfresh; simpl; [done|].
  simpl in Hnd. apply NoDup_cons in Hnd as [Hx Hnd].
  apply IH; [|done|].
  - apply from_v1_step_inv; [done|]. apply Hfresh. by left.
  - intros y Hy. destruct st as [[fs these] fcs], x as [[k p] c]. simpl.
    rewrite not_elem_of_union, not_elem_of_singleton. split.
    + intros ->. by apply Hx.
    + apply Hfresh. by right.
Qed.

Lemma from_v1_piles_disjoint fcs file_set old_v1 :
  let '(op, _, _) := from_v1 fcs file_set old_v1 in
  forall p, p ∈ hoard_piles (files op) -> pile_disjoint p.
Proof.
  unfold from_v1.
  pose proof (from_v1_fold_inv (v1_all_files old_v1) (∅, ∅, fcs)) as Hinv.
  destruct (fold_left from_v1_step (v1_all_files old_v1) (∅, ∅, fcs))
    as [[fs these] fcs'] eqn:Hfold.
  specialize (Hinv ltac:(intros k pile; simpl; by rewrite lookup_empty)
                   (v1_keys_nodup old_v1)
                   ltac:(intros x _; simpl; apply not_elem_of_empty)).
  assert (Hfinal : forall k pile,
    attach_deleted fs (group_deleted (file_set ∖ these)) !! k = Some pile -> pile_disjoint pile).
  { intros k pile. rewrite attach_deleted_lookup, group_deleted_lookup.
    assert (Hold : pile_disjoint (default pile_default (fs !! k)) /\
       dom (created (default pile_default (fs !! k))) ∪ dom (modified (default pile_default (fs !! k)))
         ∪ dom (unmodified (default pile_default (fs !! k))) ⊆ pile_paths k these).
    { destruct (fs !! k) as [old|] eqn:E; simpl.
      - destruct (Hinv k old E) as (? & _ & ?). done.
      - unfold pile_disjoint, pile_default; simpl. rewrite !dom_empty_L. set_solver. }
    assert (Hd : pile_paths k (file_set ∖ these) ## pile_paths k these).
    { intros q. rewrite !elem_of_pile_paths. set_solver. }
    case_decide.
    - intros Hk. by destruct (Hinv k pile Hk) as (? & _).
    - intros [= <-]. destruct Hold as ((H1 & H2 & H3 & _) & Hsub).
      unfold pile_disjoint, pile_set_deleted. simpl.
      split; [done|split; [done|split; [done|]]]. set_solver. }
  destruct (v1_hoard old_v1) as [m|ps]; simpl.
  - intros p [<- | []]%list_elem_of_In.
    destruct (attach_deleted fs _ !! None) as [p|] eqn:E; simpl; [by eapply Hfinal|].
    unfold pile_disjoint, empty_anonymous_pile, pile_set_deleted, pile_default. simpl.
    rewrite !dom_empty_L. set_solver.
  - intros p Hp. apply list_elem_of_In, in_map_iff in Hp as [[n p'] [<- Hin]].
    apply list_elem_of_In, elem_of_map_to_list in Hin. simpl.
    unfold named_piles in Hin. apply elem_of_list_to_map_2 in Hin.
    apply list_elem_of_omap in Hin as [[k p''] [Hin Heq]].
    destruct k as [n'|]; [|done]. injection Heq as -> ->.
    apply elem_of_map_to_list in Hin. by eapply Hfinal.
Qed.

End UpgradeV1.

Section HoardNew.
Import Operation V2.

Lemma require_checksum_ok c x : require_checksum c = Ok x -> c = Ok (Some x).
Proof. destruct c as [[c'|]|e]; simpl; congruence. Qed.

Lemma hoard_new_fold_err dir l e : fold_left (hoard_new_step dir) l (Err e) = Err e.
Proof. induction l; simpl; done. Qed.

(** One successful step of the fold in [Hoard::new]. *)
Lemma hoard_new_step_ok dir m x m' :
  hoard_new_step dir (Ok m) x = Ok m' ->
  exists o, x = Ok o /\
    let f := op_file o in
    let k := pile_key (item_pile_name f) in
    let r := item_relative_path f in
    let pile := default pile_default (m !! k) in
    let side := match dir with
                | Backup => item_system_checksum f
                | Restore => item_hoard_checksum f
                end in
    match o with
    | Create _ => exists c, side = Ok (Some c) /\ m' = <[k := pile_insert_created r c pile]> m
    | Modify _ => exists c, side = Ok (Some c) /\ m' = <[k := pile_insert_modified r c pile]> m
    | Delete _ => m' = <[k := pile_insert_deleted r pile]> m
    | Nothing _ => exists c, item_system_checksum f = Ok (Some c) /\
                             m' = <[k := pile_insert_unmodified r c pile]> m
    end.
Proof.
  destruct x as [o|e]; simpl; [|congruence]. intros Hstep. exists o. split; [done|].
  destruct o as [f|f|f|f]; destruct dir; simpl in *;
    try (injection Hstep as <-; reflexivity);
    match type of Hstep with
    | match ?r with Ok _ => _ | Err _ => _ end = _ =>
        destruct r as [c|e] eqn:E; try discriminate
    end;
    injection Hstep as <-; exists c; split; try done; by apply require_checksum_ok.
Qed.

Lemma recorded_by_app ops ops' k p K :
  recorded_by ops k p K -> recorded_by (ops ++ ops') k p K.
Proof. intros (o & Ho & ?). exists o. rewrite elem_of_app. auto. Qed.

Lemma recorded_by_last ops o :
  recorded_by (ops ++ [Ok o]) (op_key o).1 (op_key o).2 (op_kind o).
Proof. exists o. rewrite elem_of_app, list_elem_of_singleton. destruct (op_key o); auto. Qed.

Lemma pile_provenance_step dir pre m x m' :
  pile_provenance pre m -> hoard_new_step dir (Ok m) x = Ok m' ->
  pile_provenance (pre ++ [x]) m'.
Proof.
  intros Hprov Hstep. apply hoard_new_step_ok in Hstep as (o & -> & Hm').
  pose proof (recorded_by_last pre o) as Hlast.
  assert (Hold : forall p, let pile := default pile_default (m !! (op_key o).1) in
    (p ∈ dom (created pile) -> recorded_by (pre ++ [Ok o]) (op_key o).1 p OCreate) /\
    (p ∈ dom (modified pile) -> recorded_by (pre ++ [Ok o]) (op_key o).1 p OModify) /\
    (p ∈ dom (unmodified pile) -> recorded_by (pre ++ [Ok o]) (op_key o).1 p ONothing) /\
    (p ∈ deleted pile -> recorded_by (pre ++ [Ok o]) (op_key o).1 p ODelete)).
  { intros p pile. subst pile. destruct (m !! (op_key o).1) as [pile|] eqn:E; simpl.
    - destruct (Hprov _ _ E p) as (H1 & H2 & H3 & H4).
      repeat split; intros; apply recorded_by_app; auto.
    - rewrite !dom_empty_L. repeat split; intros ?%not_elem_of_empty; done. }
  intros k pile Hk p.
  assert (Hother : forall k', k' <> (op_key o).1 -> m' !! k' = m !! k').
  { intros k' Hne. unfold op_key in Hne. simpl in Hne.
    destruct o; simpl in Hm', Hne;
      [destruct Hm' as (? & _ & ->)|destruct Hm' as (? & _ & ->)|subst m'
      |destruct Hm' as (? & _ & ->)];
      by rewrite lookup_insert_ne by done. }
  destruct (decide (k = (op_key o).1)) as [->|Hne].
  2:{ rewrite Hother in Hk by done. destruct (Hprov _ _ Hk p) as (H1 & H2 & H3 & H4).
      repeat split; intros; apply recorded_by_app; auto. }
  specialize (Hold p). simpl in Hold.
  unfold op_key in Hold, Hlast, Hk |- *. simpl in Hold, Hlast, Hk |- *.
  destruct o as [f|f|f|f]; simpl in Hm', Hold, Hlast, Hk |- *;
    [destruct Hm' as (c & _ & ->)|destruct Hm' as (c & _ & ->)|subst m'|destruct Hm' as (c & _ & ->)];
    rewrite lookup_insert_eq in Hk; injection Hk as <-;
    unfold pile_insert_created, pile_insert_modified, pile_insert_deleted,
      pile_insert_unmodified; simpl;
    rewrite ?dom_insert_L, ?elem_of_union, ?elem_of_singleton;
    destruct Hold as (H1 & H2 & H3 & H4);
    repeat split; intros Hp; try (destruct Hp as [->|Hp]); auto.
Qed.

Lemma hoard_new_inner_provenance dir ops m :
  hoard_new_inner dir ops = Ok m -> pile_provenance ops m.
Proof.
  unfold hoard_new_inner.
  enough (H : forall l acc pre, (forall m0, acc = Ok m0 -> pile_provenance pre m0) ->
            fold_left (hoard_new_step dir) l acc = Ok m -> pile_provenance (pre ++ l) m).
  { intros Hf. apply (H ops (Ok ∅) []); [|done].
    intros m0 [= <-] k pile. by rewrite lookup_empty. }
  induction l as [|x l IH]; intros acc pre Hacc; simpl.
  - intros ->. rewrite app_nil_r. by apply Hacc.
  - intros Hf. simpl in Hf. destruct acc as [m0|e].
    2:{ replace (hoard_new_step dir (Err e) x) with (@Err (gmap string Pile) IoErrorKind e)
          in Hf by done. by rewrite hoard_new_fold_err in Hf. }
    destruct (hoard_new_step dir (Ok m0) x) as [m1|e] eqn:Hs;
      [|by rewrite hoard_new_fold_err in Hf].
    replace (pre ++ x :: l) with ((pre ++ [x]) ++ l) by (by rewrite <- app_assoc).
    apply (IH (Ok m1)); [|done].
    intros ? [= <-]. by eapply pile_provenance_step; [apply Hacc|].
Qed.

Lemma provenance_disjoint ops m k pile :
  pile_provenance ops m -> ops_consistent ops -> m !! k = Some pile -> pile_disjoint pile.
Proof.
  intros Hprov Hcons Hk.
  assert (Hclash : forall p K1 K2, recorded_by ops k p K1 -> recorded_by ops k p K2 -> K1 = K2).
  { intros p K1 K2 (o1 & Ho1 & Hk1 & <-) (o2 & Ho2 & Hk2 & <-).
    apply Hcons; [done|done|congruence]. }
  unfold pile_disjoint. repeat split; intros p H1 H2;
    destruct (Hprov k pile Hk p) as (Hc & Hm & Hu & Hd);
    match goal with
    | |- _ => discriminate (Hclash p _ _ (Hc H1) (Hm H2))
    | |- _ => discriminate (Hclash p _ _ (Hc H1) (Hu H2))
    | |- _ => discriminate (Hclash p _ _ (Hm H1) (Hu H2))
    | |- _ => discriminate (Hclash p _ _ (Hc H1) (Hd H2))
    | |- _ => discriminate (Hclash p _ _ (Hm H1) (Hd H2))
    | |- _ => discriminate (Hclash p _ _ (Hu H1) (Hd H2))
    end.
Qed.

Lemma hoard_new_piles dir ops h p :
  hoard_new dir ops = Ok h -> p ∈ hoard_piles h ->
  exists inner k, hoard_new_inner dir ops = Ok inner /\ inner !! k = Some p.
Proof.
  unfold hoard_new. destruct (hoard_new_inner dir ops) as [inner|e]; [|done].
  intros Hh Hp. exists inner.
  destruct (inner !! "") as [p0|] eqn:E; [case_decide|];
    injection Hh as <-; simpl in Hp.
  - apply list_elem_of_singleton in Hp as ->. by exists "".
  - apply list_elem_of_In, in_map_iff in Hp as [[k p'] [<- Hin]].
    exists k. split; [done|]. by apply elem_of_map_to_list, list_elem_of_In.
  - apply list_elem_of_In, in_map_iff in Hp as [[k p'] [<- Hin]].
    exists k. split; [done|]. by apply elem_of_map_to_list, list_elem_of_In.
Qed.

Lemma recorded_as_preserved dir o pile pile' :
  let r := item_relative_path (op_file o) in
  created pile' !! r = created pile !! r -> modified pile' !! r = modified pile !! r ->
  unmodified pile' !! r = unmodified pile !! r -> deleted pile ⊆ deleted pile' ->
  recorded_as dir o pile -> recorded_as dir o pile'.
Proof.
  intros r Hc Hm Hu Hd. unfold recorded_as, r in *.
  destruct o; simpl in *; rewrite ?Hc, ?Hm, ?Hu; set_solver.
Qed.

(** The invariant of the fold in [Hoard::new] for claim C10. *)
Lemma hoard_new_records_step dir pre m x m' :
  ops_unique (pre ++ [x]) ->
  (forall o, Ok o ∈ pre -> exists pile, m !! (op_key o).1 = Some pile /\ recorded_as dir o pile) ->
  hoard_new_step dir (Ok m) x = Ok m' ->
  forall o, Ok o ∈ pre ++ [x] -> exists pile, m' !! (op_key o).1 = Some pile /\ recorded_as dir o pile.
Proof.
  intros Huniq Hinv Hstep. apply hoard_new_step_ok in Hstep as (o & -> & Hm').
  assert (Hnew : exists pile, m' !! (op_key o).1 = Some pile /\ recorded_as dir o pile).
  { unfold op_key, recorded_as. simpl.
    destruct o; simpl in *;
      [destruct Hm' as (c & Hc & ->)|destruct Hm' as (c & Hc & ->)|subst m'
      |destruct Hm' as (c & Hc & ->)];
      rewrite lookup_insert_eq; eexists; (split; [reflexivity|]); simpl;
      try (exists c; split; [done|]); rewrite ?lookup_insert_eq; set_solver. }
  intros o' Ho'. apply elem_of_app in Ho' as [Ho'|Ho'%list_elem_of_singleton].
  2:{ injection Ho' as ->. done. }
  destruct (decide (op_key o' = op_key o)) as [Hkey|Hkey].
  { assert (o' = o) as ->; [|done].
    apply Huniq; [|apply elem_of_app; right; by apply list_elem_of_singleton|done].
    apply elem_of_app. by left. }
  destruct (Hinv o' Ho') as (pile & Hk & Hrec).
  destruct (decide ((op_key o').1 = (op_key o).1)) as [Hk1|Hk1].
  - assert (Hr : item_relative_path (op_file o') <> item_relative_path (op_file o)).
    { intros Hr. apply Hkey. unfold op_key in *. simpl in *. by rewrite Hk1, Hr. }
    rewrite Hk1 in Hk |- *. unfold op_key in Hk, Hm' |- *. simpl in Hk, Hm' |- *.
    destruct o; simpl in Hm', Hr;
      [destruct Hm' as (c & _ & ->)|destruct Hm' as (c & _ & ->)|subst m'
      |destruct Hm' as (c & _ & ->)];
      simpl in Hk |- *; rewrite Hk; simpl; rewrite lookup_insert_eq; eexists; (split; [reflexivity|]);
      (eapply recorded_as_preserved; [..|exact Hrec]); simpl;
      rewrite ?lookup_insert_ne by congruence; try done; set_solver.
  - exists pile. split; [|done]. rewrite <- Hk.
    unfold op_key in Hk1 |- *. simpl in Hk1 |- *.
    destruct o; simpl in Hm', Hk1;
      [destruct Hm' as (c & _ & ->)|destruct Hm' as (c & _ & ->)|subst m'
      |destruct Hm' as (c & _ & ->)];
      by rewrite lookup_insert_ne.
Qed.

Lemma hoard_new_inner_records dir ops m :
  ops_unique ops -> hoard_new_inner dir ops = Ok m ->
  forall o, Ok o ∈ ops -> exists pile, m !! (op_key o).1 = Some pile /\ recorded_as dir o pile.
Proof.
  unfold hoard_new_inner.
  enough (H : forall l acc pre, ops_unique (pre ++ l) ->
            (forall m0, acc = Ok m0 -> forall o, Ok o ∈ pre ->
               exists pile, m0 !! (op_key o).1 = Some pile /\ recorded_as dir o pile) ->
            fold_left (hoard_new_step dir) l acc = Ok m ->
            forall o, Ok o ∈ pre ++ l ->
              exists pile, m !! (op_key o).1 = Some pile /\ recorded_as dir o pile).
  { intros Hu Hf. apply (H ops (Ok ∅) []); [done| |done].
    intros m0 _ o Ho. by apply elem_of_nil in Ho. }
  induction l as [|x l IH]; intros acc pre Hu Hacc Hf.
  - simpl in Hf. subst acc. rewrite app_nil_r. by apply Hacc.
  - simpl in Hf. destruct acc as [m0|e].
    2:{ replace (hoard_new_step dir (Err e) x) with (@Err (gmap string Pile) IoErrorKind e)
          in Hf by done. by rewrite hoard_new_fold_err in Hf. }
    destruct (hoard_new_step dir (Ok m0) x) as [m1|e] eqn:Hs;
      [|by rewrite hoard_new_fold_err in Hf].
    replace (pre ++ x :: l) with ((pre ++ [x]) ++ l) in Hu |- * by (by rewrite <- app_assoc).
    apply (IH (Ok m1)); [done| |done].
    intros ? [= <-]. eapply hoard_new_records_step; [|by apply Hacc|done].
    intros o1 o2 H1 H2. apply Hu; apply elem_of_app; by left.
Qed.

(** Claim C5: the piles of every log built by the program have pairwise
    disjoint [created], [modified], [unmodified] and [deleted] key sets: the
    logs made by the v1 upgrader, and the logs [Hoard::new] builds from an
    operation stream that gives one kind of operation to each pile file. *)
Theorem piles_disjoint :
  (forall fcs file_set old_v1,
     let '(op, _, _) := from_v1 fcs file_set old_v1 in
     forall p, p ∈ hoard_piles (files op) -> pile_disjoint p) /\
  (forall dir ops h, ops_consistent ops -> hoard_new dir ops = Ok h ->
     forall p, p ∈ hoard_piles h -> pile_disjoint p).
Proof.
  split; [apply from_v1_piles_disjoint|].
  intros dir ops h Hc Hh p Hp.
  destruct (hoard_new_piles dir ops h p Hh Hp) as (inner & k & Hi & Hk).
  eapply provenance_disjoint; [exact (hoard_new_inner_provenance dir ops inner Hi)|done|exact Hk].
Qed.

Lemma piles_disjoint_witness :
  ops_consistent sample_ops /\ hoard_new Backup sample_ops = Ok (Anonymous sample_pile) /\
  forall p, p ∈ hoard_piles (Anonymous sample_pile) -> pile_disjoint p.
Proof.
  assert (Hc : ops_consistent sample_ops).
  { intros o1 o2 H1 H2 Hk. apply list_elem_of_In in H1, H2. simpl in H1, H2.
    destruct H1 as [[= <-]|[[= <-]|[]]]; destruct H2 as [[= <-]|[[= <-]|[]]];
      try reflexivity; vm_compute in Hk; discriminate. }
  assert (Hh : hoard_new Backup sample_ops = Ok (Anonymous sample_pile))
    by (vm_compute; reflexivity).
  split; [exact Hc|split; [exact Hh|]].
  exact (proj2 piles_disjoint Backup _ _ Hc Hh).
Defined.

(** Claim C10: when every pile file has one operation in the stream, the
    piles [Hoard::new] builds record an unchanged file under [unmodified]
    with its system checksum in both directions, a created or modified file
    under [created] or [modified] with its system checksum on a backup and
    its hoard checksum on a restore, and a deleted file under [deleted]. *)
Theorem hoard_new_checksums dir ops inner o :
  ops_unique ops -> hoard_new_inner dir ops = Ok inner -> Ok o ∈ ops ->
  exists pile, inner !! (op_key o).1 = Some pile /\ recorded_as dir o pile.
Proof. intros Hu Hi Hin. exact (hoard_new_inner_records dir ops inner Hu Hi o Hin). Qed.

Lemma hoard_new_checksums_witness :
  ops_unique sample_ops /\
  hoard_new_inner Restore sample_ops = Err NotFound /\
  hoard_new_inner Backup sample_ops = Ok {["" := sample_pile]} /\
  Ok (Nothing (sample_item "b" "y")) ∈ sample_ops /\
  exists pile, ({["" := sample_pile]} : gmap string Pile) !! (op_key (Nothing (sample_item "b" "y"))).1
                 = Some pile /\
    recorded_as Backup (Nothing (sample_item "b" "y")) pile.
Proof.
  assert (Hu : ops_unique sample_ops).
  { intros o1 o2 H1 H2 Hk. apply list_elem_of_In in H1, H2. simpl in H1, H2.
    destruct H1 as [[= <-]|[[= <-]|[]]]; destruct H2 as [[= <-]|[[= <-]|[]]];
      try reflexivity; vm_compute in Hk; discriminate. }
  assert (Hi : hoard_new_inner Backup sample_ops = Ok {["" := sample_pile]})
    by (vm_compute; reflexivity).
  assert (Hin : Ok (Nothing (sample_item "b" "y")) ∈ sample_ops)
    by (apply list_elem_of_In; simpl; auto).
  split; [exact Hu|split; [vm_compute; reflexivity|split; [exact Hi|split; [exact Hin|]]]].
  exact (hoard_new_checksums Backup _ _ _ Hu Hi Hin).
Defined.

End HoardNew.

Section Codec.
Import V2 Json.

Lemma de_ser_checksum c : de_checksum (ser_checksum c) = Some c.
Proof. by destruct c. Qed.

Lemma fold_insert_union {A} (l : list (string * A)) (m0 : gmap string A) :
  NoDup l.*1 ->
  fold_left (fun acc '(k, v) => <[k := v]> acc) l m0 = list_to_map l ∪ m0.
Proof.
  revert m0. induction l as [|[k v] l IH]; intros m0 Hnd.
  - simpl. by rewrite map_empty_union.
  - rewrite fmap_cons in Hnd. apply NoDup_cons in Hnd as [Hk Hnd].
    simpl. rewrite IH by done.
    rewrite <- insert_union_l. symmetry. apply insert_union_r.
    by apply not_elem_of_list_to_map_1.
Qed.

Lemma fold_decode {A B} (dec : B -> option A) (enc : A -> B)
    (l : list (string * A)) (m0 : gmap string A) :
  (forall x, dec (enc x) = Some x) ->
  fold_left (fun acc '(k, v) => m ← acc; c ← dec v; Some (<[k := c]> m))
    (map (fun '(k, c) => (k, enc c)) l) (Some m0) =
  Some (fold_left (fun acc '(k, v) => <[k := v]> acc) l m0).
Proof.
  intros Hdec. revert m0. induction l as [|[k v] l IH]; intros m0; simpl; [done|].
  rewrite Hdec. simpl. apply IH.
Qed.

Lemma decode_map {A B} (dec : B -> option A) (enc : A -> B) (m : gmap string A) :
  (forall x, dec (enc x) = Some x) ->
  fold_left (fun acc '(k, v) => m ← acc; c ← dec v; Some (<[k := c]> m))
    (map (fun '(k, c) => (k, enc c)) (map_to_list m)) (Some ∅) = Some m.
Proof.
  intros Hdec. rewrite (fold_decode dec enc) by done.
  rewrite fold_insert_union by apply NoDup_fst_map_to_list.
  by rewrite map_union_empty, list_to_map_to_list.
Qed.

Lemma de_ser_checksum_map m : de_checksum_map (ser_checksum_map m) = Some m.
Proof. apply (decode_map de_checksum ser_checksum), de_ser_checksum. Qed.

Lemma de_ser_path_set s : de_path_set (ser_path_set s) = Some s.
Proof.
  unfold de_path_set, ser_path_set.
  enough (H : forall l (s0 : gset string),
             fold_left (fun (acc : option (gset string)) v => s ← acc; p ← de_str v; Some ({[p]} ∪ s))
                             (map JStr l) (Some s0) = Some (list_to_set l ∪ s0)).
  { rewrite H. f_equal. rewrite list_to_set_elements_L. set_solver. }
  induction l as [|x l IH]; intros s0; simpl; [f_equal; set_solver|].
  rewrite IH. f_equal. set_solver.
Qed.

Lemma de_ser_pile p : de_pile (ser_pile p) = Some p.
Proof.
  destruct p as [c m d u]. unfold de_pile, ser_pile, field.
  cbn -[de_checksum_map ser_checksum_map de_path_set ser_path_set].
  repeat (case_decide; try congruence).
  cbn [mbind option_bind]. rewrite !de_ser_checksum_map, de_ser_path_set. done.
Qed.

Lemma de_checksum_of_map m : de_checksum (ser_checksum_map m) = None.
Proof.
  unfold ser_checksum_map. destruct (map_to_list m) as [|[k c] l]; simpl; [done|].
  destruct c, l; done.
Qed.

Lemma de_checksum_map_pile p : de_checksum_map (ser_pile p) = None.
Proof.
  destruct p as [c m d u]. unfold ser_pile, de_checksum_map. cbn [fold_left created].
  cbn [mbind option_bind]. rewrite (de_checksum_of_map c). reflexivity.
Qed.

Lemma field_elem name l v : field name l = Some v -> (name, v) ∈ l.
Proof.
  unfold field. destruct (filter _ l) as [|[k v'] [|]] eqn:E; try done.
  intros [= <-]. assert (Hin : (k, v') ∈ filter (fun kv => kv.1 = name) l)
    by (rewrite E; by left).
  apply list_elem_of_filter in Hin as [Hk Hin]. simpl in Hk. by subst.
Qed.

Lemma de_ser_pile_named ps : de_pile (ser_hoard (Named ps)) = None.
Proof.
  unfold ser_hoard, de_pile.
  destruct (field "created" _) as [v|] eqn:E; [|done].
  apply field_elem in E. apply list_elem_of_In, in_map_iff in E as [[k p] [Heq _]].
  injection Heq as -> <-. cbn [mbind option_bind].
  by rewrite de_checksum_map_pile.
Qed.

Lemma de_ser_hoard h : de_hoard (ser_hoard h) = Some h.
Proof.
  unfold de_hoard. destruct h as [p|ps].
  - change (ser_hoard (Anonymous p)) with (ser_pile p). by rewrite de_ser_pile.
  - rewrite de_ser_pile_named. unfold ser_hoard, de_named.
    by rewrite (decode_map de_pile ser_pile) by apply de_ser_pile.
Qed.

Lemma de_ser_operation o : de_operation (ser_operation o) = Some (reloaded o).
Proof.
  destruct o as [t d h f r]. unfold de_operation, ser_operation, field.
  cbn -[de_hoard ser_hoard ser_timestamp de_timestamp].
  repeat (case_decide; try congruence).
  cbn [mbind option_bind]. rewrite de_ser_hoard.
  destruct d; reflexivity.
Qed.

(** Counterexample to claim C6: a log whose [hoards_root] is set (every log
    [OperationV2::new] makes) does not read back as itself. *)
Theorem operation_roundtrip_counterexample :
  let o1 := {| timestamp := 5001%Z; direction := Backup; hoard := "h";
               files := Anonymous pile_default; hoards_root := "/hoards" |} in
  de_operation (ser_operation o1) <> Some o1.
Proof. vm_compute. intros H; discriminate H. Qed.

(** Claim C6 (amended): writing a log and reading it back gives the log with
    [hoards_root] reset to its default, and everything else (timestamp,
    direction, hoard name, piles and checksums) unchanged; so it gives back
    the same log exactly when [hoards_root] is empty, as for the logs of the
    v1 upgrader. *)
Theorem operation_roundtrip o :
  de_operation (ser_operation o) = Some (reloaded o) /\
  (reloaded o = o <-> hoards_root o = "").
Proof.
  split; [apply de_ser_operation|].
  destruct o as [t d h f r]. unfold reloaded. simpl.
  split; [by intros [= ->]|by intros ->].
Qed.

End Codec.


(* ===================================================================== *)
(** * AllFilesIter: the union of the system and hoard trees *)
(* ===================================================================== *)

Section AllFilesUnion.
Import AllFiles.

Lemma lookup_None r : lookup None r = None.
Proof. by destruct r. Qed.

Lemma lookup_app t a r : lookup t (a ++ r) = lookup (lookup t a) r.
Proof.
  revert t. induction a as [|n a IH]; intros t; [done|].
  simpl. destruct t as [[|es]|]; rewrite ?lookup_None; auto.
Qed.

Lemma size_pos t : 1 <= tree_size t.
Proof. destruct t; simpl; lia. Qed.

Lemma find_entry_size n es t :
  find_entry n es = Some t -> tree_size t <= sum_list_with (fun e => tree_size e.2) es.
Proof.
  induction es as [|[m t'] es IH]; simpl; [done|].
  destruct (String.eqb m n); [intros [= ->]; lia|]. intros H; specialize (IH H); lia.
Qed.

Lemma find_entry_elem n es t : find_entry n es = Some t -> exists x, x ∈ es /\ x.1 = n.
Proof.
  induction es as [|[m t'] es IH]; simpl; [done|].
  destruct (String.eqb m n) eqn:E.
  - intros _. apply String.eqb_eq in E. exists (m, t'). split; [left|done].
  - intros H. destruct (IH H) as (x & ? & ?). exists x. split; [right|]; done.
Qed.

Lemma lookup_size t p t' : lookup t p = Some t' -> length p + tree_size t' <= size_opt t.
Proof.
  revert t. induction p as [|n p IH]; intros t H.
  - simpl in *. subst. simpl. lia.
  - simpl in H. destruct t as [[|es]|]; try discriminate.
    destruct (find_entry n es) as [t1|] eqn:E; [|rewrite lookup_None in H; done].
    specialize (IH _ H). apply find_entry_size in E. simpl in *. lia.
Qed.

Lemma entries_le es : length es <= sum_list_with (fun e : string * Tree => tree_size e.2) es.
Proof. induction es as [|e es IH]; simpl; [lia|]. pose proof (size_pos e.2). lia. Qed.

Lemma read_dir_ok t p es :
  list_dir t p = Ok es ->
  (forall e, e ∈ es -> exists x, e = p ++ [x]) /\ length p + 1 + length es <= size_opt t.
Proof.
  unfold list_dir. destruct (lookup t p) as [[|es0]|] eqn:E; try discriminate.
  intros [= <-]. apply lookup_size in E. simpl in E. split.
  - intros e (x & -> & _)%list_elem_of_fmap. eauto.
  - rewrite length_map. pose proof (entries_le es0). lia.
Qed.

Lemma read_dir_err t p e : list_dir t p = Err e -> e = NotFound \/ path_is_file t p = true.
Proof.
  unfold list_dir, path_is_file. destruct (lookup t p) as [[|es0]|]; intros [= <-]; auto.
Qed.

Lemma file_under t a n r :
  path_is_file t (a ++ n :: r) = true ->
  path_is_dir t a = true /\ path_is_file t a = false /\
  exists es, list_dir t a = Ok es /\ a ++ [n] ∈ es.
Proof.
  unfold path_is_file, path_is_dir, list_dir. rewrite lookup_app. intros H.
  destruct (lookup t a) as [[|es0]|]; simpl in H; try discriminate.
  split; [done|]. split; [done|].
  destruct (find_entry n es0) eqn:E; [|rewrite lookup_None in H; done].
  destruct (find_entry_elem _ _ _ E) as (x & Hx & Hn).
  eexists; split; [done|]. apply list_elem_of_fmap. exists x. subst n. done.
Qed.

Lemma prefix_kind pr rel a :
  in_filtered_union pr rel -> type_consistent pr -> a `prefix_of` rel ->
  keep_path pr a = true /\
  (a = rel -> is_file {| item_pile := pr; relative_path := a |} = true) /\
  (a <> rel ->
     is_file {| item_pile := pr; relative_path := a |} = false /\
     is_dir {| item_pile := pr; relative_path := a |} = true /\
     exists n, a ++ [n] `prefix_of` rel /\
       ((exists es, list_dir (system_tree pr) a = Ok es /\ a ++ [n] ∈ es) \/
        (exists es, list_dir (hoard_tree pr) a = Ok es /\ a ++ [n] ∈ es))).
Proof.
  intros [Hf Hk] Htc [r ->]. split.
  { rewrite <- (take_app_length a r). apply Hk. rewrite length_app. lia. }
  split.
  { intros Ha. assert (r = []) as -> by (apply (f_equal length) in Ha; rewrite length_app in Ha;
      destruct r; [done|simpl in Ha; lia]).
    unfold is_file; simpl. rewrite app_nil_r in Hf. destruct Hf as [-> | ->]; [done|].
    apply orb_true_r. }
  intros Ha. destruct r as [|n r]; [rewrite app_nil_r in Ha; done|].
  destruct (Htc a) as [H1 H2]. unfold is_file, is_dir; simpl.
  destruct Hf as [Hf|Hf]; apply file_under in Hf as (Hd & Hnf & es & Hr & Hin).
  - rewrite Hd, Hnf. simpl.
    destruct (path_is_file (hoard_tree pr) a) eqn:E; [exfalso; auto|].
    split; [done|]. split; [done|]. exists n. split; [|left; eauto].
    exists r. by rewrite <- app_assoc.
  - rewrite Hd, Hnf, orb_true_r.
    destruct (path_is_file (system_tree pr) a) eqn:E; [exfalso; auto|].
    split; [done|]. split; [done|]. exists n. split; [|right; eauto].
    exists r. by rewrite <- app_assoc.
Qed.

Lemma weight_pos p d : 1 <= weight p d.
Proof. unfold weight. pose proof (Nat.pow_nonzero (2 * pile_size p + 1) (pile_size p - d)). lia. Qed.

Lemma drain_stack c es stack y es' stack' :
  t_drain c es stack = (y, es', stack') -> forall i, i ∈ stack -> i ∈ stack'.
Proof.
  revert stack. induction es as [|e es IH]; intros stack; simpl.
  - by intros [= _ _ <-].
  - destruct (keep _); [destruct (is_file _); [by intros [= _ _ <-]|]|];
      [destruct (is_dir _)|]; intros H i Hi; eapply IH; eauto; by right.
Qed.

Lemma drain_suffix c es stack y es' stack' :
  t_drain c es stack = (y, es', stack') -> forall e, e ∈ es' -> e ∈ es.
Proof.
  revert stack. induction es as [|e es IH]; intros stack; simpl.
  - by intros [= _ <- _].
  - destruct (keep _); [destruct (is_file _); [intros [= _ <- _]; by right|]|];
      [destruct (is_dir _)|]; intros H e' He'; right; eapply IH; eauto.
Qed.

Lemma drain_inv piles c es stack y es' stack' :
  t_drain c es stack = (y, es', stack') ->
  Forall (fun e => item_ok piles (entry_item c e)) es ->
  Forall (item_ok piles) stack ->
  Forall (item_ok piles) stack' /\
  (forall f, y = Some f -> exists e, item_ok piles (entry_item c e) /\
     keep (entry_item c e) = true /\ is_file (entry_item c e) = true /\ f = hoard_file (entry_item c e)) /\
  (y = None -> es' = []).
Proof.
  revert stack. induction es as [|e es IH]; intros stack; simpl.
  - intros [= <- <- <-] _ Hs. split; [done|]. split; [done|]. done.
  - intros H Hes Hs. apply Forall_cons in Hes as [He Hes].
    destruct (keep _) eqn:Hk; [destruct (is_file _) eqn:Hf|].
    + injection H as <- <- <-. split; [done|]. split; [|done].
      intros f [= <-]. exists e. done.
    + destruct (is_dir _); (eapply IH; [exact H|done|]); [by constructor|done].
    + eapply IH; eauto.
Qed.

Lemma stack_weight_cons i s :
  stack_weight (i :: s) = weight (item_pile i) (length (relative_path i)) + stack_weight s.
Proof. done. Qed.
Lemma entries_weight_cons p e es :
  entries_weight p (e :: es) = 2 * weight p (length e) + entries_weight p es.
Proof. done. Qed.
Lemma entries_weight_nil p : entries_weight p [] = 0.
Proof. done. Qed.

Lemma drain_weight c es stack y es' stack' :
  t_drain c es stack = (y, es', stack') ->
  stack_weight stack' + entries_weight (item_pile c) es' <=
    stack_weight stack + entries_weight (item_pile c) es /\
  (es <> [] -> stack_weight stack' + entries_weight (item_pile c) es' <
    stack_weight stack + entries_weight (item_pile c) es).
Proof.
  revert stack. induction es as [|e es IH]; intros stack; cbn [t_drain].
  - intros [= _ <- <-]. split; [lia|by intros []].
  - intros H. pose proof (weight_pos (item_pile c) (length e)).
    rewrite entries_weight_cons.
    cut (stack_weight stack' + entries_weight (item_pile c) es' <
         stack_weight stack + (2 * weight (item_pile c) (length e) + entries_weight (item_pile c) es));
      [intros; split; [lia|done]|].
    destruct (keep _) eqn:Hk; [destruct (is_file _) eqn:Hf|].
    + injection H as <- <- <-. lia.
    + destruct (is_dir _); apply IH in H as [H _]; rewrite ?stack_weight_cons in H; simpl in H; lia.
    + apply IH in H as [H _]. lia.
Qed.

Lemma drain_cover c es stack y es' stack' pr rel e0 :
  t_drain c es stack = (y, es', stack') -> item_pile c = pr ->
  in_filtered_union pr rel -> type_consistent pr ->
  e0 ∈ es -> e0 `prefix_of` rel ->
  y = Some (pile_name pr, rel) \/ e0 ∈ es' \/
  exists i, i ∈ stack' /\ item_pile i = pr /\ relative_path i `prefix_of` rel.
Proof.
  intros Hd Hc Hu Htc. subst pr. revert stack Hd. induction es as [|e es IH]; intros stack Hd;
    [intros ?%elem_of_nil; done|].
  intros He0 Hp. simpl in Hd. apply elem_of_cons in He0 as [<-|He0].
  - destruct (prefix_kind _ _ _ Hu Htc Hp) as (Hkp & Heq & Hne).
    destruct (decide (e0 = rel)) as [->|Hn].
    + specialize (Heq eq_refl). unfold keep in Hd; simpl in Hd. rewrite Heq, Hkp in Hd.
      simpl in Hd. injection Hd as <- _ _. by left.
    + destruct (Hne Hn) as (Hf & Hdir & _). unfold keep in Hd; simpl in Hd.
      rewrite Hf, Hdir, Hkp in Hd. simpl in Hd. right; right.
      eexists; split; [eapply drain_stack; [exact Hd|by left]|]. done.
  - destruct (keep _); [destruct (is_file _); [injection Hd as <- <- _; right; by left|]|];
      [destruct (is_dir _)|]; eapply IH; eauto.
Qed.

Lemma has_dir_entries_false se he :
  t_has_dir_entries se he = false -> default [] se ++ default [] he = [].
Proof. by destruct se as [[|]|], he as [[|]|]. Qed.

Lemma has_dir_entries_true se he :
  t_has_dir_entries se he = true -> default [] se ++ default [] he <> [].
Proof. by destruct se as [[|]|], he as [[|]|]. Qed.

Lemma ensure_has s se he cur :
  t_has_dir_entries se he = true -> t_ensure_dir_entries s se he cur = (None, t_mk_state s se he cur).
Proof. destruct s; simpl; by intros ->. Qed.

Lemma ensure_nil se he cur :
  t_has_dir_entries se he = false -> t_ensure_dir_entries [] se he cur = (Some None, t_mk_state [] se he cur).
Proof. simpl; by intros ->. Qed.

Lemma ensure_skip i s se he cur :
  t_has_dir_entries se he = false ->
  keep i = false \/ (is_file i = false /\ is_dir i = false) ->
  t_ensure_dir_entries (i :: s) se he cur = t_ensure_dir_entries s se he cur.
Proof.
  intros Hh Hc. simpl. rewrite Hh.
  destruct Hc as [-> | [-> ->]]; [done|]. by destruct (keep i).
Qed.

Lemma ensure_file i s se he cur :
  t_has_dir_entries se he = false -> keep i = true -> is_file i = true ->
  t_ensure_dir_entries (i :: s) se he cur = (Some (Some (Ok (hoard_file i))), t_mk_state s se he cur).
Proof. intros Hh Hk Hf. simpl. by rewrite Hh, Hk, Hf. Qed.

Lemma ensure_dir i s se he cur :
  t_has_dir_entries se he = false -> keep i = true -> is_file i = false -> is_dir i = true ->
  t_ensure_dir_entries (i :: s) se he cur =
  t_ensure_dir_entries s (read_side (system_tree (item_pile i)) (relative_path i))
    (read_side (hoard_tree (item_pile i)) (relative_path i)) (Some i).
Proof.
  intros Hh Hk Hf Hd. cbn [t_ensure_dir_entries]. rewrite Hh, Hk, Hf, Hd. unfold read_side.
  unfold is_file in Hf. apply orb_false_iff in Hf as [Hfs Hfh].
  destruct (list_dir (system_tree _) _) as [ss|e] eqn:Es;
    destruct (list_dir (hoard_tree _) _) as [hs|e'] eqn:Eh; try done.
  - apply read_dir_err in Eh as [->|Eh]; [|congruence]. by rewrite decide_True.
  - apply read_dir_err in Es as [->|Es]; [|congruence]. by rewrite decide_True.
  - apply read_dir_err in Es as [->|Es]; [|congruence].
    apply read_dir_err in Eh as [->|Eh]; [|congruence]. by rewrite !decide_True.
Qed.

Lemma keep_path_of i : keep i = true -> keep_path (item_pile i) (relative_path i) = true.
Proof. unfold keep. by intros [_ ?]%andb_prop. Qed.

Lemma anc_kept_child p rel x :
  anc_kept p rel -> keep_path p rel = true -> anc_kept p (rel ++ [x]).
Proof.
  intros Ha Hk k Hlt. rewrite length_app in Hlt; simpl in Hlt.
  destruct (decide (k = length rel)) as [->|Hne]; [by rewrite take_app_length|].
  rewrite take_app_le by lia. apply Ha. lia.
Qed.

Lemma read_side_children t p e : e ∈ default [] (read_side t p) -> exists x, e = p ++ [x].
Proof.
  unfold read_side. destruct (list_dir t p) as [es|] eqn:E; simpl; [|by intros ?%elem_of_nil].
  apply read_dir_ok in E as [E _]. apply E.
Qed.

Lemma read_side_length t p : length (default [] (read_side t p)) <= size_opt t.
Proof.
  unfold read_side. destruct (list_dir t p) as [es|] eqn:E; simpl; [|lia].
  apply read_dir_ok in E as [_ E]. lia.
Qed.

Lemma children_ok piles i es :
  item_ok piles i -> keep i = true -> (forall e, e ∈ es -> exists x, e = relative_path i ++ [x]) ->
  Forall (fun e => item_ok piles (entry_item i e)) es.
Proof.
  intros [Hp Ha] Hk Hc. apply Forall_forall. intros e He.
  destruct (Hc e He) as [x ->]. split; [done|]. simpl.
  apply anc_kept_child; [done|]. by apply keep_path_of.
Qed.

Lemma dir_pop_inv piles i s :
  item_ok piles i -> keep i = true -> Forall (item_ok piles) s ->
  iter_inv piles (t_mk_state s (read_side (system_tree (item_pile i)) (relative_path i))
    (read_side (hoard_tree (item_pile i)) (relative_path i)) (Some i)).
Proof.
  intros Hi Hk Hs. split; [done|]. split; [by intros _|].
  intros c [= <-]. unfold entries_of; simpl. apply Forall_app. split;
    (apply children_ok; [exact Hi|exact Hk|intros e He; exact (read_side_children _ _ e He)]).
Qed.

Lemma ensure_inv piles stack se he cur res st' :
  t_ensure_dir_entries stack se he cur = (res, st') ->
  iter_inv piles (t_mk_state stack se he cur) ->
  iter_inv piles st' /\
  (res = None -> t_has_dir_entries (t_system_entries st') (t_hoard_entries st') = true) /\
  (forall r, res = Some (Some r) ->
     exists i, r = Ok (hoard_file i) /\ item_ok piles i /\ keep i = true /\ is_file i = true).
Proof.
  revert se he cur. induction stack as [|i s IH]; intros se he cur H Hinv;
    (destruct (t_has_dir_entries se he) eqn:Hh;
      [rewrite ensure_has in H by done; injection H as <- <-; split; [done|]; split; [done|];
       by intros ? ?|]).
  - rewrite ensure_nil in H by done. injection H as <- <-. split; [done|]. split; [done|].
    by intros ? ?.
  - destruct Hinv as (Hs & Hc & He). apply Forall_cons in Hs as [Hi Hs].
    assert (iter_inv piles (t_mk_state s se he cur)) as Hinv' by (split; [done|]; split; done).
    destruct (keep i) eqn:Hk; [destruct (is_file i) eqn:Hf; [|destruct (is_dir i) eqn:Hd]|].
    + rewrite ensure_file in H by done. injection H as <- <-. split; [done|]. split; [done|].
      intros r [= <-]. eauto.
    + rewrite ensure_dir in H by done. eapply IH; [exact H|]. by apply dir_pop_inv.
    + rewrite ensure_skip in H by auto. eapply IH; eauto.
    + rewrite ensure_skip in H by auto. eapply IH; eauto.
Qed.

Lemma entries_weight_app p es1 es2 :
  entries_weight p (es1 ++ es2) = entries_weight p es1 + entries_weight p es2.
Proof. apply sum_list_with_app. Qed.

Lemma entries_weight_uniform p es k :
  (forall e, e ∈ es -> length e = k) -> entries_weight p es = length es * (2 * weight p k).
Proof.
  induction es as [|e es IH]; intros Hl; [done|].
  rewrite entries_weight_cons, (Hl e) by (by left). rewrite IH by (intros; apply Hl; by right).
  simpl. lia.
Qed.

Lemma weight_step p d :
  d < pile_size p -> weight p d = (2 * pile_size p + 1) * weight p (S d).
Proof.
  intros Hd. unfold weight. replace (pile_size p - d) with (S (pile_size p - S d)) by lia.
  by rewrite Nat.pow_succ_r'.
Qed.

Lemma is_dir_depth i : is_dir i = true -> length (relative_path i) < pile_size (item_pile i).
Proof.
  unfold is_dir, path_is_dir, pile_size. intros [H|H]%orb_prop;
    destruct (lookup _ _) as [[|]|] eqn:E; try discriminate;
    apply lookup_size in E; simpl in E; lia.
Qed.

Lemma potential_mk s se he cur :
  potential (t_mk_state s se he cur) =
  stack_weight s + match cur with
                   | Some c => entries_weight (item_pile c) (default [] se ++ default [] he)
                   | None => 0 end.
Proof. done. Qed.

Lemma dir_pop_weight i s se he cur :
  t_has_dir_entries se he = false -> is_dir i = true ->
  potential (t_mk_state s (read_side (system_tree (item_pile i)) (relative_path i))
    (read_side (hoard_tree (item_pile i)) (relative_path i)) (Some i)) <
  potential (t_mk_state (i :: s) se he cur).
Proof.
  intros Hh Hd. rewrite !potential_mk, (has_dir_entries_false se he Hh).
  rewrite stack_weight_cons.
  assert (match cur with Some c => entries_weight (item_pile c) [] | None => 0 end = 0) as ->
    by (by destruct cur).
  rewrite (entries_weight_uniform _ _ (S (length (relative_path i)))).
  2:{ intros e [He|He]%elem_of_app; apply read_side_children in He as [x ->];
      rewrite length_app; simpl; lia. }
  pose proof (is_dir_depth i Hd) as Hdep. rewrite (weight_step _ _ Hdep).
  pose proof (weight_pos (item_pile i) (S (length (relative_path i)))).
  pose proof (read_side_length (system_tree (item_pile i)) (relative_path i)).
  pose proof (read_side_length (hoard_tree (item_pile i)) (relative_path i)).
  rewrite length_app. unfold pile_size in *. nia.
Qed.

Lemma potential_cons i s se he cur :
  potential (t_mk_state s se he cur) < potential (t_mk_state (i :: s) se he cur).
Proof.
  rewrite !potential_mk, stack_weight_cons.
  pose proof (weight_pos (item_pile i) (length (relative_path i))). lia.
Qed.

Lemma ensure_weight stack se he cur res st' :
  t_ensure_dir_entries stack se he cur = (res, st') ->
  (res = None -> potential st' <= potential (t_mk_state stack se he cur)) /\
  (forall f, res = Some (Some (Ok f)) -> potential st' < potential (t_mk_state stack se he cur)).
Proof.
  revert se he cur. induction stack as [|i s IH]; intros se he cur H;
    (destruct (t_has_dir_entries se he) eqn:Hh;
      [rewrite ensure_has in H by done; injection H as <- <-; split; [lia|]; by intros ? ?|]).
  - rewrite ensure_nil in H by done. injection H as <- <-. split; by intros.
  - pose proof (potential_cons i s se he cur) as Hc.
    destruct (keep i) eqn:Hk; [destruct (is_file i) eqn:Hf; [|destruct (is_dir i) eqn:Hd]|].
    + rewrite ensure_file in H by done. injection H as <- <-. split; [done|]. intros; lia.
    + rewrite ensure_dir in H by done. apply IH in H as [H1 H2].
      pose proof (dir_pop_weight i s se he cur Hh Hd).
      split; [intros Hr; specialize (H1 Hr)|intros f Hr; specialize (H2 f Hr)]; lia.
    + rewrite ensure_skip in H by auto. apply IH in H as [H1 H2].
      split; [intros Hr; specialize (H1 Hr)|intros f Hr; specialize (H2 f Hr)]; lia.
    + rewrite ensure_skip in H by auto. apply IH in H as [H1 H2].
      split; [intros Hr; specialize (H1 Hr)|intros f Hr; specialize (H2 f Hr)]; lia.
Qed.

Lemma covers_no_entries pr rel s se he cur :
  t_has_dir_entries se he = false -> covers pr rel (t_mk_state s se he cur) ->
  exists j, j ∈ s /\ item_pile j = pr /\ relative_path j `prefix_of` rel.
Proof.
  intros Hh [H|(c & e & _ & _ & He & _)]; [done|].
  unfold entries_of in He; simpl in He. rewrite has_dir_entries_false in He by done.
  by apply elem_of_nil in He.
Qed.

Lemma prefix_kind_item pr rel i :
  in_filtered_union pr rel -> type_consistent pr ->
  item_pile i = pr -> relative_path i `prefix_of` rel ->
  keep i = true /\
  (relative_path i = rel -> is_file i = true) /\
  (relative_path i <> rel ->
     is_file i = false /\ is_dir i = true /\
     exists n, relative_path i ++ [n] `prefix_of` rel /\
       ((exists es, list_dir (system_tree pr) (relative_path i) = Ok es /\ relative_path i ++ [n] ∈ es) \/
        (exists es, list_dir (hoard_tree pr) (relative_path i) = Ok es /\ relative_path i ++ [n] ∈ es))).
Proof.
  intros Hu Htc Hp Hr. destruct i as [ip ir]. simpl in *. subst ip.
  destruct (prefix_kind _ _ _ Hu Htc Hr) as (Hkp & Heq & Hne).
  split; [|split; [done|]].
  - unfold keep; simpl. rewrite Hkp, andb_true_r.
    destruct (decide (ir = rel)) as [->|Hn]; [by rewrite Heq|].
    destruct (Hne Hn) as (_ & -> & _). apply orb_true_r.
  - intros Hn. destruct (Hne Hn) as (? & ? & n & ? & ?). split; [done|]. split; [done|]. eauto.
Qed.

Lemma ensure_cover pr rel stack se he cur res st' :
  in_filtered_union pr rel -> type_consistent pr ->
  t_ensure_dir_entries stack se he cur = (res, st') ->
  covers pr rel (t_mk_state stack se he cur) ->
  res = Some (Some (Ok (pile_name pr, rel))) \/ (res <> Some None /\ covers pr rel st').
Proof.
  intros Hu Htc. revert se he cur. induction stack as [|i s IH]; intros se he cur H Hcov;
    (destruct (t_has_dir_entries se he) eqn:Hh;
      [rewrite ensure_has in H by done; injection H as <- <-; by right|]);
    apply covers_no_entries in Hcov as (j & Hj & Hjp & Hjr); [|done| |done].
  - by apply elem_of_nil in Hj.
  - assert ((item_pile i = pr /\ relative_path i `prefix_of` rel) \/
            covers pr rel (t_mk_state s se he cur)) as Hcov.
    { apply elem_of_cons in Hj as [->|Hj]; [by left|]. right. left. eauto. }
    clear j Hj Hjp Hjr.
    destruct (keep i) eqn:Hk; [destruct (is_file i) eqn:Hf; [|destruct (is_dir i) eqn:Hd]|].
    + rewrite ensure_file in H by done. injection H as <- <-.
      destruct Hcov as [[Hp Hr]|Hcov]; [|by right].
      destruct (prefix_kind_item _ _ _ Hu Htc Hp Hr) as (_ & _ & Hne).
      destruct (decide (relative_path i = rel)) as [Heq|Hn].
      * left. unfold hoard_file. by rewrite Hp, Heq.
      * destruct (Hne Hn) as [Hf' _]. congruence.
    + rewrite ensure_dir in H by done. eapply IH; [exact H|].
      destruct Hcov as [[Hp Hr]|Hcov].
      * destruct (prefix_kind_item _ _ _ Hu Htc Hp Hr) as (_ & Heq & Hne).
        destruct (decide (relative_path i = rel)) as [Hn|Hn]; [rewrite Heq in Hf; congruence|].
        destruct (Hne Hn) as (_ & _ & n & Hpn & [(es & Hrd & Hin)|(es & Hrd & Hin)]);
          right; exists i, (relative_path i ++ [n]); (split; [done|]); (split; [done|]);
          (split; [|done]); unfold entries_of, read_side; simpl; rewrite <- Hp in Hrd;
          rewrite Hrd; simpl; apply elem_of_app; auto.
      * apply covers_no_entries in Hcov as (j & ? & ? & ?); [|done]. left. eauto.
    + rewrite ensure_skip in H by auto. eapply IH; [exact H|].
      destruct Hcov as [[Hp Hr]|Hcov]; [|done].
      destruct (prefix_kind_item _ _ _ Hu Htc Hp Hr) as (_ & Heq & Hne).
      destruct (decide (relative_path i = rel)) as [Hn|Hn]; [rewrite Heq in Hf; congruence|].
      destruct (Hne Hn) as (_ & Hd' & _). congruence.
    + rewrite ensure_skip in H by auto. eapply IH; [exact H|].
      destruct Hcov as [[Hp Hr]|Hcov]; [|done].
      destruct (prefix_kind_item _ _ _ Hu Htc Hp Hr) as (Hk' & _). congruence.
Qed.

Lemma drain_side_inv piles c e stack y e' stack' :
  t_drain_side c e stack = (y, e', stack') ->
  Forall (fun x => item_ok piles (entry_item c x)) (default [] e) ->
  Forall (item_ok piles) stack ->
  Forall (item_ok piles) stack' /\ (forall x, x ∈ default [] e' -> x ∈ default [] e) /\
  (forall f, y = Some f ->
     exists i, f = hoard_file i /\ item_ok piles i /\ keep i = true /\ is_file i = true) /\
  (y = None -> default [] e' = []).
Proof.
  destruct e as [es|]; simpl.
  - destruct (t_drain c es stack) as [[y0 es0] s0] eqn:D. intros [= <- <- <-] He Hs.
    destruct (drain_inv piles _ _ _ _ _ _ D He Hs) as (? & Hy & Hn).
    split; [done|]. split; [eapply drain_suffix; eauto|]. split; [|done].
    intros f Hf. destruct (Hy f Hf) as (x & ? & ? & ? & ->). eauto.
  - intros [= <- <- <-] _ Hs. split; [done|]. split; [done|]. split; [done|]. done.
Qed.

Lemma drain_side_weight c e stack y e' stack' :
  t_drain_side c e stack = (y, e', stack') ->
  stack_weight stack' + entries_weight (item_pile c) (default [] e') <=
    stack_weight stack + entries_weight (item_pile c) (default [] e) /\
  (default [] e <> [] -> stack_weight stack' + entries_weight (item_pile c) (default [] e') <
    stack_weight stack + entries_weight (item_pile c) (default [] e)).
Proof.
  destruct e as [es|]; simpl.
  - destruct (t_drain c es stack) as [[y0 es0] s0] eqn:D. intros [= <- <- <-].
    by apply drain_weight in D.
  - intros [= <- <- <-]. simpl. split; [lia|done].
Qed.

Lemma drain_side_stack c e stack y e' stack' :
  t_drain_side c e stack = (y, e', stack') -> forall i, i ∈ stack -> i ∈ stack'.
Proof.
  destruct e as [es|]; simpl.
  - destruct (t_drain c es stack) as [[y0 es0] s0] eqn:D. intros [= <- <- <-].
    eapply drain_stack; eauto.
  - by intros [= <- <- <-].
Qed.

Lemma drain_side_none c e stack y e' stack' :
  t_drain_side c e stack = (y, e', stack') -> default [] e = [] -> y = None /\ e' = e /\ stack' = stack.
Proof.
  destruct e as [[|]|]; simpl; try done; by intros [= <- <- <-].
Qed.

Lemma drain_side_cover c e stack y e' stack' pr rel x :
  t_drain_side c e stack = (y, e', stack') -> item_pile c = pr ->
  in_filtered_union pr rel -> type_consistent pr ->
  x ∈ default [] e -> x `prefix_of` rel ->
  y = Some (pile_name pr, rel) \/ x ∈ default [] e' \/
  exists i, i ∈ stack' /\ item_pile i = pr /\ relative_path i `prefix_of` rel.
Proof.
  destruct e as [es|]; simpl; [|by intros _ _ _ _ ?%elem_of_nil].
  destruct (t_drain c es stack) as [[y0 es0] s0] eqn:D. intros [= <- <- <-].
  eapply drain_cover; eauto.
Qed.

Lemma inv_after_drain piles c stack se he se' he' :
  Forall (item_ok piles) stack ->
  (forall x, x ∈ default [] se' -> x ∈ default [] se) ->
  (forall x, x ∈ default [] he' -> x ∈ default [] he) ->
  Forall (fun x => item_ok piles (entry_item c x)) (default [] se ++ default [] he) ->
  iter_inv piles (t_mk_state stack se' he' (Some c)).
Proof.
  intros Hs Hse Hhe He. split; [done|]. split; [by intros _|].
  intros c' [= <-]. unfold entries_of; simpl.
  rewrite Forall_forall in He. apply Forall_forall. intros x [Hx|Hx]%elem_of_app;
    apply He, elem_of_app; auto.
Qed.

Lemma state_eta st :
  st = t_mk_state (t_root_paths st) (t_system_entries st) (t_hoard_entries st) (t_current_root st).
Proof. by destruct st. Qed.

Lemma round_inv piles st :
  iter_inv piles st ->
  match t_round st with
  | Yield r st' => iter_inv piles st' /\
      exists i, r = Ok (hoard_file i) /\ item_ok piles i /\ keep i = true /\ is_file i = true
  | Continue st' => iter_inv piles st'
  | Panic => False
  | Finished _ => True
  end.
Proof.
  intros Hinv. unfold t_round.
  destruct (t_ensure_dir_entries _ _ _ _) as [res st1] eqn:E.
  rewrite (state_eta st) in Hinv.
  destruct (ensure_inv piles _ _ _ _ _ _ E Hinv) as (Hinv1 & Hnone & Hsome).
  destruct res as [[r|]|]; [split; [done|]; by apply Hsome|done|].
  specialize (Hnone eq_refl).
  destruct (t_current_root st1) as [c|] eqn:Ec.
  2:{ destruct Hinv1 as (_ & Hc & _). apply has_dir_entries_true in Hnone.
      destruct (Hc Hnone) as [? Hc']. congruence. }
  destruct Hinv1 as (Hs1 & _ & He1). specialize (He1 c Ec).
  pose proof He1 as He1'.
  unfold entries_of in He1. apply Forall_app in He1 as [Hse Hhe].
  destruct (t_drain_side c (t_system_entries st1) (t_root_paths st1)) as [[y se2] s2] eqn:D1.
  destruct (drain_side_inv piles _ _ _ _ _ _ D1 Hse Hs1) as (Hs2 & Hsub1 & Hy1 & Hn1).
  destruct y as [f|].
  - split.
    + eapply inv_after_drain; [exact Hs2|exact Hsub1|by intros|exact He1'].
    + destruct (Hy1 f eq_refl) as (i & -> & ?). eauto.
  - destruct (t_drain_side c (t_hoard_entries st1) s2) as [[y he2] s3] eqn:D2.
    destruct (drain_side_inv piles _ _ _ _ _ _ D2 Hhe Hs2) as (Hs3 & Hsub2 & Hy2 & Hn2).
    destruct y as [f|]; [split|].
    + eapply inv_after_drain; [exact Hs3|exact Hsub1|exact Hsub2|exact He1'].
    + destruct (Hy2 f eq_refl) as (i & -> & ?). eauto.
    + eapply inv_after_drain; [exact Hs3|exact Hsub1|exact Hsub2|exact He1'].
Qed.

Lemma round_potential piles st :
  iter_inv piles st ->
  match t_round st with
  | Yield _ st' | Continue st' => potential st' < potential st
  | _ => True
  end.
Proof.
  intros Hinv. unfold t_round.
  destruct (t_ensure_dir_entries _ _ _ _) as [res st1] eqn:E.
  rewrite (state_eta st) in Hinv.
  assert (potential st = potential (t_mk_state (t_root_paths st) (t_system_entries st)
    (t_hoard_entries st) (t_current_root st))) as HP by (by rewrite <- state_eta).
  destruct (ensure_inv piles _ _ _ _ _ _ E Hinv) as (_ & Hnone & Hsome).
  destruct (ensure_weight _ _ _ _ _ _ E) as [Hw1 Hw2].
  destruct res as [[r|]|]; [|done|].
  { destruct (Hsome r eq_refl) as (i & -> & _). rewrite HP. by eapply Hw2. }
  specialize (Hnone eq_refl). specialize (Hw1 eq_refl).
  destruct (t_current_root st1) as [c|] eqn:Ec; [|done].
  rewrite (state_eta st1), potential_mk, Ec in Hw1.
  apply has_dir_entries_true in Hnone.
  destruct (t_drain_side c (t_system_entries st1) (t_root_paths st1)) as [[y se2] s2] eqn:D1.
  destruct (drain_side_weight _ _ _ _ _ _ D1) as [W1 W1'].
  rewrite entries_weight_app in Hw1.
  destruct (decide (default [] (t_system_entries st1) = [])) as [Hemp|Hne].
  - destruct (drain_side_none _ _ _ _ _ _ D1 Hemp) as (-> & -> & ->).
    rewrite Hemp, app_nil_l in Hnone.
    destruct (t_drain_side c (t_hoard_entries st1) (t_root_paths st1)) as [[y he2] s3] eqn:D2.
    destruct (drain_side_weight _ _ _ _ _ _ D2) as [_ W2'].
    specialize (W2' Hnone).
    destruct y; rewrite potential_mk, entries_weight_app, Hemp; simpl; lia.
  - specialize (W1' Hne). destruct y as [f|].
    + rewrite potential_mk, entries_weight_app. lia.
    + destruct (t_drain_side c (t_hoard_entries st1) s2) as [[y he2] s3] eqn:D2.
      destruct (drain_side_weight _ _ _ _ _ _ D2) as [W2 _].
      destruct y; rewrite potential_mk, entries_weight_app; lia.
Qed.

Lemma covers_stack pr rel s se he cur j :
  j ∈ s -> item_pile j = pr -> relative_path j `prefix_of` rel ->
  covers pr rel (t_mk_state s se he cur).
Proof. intros. left. eauto. Qed.

Lemma covers_entries pr rel s se he c x :
  item_pile c = pr -> x ∈ default [] se ++ default [] he -> x `prefix_of` rel ->
  covers pr rel (t_mk_state s se he (Some c)).
Proof. intros. right. by exists c, x. Qed.

Lemma round_cover piles pr rel st :
  iter_inv piles st -> in_filtered_union pr rel -> type_consistent pr -> covers pr rel st ->
  match t_round st with
  | Yield r st' => r = Ok (pile_name pr, rel) \/ covers pr rel st'
  | Continue st' => covers pr rel st'
  | Finished _ => False
  | Panic => True
  end.
Proof.
  intros Hinv Hu Htc Hcov. unfold t_round.
  destruct (t_ensure_dir_entries _ _ _ _) as [res st1] eqn:E.
  rewrite (state_eta st) in Hcov.
  destruct (ensure_cover _ _ _ _ _ _ _ _ Hu Htc E Hcov) as [->|[Hres Hcov1]]; [by left|].
  destruct res as [[r|]|]; [by right|done|].
  destruct (t_current_root st1) as [c|] eqn:Ec; [|done].
  destruct (t_drain_side c (t_system_entries st1) (t_root_paths st1)) as [[y se2] s2] eqn:D1.
  pose proof (drain_side_stack _ _ _ _ _ _ D1) as St1.
  destruct Hcov1 as [(j & Hj & Hjp & Hjr)|(c' & x & Hc' & Hcp & Hx & Hxp)].
  - (* covered by an item of the stack: it stays there *)
    destruct y as [f|]; [right; eapply covers_stack; eauto|].
    destruct (t_drain_side c (t_hoard_entries st1) s2) as [[y he2] s3] eqn:D2.
    pose proof (drain_side_stack _ _ _ _ _ _ D2) as St2.
    destruct y; [right|]; eapply covers_stack; eauto.
  - rewrite Ec in Hc'. injection Hc' as <-. unfold entries_of in Hx.
    apply elem_of_app in Hx as [Hx|Hx].
    + destruct (drain_side_cover _ _ _ _ _ _ _ _ _ D1 Hcp Hu Htc Hx Hxp)
        as [->|[Hx'|(j & Hj & Hjp & Hjr)]]; [by left| |].
      * destruct y as [f|];
          [right; eapply covers_entries; eauto; apply elem_of_app; by left|].
        destruct (t_drain_side c (t_hoard_entries st1) s2) as [[y he2] s3] eqn:D2.
        destruct y; [right|]; eapply covers_entries; eauto; apply elem_of_app; by left.
      * destruct y as [f|]; [right; eapply covers_stack; eauto|].
        destruct (t_drain_side c (t_hoard_entries st1) s2) as [[y he2] s3] eqn:D2.
        pose proof (drain_side_stack _ _ _ _ _ _ D2) as St2.
        destruct y; [right|]; eapply covers_stack; eauto.
    + destruct y as [f|];
        [right; eapply covers_entries; eauto; apply elem_of_app; by right|].
      destruct (t_drain_side c (t_hoard_entries st1) s2) as [[y he2] s3] eqn:D2.
      destruct (drain_side_cover _ _ _ _ _ _ _ _ _ D2 Hcp Hu Htc Hx Hxp)
        as [->|[Hx'|(j & Hj & Hjp & Hjr)]]; [by left| |].
      * destruct y; [right|]; eapply covers_entries; eauto; apply elem_of_app; by right.
      * destruct y; [right|]; eapply covers_stack; eauto.
Qed.

Lemma run_terminates piles n st :
  iter_inv piles st -> potential st < n -> (t_run n st).2 = Done.
Proof.
  revert st. induction n as [|n IH]; intros st Hinv Hp; [lia|].
  pose proof (round_inv piles st Hinv) as Hr. pose proof (round_potential piles st Hinv) as Hw.
  simpl. destruct (t_round st) as [r st'|st'| |st']; try done.
  - destruct Hr as [Hinv' _]. destruct (t_run n st') as [l o] eqn:Er.
    simpl. rewrite <- (IH st' Hinv') by lia. by rewrite Er.
  - apply IH; [done|lia].
Qed.

Lemma run_mono n k st l : t_run n st = (l, Done) -> t_run (n + k) st = (l, Done).
Proof.
  revert st l. induction n as [|n IH]; intros st l; [done|]. simpl.
  destruct (t_round st); try done.
  - destruct (t_run n st0) as [l' o] eqn:Er. destruct o; try done.
    by rewrite (IH _ _ Er).
  - apply IH.
Qed.

Lemma run_sound piles n st l o :
  t_run n st = (l, o) -> iter_inv piles st ->
  forall r, r ∈ l -> exists i, r = Ok (hoard_file i) /\ item_ok piles i /\ keep i = true /\ is_file i = true.
Proof.
  revert st l. induction n as [|n IH]; intros st l H Hinv; simpl in H.
  - injection H as <- _. by intros ? ?%elem_of_nil.
  - pose proof (round_inv piles st Hinv) as Hr. destruct (t_round st) as [r0 st'|st'| |st'].
    + destruct (t_run n st') as [l' o'] eqn:Er. injection H as <- <-.
      destruct Hr as [Hinv' Hr0]. intros r [->|Hin]%elem_of_cons; [done|].
      eapply IH; eauto.
    + injection H as <- _. by intros ? ?%elem_of_nil.
    + injection H as <- _. by intros ? ?%elem_of_nil.
    + eapply IH; eauto.
Qed.

Lemma run_complete piles pr rel n st l :
  t_run n st = (l, Done) -> iter_inv piles st ->
  in_filtered_union pr rel -> type_consistent pr -> covers pr rel st ->
  Ok (pile_name pr, rel) ∈ l.
Proof.
  intros H Hinv Hu Htc. revert st l H Hinv. induction n as [|n IH]; intros st l H Hinv Hcov;
    simpl in H; [done|].
  pose proof (round_inv piles st Hinv) as Hr.
  pose proof (round_cover piles pr rel st Hinv Hu Htc Hcov) as Hc.
  destruct (t_round st) as [r0 st'|st'| |st']; try done.
  - destruct (t_run n st') as [l' o'] eqn:Er. injection H as <- ->.
    destruct Hc as [->|Hc]; [by left|]. right. eapply IH; [exact Er|apply Hr|exact Hc].
  - eapply IH; eauto.
Qed.

Lemma new_inv piles : iter_inv piles (t_new piles).
Proof.
  split; [|split; [by intros []|]].
  - apply Forall_forall. intros i Hi. simpl in Hi.
    apply list_elem_of_In, in_rev, in_map_iff in Hi as (p & <- & Hp%list_elem_of_In).
    split; [done|]. intros k Hk. simpl in Hk. lia.
  - intros c [=].
Qed.

Lemma new_covers piles pr rel : pr ∈ piles -> covers pr rel (t_new piles).
Proof.
  intros Hp. left. exists {| item_pile := pr; relative_path := [] |}. split.
  - simpl. apply list_elem_of_In. rewrite <- in_rev. apply in_map_iff. exists pr. by rewrite <- list_elem_of_In.
  - split; [done|]. by exists rel.
Qed.

Lemma sound_item piles i :
  item_ok piles i -> keep i = true -> is_file i = true ->
  item_pile i ∈ piles /\ in_filtered_union (item_pile i) (relative_path i).
Proof.
  intros [Hp Ha] Hk Hf. split; [done|]. split.
  - unfold is_file in Hf. by apply orb_prop in Hf.
  - intros k Hk'. destruct (decide (k = length (relative_path i))) as [->|Hne].
    + rewrite take_ge by lia. by apply keep_path_of.
    + apply Ha. lia.
Qed.

(** On piles without type conflicts, the tree version runs to its end
    without errors and yields the filtered union. *)
Lemma t_all_files_union (piles : list PileRoot) :
  (forall pr, pr ∈ piles -> type_consistent pr) ->
  exists l,
    (exists n, forall fuel, n <= fuel -> t_run fuel (t_new piles) = (l, Done)) /\
    (forall r, r ∈ l -> exists f, r = Ok f) /\
    (forall name rel, Ok (name, rel) ∈ l <->
       exists pr, pr ∈ piles /\ pile_name pr = name /\ in_filtered_union pr rel).
Proof.
  intros Htc. pose proof (new_inv piles) as Hinv.
  pose proof (run_terminates piles (S (potential (t_new piles))) (t_new piles) Hinv ltac:(lia)) as Ht.
  destruct (t_run (S (potential (t_new piles))) (t_new piles)) as [l o] eqn:Er. simpl in Ht. subst o.
  exists l. split; [|split].
  - exists (S (potential (t_new piles))). intros fuel Hf.
    replace fuel with (S (potential (t_new piles)) + (fuel - S (potential (t_new piles)))) by lia.
    by apply run_mono.
  - intros r Hr. destruct (run_sound piles _ _ _ _ Er Hinv r Hr) as (i & -> & _). eauto.
  - intros name rel. split.
    + intros Hin. destruct (run_sound piles _ _ _ _ Er Hinv _ Hin) as (i & Hi & Hok & Hk & Hf).
      unfold hoard_file in Hi. injection Hi as -> ->.
      destruct (sound_item piles i Hok Hk Hf) as [Hp Hu]. by exists (item_pile i).
    + intros (pr & Hp & <- & Hu). eapply run_complete; eauto using new_covers.
Qed.

(** *** The tree version simulates [AllFilesIter] on readable trees *)

Lemma lift_has_dir_entries se he :
  has_dir_entries (lift_entries se) (lift_entries he) = t_has_dir_entries se he.
Proof. by destruct se as [[|]|], he as [[|]|]. Qed.

Lemma ensure_sim stack se he cur :
  Forall (fun i => reads_succeed (item_pile i)) stack ->
  ensure_dir_entries stack (lift_entries se) (lift_entries he) cur =
  let '(r, st') := t_ensure_dir_entries stack se he cur in (r, lift st').
Proof.
  revert se he cur. induction stack as [|item stack IH]; intros se he cur Hr;
    cbn [ensure_dir_entries t_ensure_dir_entries]; rewrite lift_has_dir_entries.
  - by destruct (t_has_dir_entries se he).
  - apply Forall_cons in Hr as [Hi Hr].
    destruct (t_has_dir_entries se he); [done|].
    destruct (keep item); [|by apply IH]. destruct (is_file item); [done|].
    destruct (is_dir item); [|by apply IH].
    destruct (Hi (relative_path item)) as [-> ->]. unfold tree_read_dir.
    destruct (list_dir (system_tree _) _) as [ss|e];
      destruct (list_dir (hoard_tree _) _) as [hs|e'].
    + exact (IH (Some ss) (Some hs) (Some item) Hr).
    + destruct (decide (e' = NotFound)); [|done]. exact (IH (Some ss) None (Some item) Hr).
    + destruct (decide (e = NotFound)); [|done]. exact (IH None (Some hs) (Some item) Hr).
    + destruct (decide (e = NotFound)); [|done].
      destruct (decide (e' = NotFound)); [|done]. exact (IH None None (Some item) Hr).
Qed.

Lemma drain_sim cur es stack :
  drain cur (map Ok es) stack =
  let '(y, es', stack') := t_drain cur es stack in (option_map Ok y, map Ok es', stack').
Proof.
  revert stack. induction es as [|rel es IH]; intros stack; [done|]. simpl.
  destruct (keep _); [|apply IH]. destruct (is_file _); [done|].
  destruct (is_dir _); apply IH.
Qed.

Lemma drain_side_sim cur e stack :
  drain_side cur (lift_entries e) stack =
  let '(y, e', stack') := t_drain_side cur e stack in (option_map Ok y, lift_entries e', stack').
Proof.
  destruct e as [es|]; [|done]. simpl. rewrite drain_sim.
  by destruct (t_drain cur es stack) as [[y es'] stack'].
Qed.

Lemma round_sim piles st :
  (forall pr, pr ∈ piles -> reads_succeed pr) -> iter_inv piles st ->
  round (lift st) = lift_round (t_round st).
Proof.
  intros Hr [Hs _]. unfold round, t_round. simpl.
  rewrite ensure_sim.
  2:{ eapply Forall_impl; [exact Hs|]. intros i [Hp _]. by apply Hr. }
  destruct (t_ensure_dir_entries _ _ _ _) as [[[r|]|] st1]; try done. simpl.
  destruct (t_current_root st1) as [cur|]; [|done].
  rewrite drain_side_sim.
  destruct (t_drain_side cur (t_system_entries st1) (t_root_paths st1)) as [[[f|] se] stack];
    [done|]. simpl.
  rewrite drain_side_sim.
  by destruct (t_drain_side cur (t_hoard_entries st1) stack) as [[[f|] he] stack'].
Qed.

Lemma run_sim piles fuel st :
  (forall pr, pr ∈ piles -> reads_succeed pr) -> iter_inv piles st ->
  run fuel (lift st) = t_run fuel st.
Proof.
  intros Hr. revert st. induction fuel as [|fuel IH]; intros st Hinv; [done|].
  simpl. rewrite (round_sim piles st Hr Hinv).
  pose proof (round_inv piles st Hinv) as Hri.
  destruct (t_round st) as [r st'|st'| |st']; simpl; try done.
  - destruct Hri as [Hi _]. by rewrite IH.
  - by apply IH.
Qed.

Lemma new_lift piles : new piles = lift (t_new piles).
Proof. reflexivity. Qed.

(** C2 (counterexample): a file present in both the system directory and the
    hoard directory of a pile is yielded twice, once from each side's
    listing. *)
Theorem all_files_union_counterexample :
  run 10 (new [both_sides_pile]) = ([Ok (None, ["a"]); Ok (None, ["a"])], Done).
Proof. vm_compute. reflexivity. Qed.

(** C2 (amended): when every [fs::read_dir] of a pile lists its directory
    with every entry readable or fails with [NotFound] or [NotADirectory],
    and no path is a file on one side and a directory on the other,
    [AllFilesIter] runs to its end without errors, and the set of
    [(pile_name, relative_path)] pairs it yields is exactly the filtered
    union of the system and hoard trees of the piles. Pairs may repeat. *)
Theorem all_files_union (piles : list PileRoot) :
  (forall pr, pr ∈ piles -> type_consistent pr /\ reads_succeed pr) ->
  exists l,
    (exists n, forall fuel, n <= fuel -> run fuel (new piles) = (l, Done)) /\
    (forall r, r ∈ l -> exists f, r = Ok f) /\
    (forall name rel, Ok (name, rel) ∈ l <->
       exists pr, pr ∈ piles /\ pile_name pr = name /\ in_filtered_union pr rel).
Proof.
  intros H.
  destruct (t_all_files_union piles) as (l & [n Hn] & Hok & Hu); [intros pr Hp; apply (H pr Hp)|].
  exists l. split; [|done]. exists n. intros fuel Hf. rewrite new_lift.
  rewrite (run_sim piles fuel (t_new piles)); [by apply Hn| |apply new_inv].
  intros pr Hp. apply (H pr Hp).
Qed.

(** The pile of the counterexample has the same tree on both sides. *)
Lemma both_sides_consistent : type_consistent both_sides_pile.
Proof.
  intros rel. unfold path_is_file, path_is_dir. simpl.
  destruct (lookup _ rel) as [[|]|]; split; intros [? ?]; discriminate.
Qed.

(** A refused [read_dir] is returned as an error, and the iteration goes on
    with the next item. *)
Lemma denied_read_dir_error :
  run 10 (new [denied_pile]) = ([Err PermissionDenied], Done).
Proof. vm_compute. reflexivity. Qed.

(** An entry that fails is returned as an error, then the listing goes on. *)
Lemma bad_entry_error :
  run 10 (new [bad_entry_pile]) = ([Err OtherIo; Ok (None, ["a"]); Ok (None, ["a"])], Done).
Proof. vm_compute. reflexivity. Qed.

(** Its [read_dir]s are those of its trees. *)
Lemma both_sides_reads : reads_succeed both_sides_pile.
Proof. intros p. split; reflexivity. Qed.

Lemma all_files_union_witness :
  (forall pr, pr ∈ [both_sides_pile] -> type_consistent pr /\ reads_succeed pr) /\
  exists l,
    (exists n, forall fuel, n <= fuel -> run fuel (new [both_sides_pile]) = (l, Done)) /\
    (forall r, r ∈ l -> exists f, r = Ok f) /\
    (forall name rel, Ok (name, rel) ∈ l <->
       exists pr, pr ∈ [both_sides_pile] /\ pile_name pr = name /\ in_filtered_union pr rel).
Proof.
  assert (forall pr, pr ∈ [both_sides_pile] -> type_consistent pr /\ reads_succeed pr) as H.
  { intros pr ->%list_elem_of_singleton. split; [apply both_sides_consistent|apply both_sides_reads]. }
  split; [exact H|]. exact (all_files_union [both_sides_pile] H).
Defined.

End AllFilesUnion.

Section LogAccessors.
Import Operation V2.
Lemma map_some_fst (l : list (string * Checksum)) :
  (map (fun '(path, checksum) => (path, Some checksum)) l).*1 = l.*1.
Proof. induction l as [|[p c] l IH]; [done|]. cbn [map fmap list_fmap]. f_equal. exact IH. Qed.

Lemma elem_of_map_some (l : list (string * Checksum)) p c :
  (p, c) ∈ map (fun '(path, checksum) => (path, Some checksum)) l <->
  exists x, c = Some x /\ (p, x) ∈ l.
Proof.
  rewrite list_elem_of_In, in_map_iff. split.
  - intros [[p' x] [[= -> <-] Hin]]. exists x. split; [done|]. by apply list_elem_of_In.
  - intros [x [-> Hin]]. exists (p, x). split; [done|]. by apply list_elem_of_In.
Qed.

Lemma pile_all_elem pile p c :
  (p, c) ∈ pile_all_files_with_checksums pile <->
  match c with
  | Some x => created pile !! p = Some x \/ modified pile !! p = Some x \/
              unmodified pile !! p = Some x
  | None => p ∈ deleted pile
  end.
Proof.
  unfold pile_all_files_with_checksums. rewrite !elem_of_app, !elem_of_map_some.
  assert (Hd : (p, c) ∈ map (fun path => (path, @None Checksum)) (elements (deleted pile)) <->
               c = None /\ p ∈ deleted pile).
  { rewrite list_elem_of_In, in_map_iff. split.
    - intros [q [[= -> <-] Hin]]. split; [done|]. by apply elem_of_elements, list_elem_of_In.
    - intros [-> Hin]. exists p. split; [done|]. by apply list_elem_of_In, elem_of_elements. }
  rewrite Hd. destruct c as [x|].
  - setoid_rewrite elem_of_map_to_list. split.
    + intros [(y & [= <-] & H)|[(y & [= <-] & H)|[(y & [= <-] & H)|[[=] _]]]]; auto.
    + intros [H|[H|H]]; eauto 10.
  - split.
    + intros [(y & ? & _)|[(y & ? & _)|[(y & ? & _)|[_ H]]]]; done.
    + intros H. by right; right; right.
Qed.

Lemma pile_all_spec pile :
  pile_disjoint pile ->
  NoDup (pile_all_files_with_checksums pile).*1 /\
  forall p c, (p, c) ∈ pile_all_files_with_checksums pile <->
    pile_contains_file pile p false = true /\ c = pile_checksum_for pile p.
Proof.
  intros (H1 & H2 & H3 & H4 & H5 & H6). split.
  - unfold pile_all_files_with_checksums. rewrite !fmap_app, !map_some_fst.
    assert (Hdel : (map (fun path => (path, @None Checksum)) (elements (deleted pile))).*1
                   = elements (deleted pile)).
    { induction (elements (deleted pile)); simpl; [done|by f_equal]. }
    rewrite Hdel.
    assert (Hk : forall (m : gmap string Checksum) x, x ∈ (map_to_list m).*1 <-> x ∈ dom m).
    { intros m x. rewrite elem_of_dom, list_elem_of_fmap. split.
      - intros [[y c] [-> Hin]]. apply elem_of_map_to_list in Hin. by exists c.
      - intros [c Hc]. exists (x, c). split; [done|]. by apply elem_of_map_to_list. }
    apply NoDup_app. split; [apply NoDup_fst_map_to_list|split].
    { intros x Hx. rewrite Hk in Hx. rewrite !elem_of_app, !Hk, elem_of_elements. set_solver. }
    apply NoDup_app. split; [apply NoDup_fst_map_to_list|split].
    { intros x Hx. rewrite Hk in Hx. rewrite !elem_of_app, !Hk, elem_of_elements. set_solver. }
    apply NoDup_app. split; [apply NoDup_fst_map_to_list|split]; [|apply NoDup_elements].
    intros x Hx. rewrite Hk in Hx. rewrite elem_of_elements. set_solver.
  - intros p c. rewrite pile_all_elem. unfold pile_contains_file, pile_checksum_for. simpl.
    destruct (created pile !! p) as [x1|] eqn:E1, (modified pile !! p) as [x2|] eqn:E2,
      (unmodified pile !! p) as [x3|] eqn:E3;
      destruct (decide (p ∈ deleted pile)) as [Hd|Hd];
      rewrite ?bool_decide_eq_true_2 by (by apply elem_of_dom);
      rewrite ?(bool_decide_eq_false_2 (p ∈ dom (created pile))) by (by apply not_elem_of_dom);
      rewrite ?(bool_decide_eq_false_2 (p ∈ dom (modified pile))) by (by apply not_elem_of_dom);
      rewrite ?(bool_decide_eq_false_2 (p ∈ dom (unmodified pile))) by (by apply not_elem_of_dom);
      rewrite ?(bool_decide_eq_true_2 (p ∈ deleted pile)) by done;
      rewrite ?(bool_decide_eq_false_2 (p ∈ deleted pile)) by done;
      simpl;
      try (exfalso; match goal with
        | Ha : ?m1 !! p = Some _, Hb : ?m2 !! p = Some _, Hdj : dom ?m1 ## dom ?m2 |- _ =>
            apply (Hdj p); by apply elem_of_dom
        | Ha : ?m1 !! p = Some _, Hdj : dom ?m1 ## deleted pile |- _ =>
            apply (Hdj p); [by apply elem_of_dom|done]
        end);
      destruct c; split; try intros [? ?]; try intros [[=]|[[=]|[=]]];
      try intros ?; subst; try done; try congruence; try (intuition congruence; fail);
      (split; [|done]); rewrite ?orb_false_r; apply bool_decide_eq_true_2; by apply elem_of_dom.
Qed.

Lemma all_files_elem op k p c :
  (k, p, c) ∈ all_files_with_checksums op <->
  exists pile, get_pile k (files op) = Some pile /\ (p, c) ∈ pile_all_files_with_checksums pile.
Proof.
  unfold all_files_with_checksums. destruct (files op) as [pile|piles]; simpl.
  - rewrite list_elem_of_In, in_map_iff. split.
    + intros [[p' c'] [[= <- <- <-] Hin]]. exists pile. split; [done|]. by apply list_elem_of_In.
    + intros (pile' & Hg & Hin). destruct k; [done|]. injection Hg as <-.
      exists (p, c). split; [done|]. by apply list_elem_of_In.
  - rewrite list_elem_of_join. split.
    + intros (l & Hx & Hl). apply list_elem_of_In, in_map_iff in Hl as [[n pile] [<- Hin]].
      apply list_elem_of_In, in_map_iff in Hx as [[p' c'] [[= <- <- <-] Hx]].
      exists pile. split; [by apply elem_of_map_to_list, list_elem_of_In|by apply list_elem_of_In].
    + intros (pile & Hg & Hin). destruct k as [n|]; [|done].
      eexists. split; [|apply list_elem_of_In, in_map_iff; exists (n, pile); split;
                        [reflexivity|by apply list_elem_of_In, elem_of_map_to_list]].
      apply list_elem_of_In, in_map_iff. exists (p, c). split; [done|by apply list_elem_of_In].
Qed.

Lemma key_block (k : option string) (l : list (string * option Checksum)) :
  map (fun x : option string * string * option Checksum => (x.1.1, x.1.2))
      (map (fun '(path, checksum) => (k, path, checksum)) l) =
  (fun path => (k, path)) <$> l.*1.
Proof. induction l as [|[p c] l IH]; [done|]. cbn [map fmap list_fmap]. f_equal. exact IH. Qed.

Lemma get_pile_piles name h pile : get_pile name h = Some pile -> pile ∈ hoard_piles h.
Proof.
  destruct name, h; simpl; try discriminate.
  - intros Hk. apply list_elem_of_In, in_map_iff. exists (s, pile). split; [done|].
    by apply list_elem_of_In, elem_of_map_to_list.
  - intros [= ->]. by left.
Qed.

Lemma all_files_nodup op :
  (forall pile, pile ∈ hoard_piles (files op) -> pile_disjoint pile) ->
  NoDup (map (fun x : option string * string * option Checksum => (x.1.1, x.1.2))
             (all_files_with_checksums op)).
Proof.
  unfold all_files_with_checksums. destruct (files op) as [pile|piles]; simpl; intros Hd.
  - rewrite key_block. apply NoDup_fmap_2; [intros ?? [=]; done|].
    apply pile_all_spec, Hd. by left.
  - assert (Hl : forall x, x ∈ map_to_list piles -> pile_disjoint x.2).
    { intros [n pile] Hin. apply Hd, list_elem_of_In, in_map_iff. exists (n, pile).
      split; [done|]. by apply list_elem_of_In. }
    pose proof (NoDup_fst_map_to_list piles) as Hnd. clear Hd.
    induction (map_to_list piles) as [|[n pile] l IH]; simpl; [constructor|].
    apply NoDup_cons in Hnd as [Hn Hnd]. rewrite map_app, key_block.
    apply NoDup_app. split; [|split].
    + apply NoDup_fmap_2; [intros ?? [=]; done|]. apply pile_all_spec, (Hl (n, pile)). by left.
    + intros x Hx Hx2. apply list_elem_of_fmap in Hx as [q [-> _]].
      apply list_elem_of_In, in_map_iff in Hx2 as [y [Hy Hin]].
      apply list_elem_of_In, list_elem_of_join in Hin as (b & Hb & Hbl).
      apply list_elem_of_In, in_map_iff in Hbl as [[n' pile'] [<- Hin']].
      apply list_elem_of_In, in_map_iff in Hb as [[p' c'] [<- _]].
      simpl in Hy. injection Hy as -> _. apply Hn, list_elem_of_fmap.
      exists (n, pile'). split; [done|]. by apply list_elem_of_In.
    + apply IH; [|done]. intros x Hx. apply Hl. by right.
Qed.

(** Extra X1: for a log whose piles each keep their created, modified,
    deleted and unmodified paths disjoint, [all_files_with_checksums] lists
    each (pile, path) pair at most once, and lists exactly the files that
    [contains_file] reports (with [only_modified] false), each with the
    checksum [checksum_for] returns for it. *)
Theorem all_files_with_checksums_spec op :
  (forall pile, pile ∈ hoard_piles (files op) -> pile_disjoint pile) ->
  NoDup (map (fun x : option string * string * option Checksum => (x.1.1, x.1.2))
             (all_files_with_checksums op)) /\
  forall pile_name rel_path checksum,
    (pile_name, rel_path, checksum) ∈ all_files_with_checksums op <->
    contains_file op pile_name rel_path false = true /\
    checksum = checksum_for op pile_name rel_path.
Proof.
  intros Hd. split; [by apply all_files_nodup|].
  intros k p c. rewrite all_files_elem. unfold contains_file, checksum_for.
  destruct (get_pile k (files op)) as [pile|] eqn:Hg.
  - apply get_pile_piles, Hd in Hg. rewrite <- (proj2 (pile_all_spec pile Hg)). naive_solver.
  - naive_solver.
Qed.

Lemma all_files_with_checksums_spec_witness :
  (forall pile, pile ∈ hoard_piles (files sample_log) -> pile_disjoint pile) /\
  all_files_with_checksums sample_log
    = [(None, "a", Some (MD5 "x")); (None, "b", Some (MD5 "y"))] /\
  forall pile_name rel_path checksum,
    (pile_name, rel_path, checksum) ∈ all_files_with_checksums sample_log <->
    contains_file sample_log pile_name rel_path false = true /\
    checksum = checksum_for sample_log pile_name rel_path.
Proof.
  assert (Hd : forall pile, pile ∈ hoard_piles (files sample_log) -> pile_disjoint pile).
  { intros pile Hp. apply list_elem_of_singleton in Hp as ->. apply (bool_decide_unpack _). vm_compute. exact I. }
  split; [exact Hd|]. split; [vm_compute; reflexivity|].
  exact (proj2 (all_files_with_checksums_spec sample_log Hd)).
Defined.

Lemma all_files_contains op :
  (forall pile, pile ∈ hoard_piles (files op) -> pile_disjoint pile) ->
  forall pile_name rel_path checksum,
    (pile_name, rel_path, checksum) ∈ all_files_with_checksums op <->
    contains_file op pile_name rel_path false = true /\
    checksum = checksum_for op pile_name rel_path.
Proof.
  intros Hd k p c. rewrite all_files_elem. unfold contains_file, checksum_for.
  destruct (get_pile k (files op)) as [pile|] eqn:Hg.
  - apply get_pile_piles, Hd in Hg. rewrite <- (proj2 (pile_all_spec pile Hg)). naive_solver.
  - naive_solver.
Qed.

End LogAccessors.

Section HoardNewResults.
Import Operation V2.
Lemma hoard_new_step_failure dir m x :
  (forall e, hoard_new_step dir (Ok m) x = Err e <-> op_failure dir x = Some e) /\
  (op_failure dir x = None -> exists m', hoard_new_step dir (Ok m) x = Ok m').
Proof.
  destruct x as [o|e]; simpl; [|split; [intros e'; split; congruence|done]].
  destruct o as [f|f|f|f]; destruct dir; simpl;
    repeat match goal with
    | |- context [require_checksum ?c] => destruct (require_checksum c)
    end;
    (split; [intros e'; split; congruence|intros H; (discriminate || (eexists; reflexivity))]).
Qed.

Lemma hoard_new_fold_failure dir l m e :
  fold_left (hoard_new_step dir) l (Ok m) = Err e <->
  exists pre x post, l = pre ++ x :: post /\
    Forall (fun y => op_failure dir y = None) pre /\ op_failure dir x = Some e.
Proof.
  revert m. induction l as [|x l IH]; intros m; cbn [fold_left].
  - split; [discriminate|]. intros (pre & x & post & Hl & _). by destruct pre.
  - destruct (hoard_new_step_failure dir m x) as [Herr Hok].
    destruct (op_failure dir x) as [e'|] eqn:Hx.
    + assert (Hs : hoard_new_step dir (Ok m) x = Err e') by (by apply Herr).
      rewrite Hs, hoard_new_fold_err. split.
      * intros [= ->]. exists [], x, l. split; [done|split; [constructor|done]].
      * intros (pre & y & post & Hl & Hpre & Hy). destruct pre as [|z pre].
        -- injection Hl as -> ->. congruence.
        -- injection Hl as -> ->. apply Forall_cons in Hpre as [? _]. congruence.
    + destruct (Hok eq_refl) as [m' Hs]. rewrite Hs, IH. split.
      * intros (pre & y & post & -> & Hpre & Hy). exists (x :: pre), y, post.
        split; [done|split; [by constructor|done]].
      * intros (pre & y & post & Hl & Hpre & Hy). destruct pre as [|z pre].
        -- injection Hl as -> ->. congruence.
        -- injection Hl as -> ->. apply Forall_cons in Hpre as [_ Hpre].
           exists pre, y, post. done.
Qed.

Lemma hoard_new_fold_ok dir l m :
  (exists m', fold_left (hoard_new_step dir) l (Ok m) = Ok m') <->
  Forall (fun y => op_failure dir y = None) l.
Proof.
  revert m. induction l as [|x l IH]; intros m; cbn [fold_left].
  - split; [constructor|by eexists].
  - destruct (hoard_new_step_failure dir m x) as [Herr Hok].
    destruct (op_failure dir x) as [e'|] eqn:Hx.
    + assert (Hs : hoard_new_step dir (Ok m) x = Err e') by (by apply Herr).
      rewrite Hs, hoard_new_fold_err. split; [by intros [? ?]|].
      intros Hf. apply Forall_cons in Hf as [? _]. congruence.
    + destruct (Hok eq_refl) as [m' Hs]. rewrite Hs, IH. split.
      * intros H. by constructor.
      * intros H. by apply Forall_cons in H as [_ H].
Qed.

Lemma hoard_new_ops_failure dir ops :
  ((exists h, hoard_new dir ops = Ok h) <-> Forall (fun x => op_failure dir x = None) ops) /\
  (forall e, hoard_new dir ops = Err e <->
     exists pre x post, ops = pre ++ x :: post /\
       Forall (fun y => op_failure dir y = None) pre /\ op_failure dir x = Some e).
Proof.
  assert (Hn : forall e, hoard_new dir ops = Err e <-> hoard_new_inner dir ops = Err e).
  { intros e. unfold hoard_new. destruct (hoard_new_inner dir ops) as [inner|e']; [|split; intros H; congruence].
    destruct (inner !! ""); [destruct (decide (size inner = 1))|]; split; discriminate. }
  split.
  - rewrite <- (hoard_new_fold_ok dir ops ∅). unfold hoard_new, hoard_new_inner.
    destruct (fold_left (hoard_new_step dir) ops (Ok ∅)) as [inner|e].
    + split; intros _; [by eexists|]. cbn.
      destruct (inner !! ""); [destruct (decide (size inner = 1))|]; by eexists.
    + split; intros [? ?]; discriminate.
  - intros e. rewrite Hn. apply hoard_new_fold_failure.
Qed.

(** Extra X2: [Hoard::new] fails with the error of [OperationIter::new]
    when that constructor fails. Otherwise it succeeds exactly when no item
    of the stream fails, and returns the error of the first failing item
    when one does. An item fails when it is an [Err], or when the checksum
    it needs (the system side for a backup, the hoard side for a restore;
    the system side for an unchanged file; none for a deletion) is an error
    or missing. *)
Theorem hoard_new_failure {E : Type} dir (iter : result (list (result ItemOperation IoErrorKind)) E) :
  ((exists h, hoard_new_with_iter dir iter = Ok h) <->
     exists ops, iter = Ok ops /\ Forall (fun x => op_failure dir x = None) ops) /\
  (forall e, hoard_new_with_iter dir iter = Err (inl e) <-> iter = Err e) /\
  (forall e, hoard_new_with_iter dir iter = Err (inr e) <->
     exists ops pre x post, iter = Ok ops /\ ops = pre ++ x :: post /\
       Forall (fun y => op_failure dir y = None) pre /\ op_failure dir x = Some e).
Proof.
  unfold hoard_new_with_iter. destruct iter as [ops|e0].
  - destruct (hoard_new_ops_failure dir ops) as [Hok Herr]. split; [|split].
    + transitivity (exists h, hoard_new dir ops = Ok h).
      { split; intros [h Hh].
        - destruct (hoard_new dir ops) as [h'|]; [by exists h'|discriminate].
        - rewrite Hh. by exists h. }
      rewrite Hok. split; [intros H; by exists ops|intros (ops' & [= <-] & H); done].
    + intros e. split; [destruct (hoard_new dir ops); discriminate|discriminate].
    + intros e. transitivity (hoard_new dir ops = Err e).
      { destruct (hoard_new dir ops); split; congruence. }
      rewrite Herr. split.
      * intros (pre & x & post & H). by exists ops, pre, x, post.
      * intros (ops' & pre & x & post & [= <-] & H). eauto.
  - split; [|split].
    + split; [by intros [h Hh]|by intros (ops & Hops & _)].
    + intros e. split; congruence.
    + intros e. split; [discriminate|]. by intros (ops & pre & x & post & Hops & _).
Qed.

Lemma hoard_new_inner_ind dir (P : list (result ItemOperation IoErrorKind) -> gmap string Pile -> Prop)
  ops m :
  P [] ∅ ->
  (forall pre m x m', P pre m -> hoard_new_step dir (Ok m) x = Ok m' -> P (pre ++ [x]) m') ->
  hoard_new_inner dir ops = Ok m -> P ops m.
Proof.
  intros H0 Hstep. unfold hoard_new_inner.
  enough (H : forall l acc pre, (forall m0, acc = Ok m0 -> P pre m0) ->
            fold_left (hoard_new_step dir) l acc = Ok m -> P (pre ++ l) m).
  { intros Hf. apply (H ops (Ok ∅) []); [|done]. by intros ? [= <-]. }
  induction l as [|x l IH]; intros acc pre Hacc; simpl.
  - intros ->. rewrite app_nil_r. by apply Hacc.
  - intros Hf. destruct acc as [m0|e].
    2:{ replace (hoard_new_step dir (Err e) x) with (@Err (gmap string Pile) IoErrorKind e)
          in Hf by done. by rewrite hoard_new_fold_err in Hf. }
    destruct (hoard_new_step dir (Ok m0) x) as [m1|e] eqn:Hs;
      [|by rewrite hoard_new_fold_err in Hf].
    replace (pre ++ x :: l) with ((pre ++ [x]) ++ l) by (by rewrite <- app_assoc).
    apply (IH (Ok m1)); [|done].
    intros ? [= <-]. eapply Hstep; [by apply Hacc|done].
Qed.

Lemma hoard_new_inner_dom dir ops m :
  hoard_new_inner dir ops = Ok m ->
  forall k, k ∈ dom m <-> exists o, Ok o ∈ ops /\ (op_key o).1 = k.
Proof.
  apply (hoard_new_inner_ind dir (fun pre m => forall k, k ∈ dom m <-> exists o, Ok o ∈ pre /\ (op_key o).1 = k)).
  - intros k. rewrite dom_empty_L. split; [set_solver|]. intros (o & Ho & _). by apply elem_of_nil in Ho.
  - intros pre m0 x m' IH Hs k. apply hoard_new_step_ok in Hs as (o & -> & Hm').
    assert (Hd : dom m' = {[(op_key o).1]} ∪ dom m0).
    { unfold op_key. simpl.
      destruct o; simpl in Hm';
        [destruct Hm' as (? & _ & ->)|destruct Hm' as (? & _ & ->)|subst m'
        |destruct Hm' as (? & _ & ->)]; by rewrite dom_insert_L. }
    rewrite Hd, elem_of_union, elem_of_singleton, IH. split.
    + intros [->|(o' & Ho' & <-)]; [exists o|exists o']; rewrite elem_of_app, list_elem_of_singleton; auto.
    + intros (o' & Ho' & <-). apply elem_of_app in Ho' as [Ho'|[= ->]%list_elem_of_singleton]; eauto.
Qed.

(** Extra X3: the hoard built by [Hoard::new] is anonymous exactly when
    at least one operation succeeded and every operation has the empty pile
    name; otherwise it is named and its pile names are exactly the pile
    names of the operations (an empty stream gives an empty named hoard). *)
Theorem hoard_new_shape dir ops h :
  hoard_new dir ops = Ok h ->
  ((exists pile, h = Anonymous pile) <->
     (exists o, Ok o ∈ ops) /\ forall o, Ok o ∈ ops -> (op_key o).1 = "") /\
  (forall piles, h = Named piles ->
     forall k, k ∈ dom piles <-> exists o, Ok o ∈ ops /\ (op_key o).1 = k).
Proof.
  unfold hoard_new. destruct (hoard_new_inner dir ops) as [inner|e] eqn:Hi; [|discriminate].
  pose proof (hoard_new_inner_dom dir ops inner Hi) as Hdom.
  assert (Hall : (exists o, Ok o ∈ ops) /\ (forall o, Ok o ∈ ops -> (op_key o).1 = "") ->
                 exists p, inner !! "" = Some p /\ size inner = 1).
  { intros [[o Ho] Hk].
    assert (He : "" ∈ dom inner) by (apply Hdom; exists o; split; [done|by apply Hk]).
    apply elem_of_dom in He as [p Hp]. exists p. split; [done|].
    rewrite <- size_dom.
    assert (dom inner = {["" ]}) as ->; [|apply size_singleton].
    apply set_eq. intros k. rewrite elem_of_singleton, Hdom. split.
    - intros (o' & Ho' & <-). by apply Hk.
    - intros ->. exists o. split; [done|by apply Hk]. }
  destruct (inner !! "") as [p|] eqn:Hp; [case_decide as Hs|]; intros [= <-].
  - split; [|done]. split; [|by eauto]. intros _.
    assert (He : "" ∈ dom inner) by (by apply elem_of_dom).
    split.
    + apply Hdom in He as (o & Ho & _). by exists o.
    + intros o Ho. rewrite <- size_dom in Hs.
      apply (size_singleton_inv (dom inner)); [done| |done].
      apply Hdom. by exists o.
  - split; [|by intros ? [= <-]]. split; [by intros [? ?]|].
    intros Hr. destruct (Hall Hr) as (p' & _ & ?). done.
  - split; [|by intros ? [= <-]]. split; [by intros [? ?]|].
    intros Hr. destruct (Hall Hr) as (p' & ? & _). congruence.
Qed.

Lemma hoard_new_shape_witness :
  hoard_new Backup sample_ops = Ok (Anonymous sample_pile) /\
  ((exists pile, Anonymous sample_pile = Anonymous pile) <->
     (exists o, Ok o ∈ sample_ops) /\ forall o, Ok o ∈ sample_ops -> (op_key o).1 = "") /\
  (forall piles, Anonymous sample_pile = Named piles ->
     forall k, k ∈ dom piles <-> exists o, Ok o ∈ sample_ops /\ (op_key o).1 = k).
Proof.
  assert (Hh : hoard_new Backup sample_ops = Ok (Anonymous sample_pile))
    by (vm_compute; reflexivity).
  split; [exact Hh|]. exact (hoard_new_shape Backup sample_ops _ Hh).
Defined.

End HoardNewResults.

Section OperationNew.
Import Operation V2.
Lemma uniform_key_inj ops o1 o2 :
  uniform_pile_names ops -> Ok o1 ∈ ops -> Ok o2 ∈ ops -> (op_key o1).1 = (op_key o2).1 ->
  item_pile_name (op_file o1) = item_pile_name (op_file o2).
Proof.
  unfold op_key, pile_key. simpl. intros [Hu|Hu] H1 H2 Hk.
  - by rewrite (Hu o1 H1), (Hu o2 H2).
  - destruct (Hu o1 H1) as (n1 & E1 & _), (Hu o2 H2) as (n2 & E2 & _).
    rewrite E1, E2 in Hk |- *. simpl in Hk. by subst.
Qed.

Lemma hoard_new_get_pile dir ops h inner :
  uniform_pile_names ops -> hoard_new dir ops = Ok h -> hoard_new_inner dir ops = Ok inner ->
  (forall o, Ok o ∈ ops -> get_pile (item_pile_name (op_file o)) h = inner !! (op_key o).1) /\
  (forall pn pile, get_pile pn h = Some pile ->
     exists o, Ok o ∈ ops /\ item_pile_name (op_file o) = pn /\ inner !! (op_key o).1 = Some pile).
Proof.
  intros Hu Hh Hi. pose proof (hoard_new_inner_dom dir ops inner Hi) as Hdom.
  unfold hoard_new in Hh. rewrite Hi in Hh.
  assert (Hnone : (forall o, Ok o ∈ ops -> item_pile_name (op_file o) = None) ->
                  forall o, Ok o ∈ ops -> (op_key o).1 = "").
  { intros Hn o Ho. unfold op_key, pile_key. simpl. by rewrite (Hn o Ho). }
  assert (Hsome : forall o, Ok o ∈ ops -> item_pile_name (op_file o) = None ->
                  exists p, inner !! "" = Some p /\ size inner = 1).
  { intros o Ho Hn. destruct Hu as [Hu|Hu].
    2:{ destruct (Hu o Ho) as (n & E & _). congruence. }
    assert (He : "" ∈ dom inner) by (apply Hdom; exists o; split; [done|by apply Hnone]).
    apply elem_of_dom in He as [p Hp]. exists p. split; [done|].
    rewrite <- size_dom.
    assert (dom inner = {["" ]}) as ->; [|apply size_singleton].
    apply set_eq. intros k. rewrite elem_of_singleton, Hdom. split.
    - intros (o' & Ho' & <-). by apply Hnone.
    - intros ->. exists o. split; [done|by apply Hnone]. }
  destruct (inner !! "") as [p|] eqn:Hp; [destruct (decide (size inner = 1)) as [Hs|Hs]|];
    injection Hh as <-.
  - assert (Hkey : forall o, Ok o ∈ ops -> (op_key o).1 = "").
    { intros o Ho. rewrite <- size_dom in Hs.
      apply (size_singleton_inv (dom inner)); [done| |by apply elem_of_dom].
      apply Hdom. by exists o. }
    assert (Hn : forall o, Ok o ∈ ops -> item_pile_name (op_file o) = None).
    { intros o Ho. destruct Hu as [Hu|Hu]; [by apply Hu|].
      destruct (Hu o Ho) as (n & E & Hne). specialize (Hkey o Ho).
      unfold op_key, pile_key in Hkey. simpl in Hkey. rewrite E in Hkey. done. }
    split.
    + intros o Ho. rewrite (Hn o Ho), (Hkey o Ho). done.
    + intros pn pile Hg. destruct pn; [done|]. injection Hg as <-.
      assert (He : "" ∈ dom inner) by (by apply elem_of_dom).
      apply Hdom in He as (o & Ho & Hk). exists o. rewrite (Hn o Ho), Hk. done.
  - split.
    + intros o Ho. destruct (item_pile_name (op_file o)) as [n|] eqn:E.
      * unfold op_key, pile_key. simpl. by rewrite E.
      * destruct (Hsome o Ho E) as (? & _ & ?). done.
    + intros pn pile Hg. destruct pn as [n|]; [|done]. simpl in Hg.
      assert (He : n ∈ dom inner) by (by apply elem_of_dom).
      apply Hdom in He as (o & Ho & Hk). exists o. split; [done|].
      rewrite Hk. split; [|done].
      destruct (item_pile_name (op_file o)) as [n'|] eqn:E.
      * unfold op_key, pile_key in Hk. simpl in Hk. rewrite E in Hk. simpl in Hk. by subst.
      * destruct (Hsome o Ho E) as (? & _ & ?). done.
  - split.
    + intros o Ho. destruct (item_pile_name (op_file o)) as [n|] eqn:E.
      * unfold op_key, pile_key. simpl. by rewrite E.
      * destruct (Hsome o Ho E) as (? & ? & _). congruence.
    + intros pn pile Hg. destruct pn as [n|]; [|done]. simpl in Hg.
      assert (He : n ∈ dom inner) by (by apply elem_of_dom).
      apply Hdom in He as (o & Ho & Hk). exists o. split; [done|].
      rewrite Hk. split; [|done].
      destruct (item_pile_name (op_file o)) as [n'|] eqn:E.
      * unfold op_key, pile_key in Hk. simpl in Hk. rewrite E in Hk. simpl in Hk. by subst.
      * destruct (Hsome o Ho E) as (? & ? & _). congruence.
Qed.

Lemma operation_new_files hoards_root name dir now ops log :
  operation_new hoards_root name dir now ops = Ok log -> hoard_new dir ops = Ok (files log).
Proof.
  unfold operation_new. destruct (hoard_new dir ops); [|discriminate]. by intros [= <-].
Qed.

Lemma unique_consistent ops : ops_unique ops -> ops_consistent ops.
Proof. intros Hu o1 o2 H1 H2 Hk. by rewrite (Hu o1 o2 H1 H2 Hk). Qed.

Lemma hoard_new_inner_of dir ops h :
  hoard_new dir ops = Ok h -> exists inner, hoard_new_inner dir ops = Ok inner.
Proof. unfold hoard_new. destruct (hoard_new_inner dir ops); [by eexists|discriminate]. Qed.

(** contains_file *)
Lemma operation_new_contains_aux hoards_root name dir now ops log :
  ops_unique ops -> uniform_pile_names ops ->
  operation_new hoards_root name dir now ops = Ok log ->
  forall pile_name rel_path only_modified,
    contains_file log pile_name rel_path only_modified = true <->
    exists o, Ok o ∈ ops /\ item_pile_name (op_file o) = pile_name /\
      item_relative_path (op_file o) = rel_path /\
      (only_modified = true -> op_kind o <> ONothing).
Proof.
  intros Hu Hun Hl%operation_new_files.
  destruct (hoard_new_inner_of _ _ _ Hl) as [inner Hi].
  destruct (hoard_new_get_pile dir ops (files log) inner Hun Hl Hi) as [Hg1 Hg2].
  pose proof (hoard_new_inner_provenance dir ops inner Hi) as Hprov.
  intros pn p om. unfold contains_file. split.
  - destruct (get_pile pn (files log)) as [pile|] eqn:Hg; [|done].
    destruct (Hg2 pn pile Hg) as (o0 & Ho0 & <- & Hk0).
    destruct (Hprov _ _ Hk0 p) as (Hc & Hm & Hun' & Hd).
    assert (Hfrom : forall K, recorded_by ops (op_key o0).1 p K -> (om = true -> K <> ONothing) ->
              exists o, Ok o ∈ ops /\ item_pile_name (op_file o) = item_pile_name (op_file o0) /\
                item_relative_path (op_file o) = p /\ (om = true -> op_kind o <> ONothing)).
    { intros K (o & Ho & Hk & HK) HKn. exists o. split; [done|].
      unfold op_key in Hk. injection Hk as Hk1 Hk2. split.
      - apply (uniform_key_inj ops); [done..|]. unfold op_key. simpl. done.
      - split; [done|]. by rewrite HK. }
    unfold pile_contains_file. rewrite !orb_true_iff, andb_true_iff, !bool_decide_eq_true.
    intros [[[H|H]|H]|[Hom H]].
    + apply (Hfrom OCreate); [by apply Hc|done].
    + apply (Hfrom OModify); [by apply Hm|done].
    + apply (Hfrom ODelete); [by apply Hd|done].
    + apply (Hfrom ONothing); [by apply Hun'|]. destruct om; done.
  - intros (o & Ho & <- & <- & Hom). rewrite (Hg1 o Ho).
    destruct (hoard_new_inner_records dir ops inner Hu Hi o Ho) as (pile & -> & Hrec).
    unfold recorded_as in Hrec. unfold pile_contains_file.
    rewrite !orb_true_iff, andb_true_iff, !bool_decide_eq_true.
    destruct o; simpl in *.
    + destruct Hrec as (c & _ & Hc). left; left; left. by apply elem_of_dom.
    + destruct Hrec as (c & _ & Hc). left; left; right. by apply elem_of_dom.
    + left; right. done.
    + destruct Hrec as (c & _ & Hc). right. split; [|by apply elem_of_dom].
      destruct om; [|done]. by destruct (Hom eq_refl).
Qed.

Lemma hoard_new_pile_disjoint dir ops inner k pile :
  ops_unique ops -> hoard_new_inner dir ops = Ok inner -> inner !! k = Some pile ->
  pile_disjoint pile.
Proof.
  intros Hu Hi Hk. eapply provenance_disjoint;
    [exact (hoard_new_inner_provenance dir ops inner Hi)|by apply unique_consistent|exact Hk].
Qed.

(** checksum_for *)
Lemma operation_new_checksum_aux hoards_root name dir now ops log :
  ops_unique ops -> uniform_pile_names ops ->
  operation_new hoards_root name dir now ops = Ok log ->
  (forall o, Ok o ∈ ops ->
     checksum_for log (item_pile_name (op_file o)) (item_relative_path (op_file o)) =
     recorded_checksum dir o) /\
  (forall pile_name rel_path,
     (forall o, Ok o ∈ ops -> item_pile_name (op_file o) = pile_name ->
                item_relative_path (op_file o) <> rel_path) ->
     checksum_for log pile_name rel_path = None).
Proof.
  intros Hu Hun Hl%operation_new_files.
  destruct (hoard_new_inner_of _ _ _ Hl) as [inner Hi].
  destruct (hoard_new_get_pile dir ops (files log) inner Hun Hl Hi) as [Hg1 Hg2].
  pose proof (hoard_new_inner_provenance dir ops inner Hi) as Hprov.
  unfold checksum_for. split.
  - intros o Ho. rewrite (Hg1 o Ho).
    destruct (hoard_new_inner_records dir ops inner Hu Hi o Ho) as (pile & Hk & Hrec).
    rewrite Hk.
    destruct (hoard_new_pile_disjoint dir ops inner _ pile Hu Hi Hk)
      as (D1 & D2 & D3 & D4 & D5 & D6).
    unfold recorded_as in Hrec. unfold pile_checksum_for, recorded_checksum.
    assert (Hnot : forall (m : gmap string Checksum) q, q ∉ dom m -> m !! q = None)
      by (intros m q; apply not_elem_of_dom).
    destruct o as [f|f|f|f]; simpl in *.
    + destruct Hrec as (c & Hs & Hc). rewrite Hc, Hs. done.
    + destruct Hrec as (c & Hs & Hc).
      rewrite Hnot by (intros Hin; apply (D1 _ Hin); by apply elem_of_dom).
      rewrite Hc, Hs. done.
    + rewrite !Hnot; [done|..]; intros Hin; [apply (D6 _ Hin)|apply (D5 _ Hin)|apply (D4 _ Hin)]; done.
    + destruct Hrec as (c & Hs & Hc).
      rewrite (Hnot (created pile)), (Hnot (modified pile)); [by rewrite Hc, Hs| |].
      * intros Hin. apply (D3 _ Hin). by apply elem_of_dom.
      * intros Hin. apply (D2 _ Hin). by apply elem_of_dom.
  - intros pn p Hnone. destruct (get_pile pn (files log)) as [pile|] eqn:Hg; [|done].
    destruct (Hg2 pn pile Hg) as (o0 & Ho0 & Hn0 & Hk0).
    destruct (Hprov _ _ Hk0 p) as (Hc & Hm & Hun' & _).
    assert (Hno : forall K, ~ recorded_by ops (op_key o0).1 p K).
    { intros K (o & Ho & Hk & _). unfold op_key in Hk. injection Hk as Hk1 Hk2.
      apply (Hnone o Ho); [|done]. rewrite <- Hn0.
      apply (uniform_key_inj ops); [done..|]. unfold op_key. simpl. done. }
    unfold pile_checksum_for.
    destruct (created pile !! p) eqn:E1.
    { exfalso. apply (Hno OCreate), Hc, elem_of_dom. by eexists. }
    destruct (modified pile !! p) eqn:E2.
    { exfalso. apply (Hno OModify), Hm, elem_of_dom. by eexists. }
    destruct (unmodified pile !! p) eqn:E3; [|done].
    exfalso. apply (Hno ONothing), Hun', elem_of_dom. by eexists.
Qed.

(** Extra X4: for a stream with one operation per (pile, path) and
    uniform pile names (all anonymous, or all named with a non-empty name),
    the log built by [OperationV2::new] contains a file exactly when an
    operation on that file is in the stream; with [only_modified] it
    contains it exactly when that operation is not [Nothing]. *)
Theorem operation_new_contains_file hoards_root name dir now ops log :
  ops_unique ops -> uniform_pile_names ops ->
  operation_new hoards_root name dir now ops = Ok log ->
  forall pile_name rel_path only_modified,
    contains_file log pile_name rel_path only_modified = true <->
    exists o, Ok o ∈ ops /\ item_pile_name (op_file o) = pile_name /\
      item_relative_path (op_file o) = rel_path /\
      (only_modified = true -> op_kind o <> ONothing).
Proof. apply operation_new_contains_aux. Qed.

(** Extra X5: under the same assumptions, [checksum_for] on the log built
    by [OperationV2::new] returns, for each operation, the checksum it
    recorded (the backed-up or restored side for a create or modify, the
    system side for an unchanged file, none for a delete), and returns none
    for a path no operation touches. *)
Theorem operation_new_checksum_for hoards_root name dir now ops log :
  ops_unique ops -> uniform_pile_names ops ->
  operation_new hoards_root name dir now ops = Ok log ->
  (forall o, Ok o ∈ ops ->
     checksum_for log (item_pile_name (op_file o)) (item_relative_path (op_file o)) =
     recorded_checksum dir o) /\
  (forall pile_name rel_path,
     (forall o, Ok o ∈ ops -> item_pile_name (op_file o) = pile_name ->
                item_relative_path (op_file o) <> rel_path) ->
     checksum_for log pile_name rel_path = None).
Proof. apply operation_new_checksum_aux. Qed.

(** Extra X6: under the same assumptions, [all_files_with_checksums] on
    the log built by [OperationV2::new] lists each (pile, path) once, and
    lists exactly the files of the operations, each with its recorded
    checksum. *)
Theorem operation_new_all_files hoards_root name dir now ops log :
  ops_unique ops -> uniform_pile_names ops ->
  operation_new hoards_root name dir now ops = Ok log ->
  NoDup (map (fun x : option string * string * option Checksum => (x.1.1, x.1.2))
             (all_files_with_checksums log)) /\
  forall pile_name rel_path checksum,
    (pile_name, rel_path, checksum) ∈ all_files_with_checksums log <->
    exists o, Ok o ∈ ops /\ item_pile_name (op_file o) = pile_name /\
      item_relative_path (op_file o) = rel_path /\ checksum = recorded_checksum dir o.
Proof.
  intros Hu Hun Hl.
  pose proof (operation_new_contains_aux _ _ _ _ _ _ Hu Hun Hl) as Hc.
  destruct (operation_new_checksum_aux _ _ _ _ _ _ Hu Hun Hl) as [Hk _].
  apply operation_new_files in Hl.
  destruct (hoard_new_inner_of _ _ _ Hl) as [inner Hi].
  assert (Hd : forall pile, pile ∈ hoard_piles (files log) -> pile_disjoint pile).
  { intros pile Hp. destruct (hoard_new_piles dir ops _ pile Hl Hp) as (inner' & k & Hi' & Hk').
    rewrite Hi in Hi'. injection Hi' as <-.
    exact (hoard_new_pile_disjoint dir ops inner k pile Hu Hi Hk'). }
  split; [by apply all_files_nodup|].
  intros pn p c. rewrite (all_files_contains log Hd), Hc. split.
  - intros [(o & Ho & Hn & Hr & _) ->]. exists o. rewrite <- Hn, <- Hr. by rewrite (Hk o Ho).
  - intros (o & Ho & Hn & Hr & ->). split.
    + exists o. split; [done|split; [done|split; [done|done]]].
    + rewrite <- Hn, <- Hr. by rewrite (Hk o Ho).
Qed.

Lemma sample_ops_unique : ops_unique sample_ops.
Proof.
  intros o1 o2 H1 H2 Hk. apply list_elem_of_In in H1, H2. simpl in H1, H2.
  destruct H1 as [[= <-]|[[= <-]|[]]]; destruct H2 as [[= <-]|[[= <-]|[]]];
    try reflexivity; vm_compute in Hk; discriminate.
Qed.

Lemma sample_ops_uniform : uniform_pile_names sample_ops.
Proof.
  left. intros o Ho. apply list_elem_of_In in Ho. simpl in Ho.
  destruct Ho as [[= <-]|[[= <-]|[]]]; reflexivity.
Qed.

Lemma sample_log_new : operation_new "" "h" Backup 0%Z sample_ops = Ok sample_log.
Proof. vm_compute. reflexivity. Qed.

Lemma operation_new_contains_file_witness :
  ops_unique sample_ops /\ uniform_pile_names sample_ops /\
  operation_new "" "h" Backup 0%Z sample_ops = Ok sample_log /\
  (contains_file sample_log None "b" true = true <->
   exists o, Ok o ∈ sample_ops /\ item_pile_name (op_file o) = None /\
     item_relative_path (op_file o) = "b" /\ (true = true -> op_kind o <> ONothing)).
Proof.
  split; [exact sample_ops_unique|split; [exact sample_ops_uniform|split; [exact sample_log_new|]]].
  exact (operation_new_contains_file "" "h" Backup 0%Z sample_ops sample_log
           sample_ops_unique sample_ops_uniform sample_log_new None "b" true).
Defined.

Lemma operation_new_checksum_for_witness :
  ops_unique sample_ops /\ uniform_pile_names sample_ops /\
  operation_new "" "h" Backup 0%Z sample_ops = Ok sample_log /\
  checksum_for sample_log None "a" = Some (MD5 "x") /\
  ((forall o, Ok o ∈ sample_ops ->
     checksum_for sample_log (item_pile_name (op_file o)) (item_relative_path (op_file o)) =
     recorded_checksum Backup o) /\
   (forall pile_name rel_path,
     (forall o, Ok o ∈ sample_ops -> item_pile_name (op_file o) = pile_name ->
                item_relative_path (op_file o) <> rel_path) ->
     checksum_for sample_log pile_name rel_path = None)).
Proof.
  split; [exact sample_ops_unique|split; [exact sample_ops_uniform|split; [exact sample_log_new|]]].
  split; [vm_compute; reflexivity|].
  exact (operation_new_checksum_for "" "h" Backup 0%Z sample_ops sample_log
           sample_ops_unique sample_ops_uniform sample_log_new).
Defined.

Lemma operation_new_all_files_witness :
  ops_unique sample_ops /\ uniform_pile_names sample_ops /\
  operation_new "" "h" Backup 0%Z sample_ops = Ok sample_log /\
  NoDup (map (fun x : option string * string * option Checksum => (x.1.1, x.1.2))
             (all_files_with_checksums sample_log)) /\
  forall pile_name rel_path checksum,
    (pile_name, rel_path, checksum) ∈ all_files_with_checksums sample_log <->
    exists o, Ok o ∈ sample_ops /\ item_pile_name (op_file o) = pile_name /\
      item_relative_path (op_file o) = rel_path /\ checksum = recorded_checksum Backup o.
Proof.
  split; [exact sample_ops_unique|split; [exact sample_ops_uniform|split; [exact sample_log_new|]]].
  exact (operation_new_all_files "" "h" Backup 0%Z sample_ops sample_log
           sample_ops_unique sample_ops_uniform sample_log_new).
Defined.

End OperationNew.

Section UpgradeV1Results.
Import Operation V2.
Lemma checksum_for_fresh pile p0 c0 p :
  created pile !! p0 = None -> modified pile !! p0 = None -> unmodified pile !! p0 = None ->
  pile_checksum_for (pile_insert_created p0 c0 pile) p =
    (if decide (p = p0) then Some c0 else pile_checksum_for pile p) /\
  pile_checksum_for (pile_insert_modified p0 c0 pile) p =
    (if decide (p = p0) then Some c0 else pile_checksum_for pile p) /\
  pile_checksum_for (pile_insert_unmodified p0 c0 pile) p =
    (if decide (p = p0) then Some c0 else pile_checksum_for pile p).
Proof.
  intros E1 E2 E3. unfold pile_checksum_for, pile_insert_created, pile_insert_modified,
    pile_insert_unmodified. simpl.
  destruct (decide (p = p0)) as [->|Hne].
  - rewrite !lookup_insert_eq, E1, E2. done.
  - rewrite !lookup_insert_ne by congruence. done.
Qed.

Lemma v1_key_elem (P : list (option string * string * Checksum)) k p c :
  (k, p, c) ∈ P -> (k, p) ∈ map v1_key P.
Proof. intros H. apply list_elem_of_fmap. by exists (k, p, c). Qed.

Lemma from_v1_step_spec fcs0 P st x :
  from_v1_fold_state fcs0 P st -> v1_key x ∉ map v1_key P ->
  from_v1_fold_state fcs0 (P ++ [x]) (from_v1_step st x).
Proof.
  intros (Hinv & Hth & Hf1 & Hf2 & Hck & Hsome) Hx.
  assert (Hxs : v1_key x ∉ st.1.2) by (rewrite Hth, elem_of_list_to_set; done).
  pose proof (from_v1_step_inv st x Hinv Hxs) as Hinv'.
  destruct st as [[fs these] fcs], x as [[k0 p0] c0]. simpl in *.
  unfold v1_key in Hx, Hxs. simpl in Hx, Hxs.
  assert (Hfresh : created (default pile_default (fs !! k0)) !! p0 = None /\
                   modified (default pile_default (fs !! k0)) !! p0 = None /\
                   unmodified (default pile_default (fs !! k0)) !! p0 = None).
  { destruct (fs !! k0) as [pile|] eqn:E; simpl; [|done].
    destruct (Hinv k0 pile E) as (_ & _ & Hsub).
    assert (Hp : p0 ∉ pile_paths k0 these) by (by rewrite elem_of_pile_paths).
    rewrite <- !not_elem_of_dom. set_solver. }
  destruct Hfresh as (E1 & E2 & E3).
  split; [exact Hinv'|]. split; [|split; [|split; [|split]]]; simpl.
  - rewrite map_app, list_to_set_app_L, Hth. simpl. unfold v1_key. simpl. set_solver.
  - intros k p c Hin. apply elem_of_app in Hin as [Hin|[= -> -> ->]%list_elem_of_singleton].
    + rewrite lookup_insert_ne; [by apply Hf1|].
      intros [= <- <-]. by apply Hx, (v1_key_elem P k0 p0 c).
    + by rewrite lookup_insert_eq.
  - intros pf Hpf. rewrite map_app, elem_of_app in Hpf.
    rewrite lookup_insert_ne; [apply Hf2; tauto|].
    intros <-. apply Hpf. right. by apply list_elem_of_singleton.
  - intros k p c. rewrite elem_of_app, list_elem_of_singleton.
    destruct (decide (k = k0)) as [->|Hne].
    + rewrite lookup_insert_eq. simpl.
      destruct (checksum_for_fresh (default pile_default (fs !! k0)) p0 c0 p E1 E2 E3)
        as (Hc & Hm & Hu).
      assert (Hres : pile_checksum_for
        (match fcs !! (k0, p0) with
         | Some None => pile_insert_created p0 c0 (default pile_default (fs !! k0))
         | Some (Some old_checksum) =>
             if decide (old_checksum = c0)
             then pile_insert_unmodified p0 c0 (default pile_default (fs !! k0))
             else pile_insert_modified p0 c0 (default pile_default (fs !! k0))
         | None => pile_insert_created p0 c0 (default pile_default (fs !! k0))
         end) p = if decide (p = p0) then Some c0 else
                    pile_checksum_for (default pile_default (fs !! k0)) p).
      { destruct (fcs !! (k0, p0)) as [[old|]|]; [destruct (decide (old = c0))|..]; done. }
      rewrite Hres. destruct (decide (p = p0)) as [->|Hp].
      * split; [intros [= <-]; by right|].
        intros [Hin|[= <-]]; [|done]. exfalso. by apply Hx, (v1_key_elem P k0 p0 c).
      * rewrite Hck. split; [by left|]. intros [Hin|[= Hpp _]]; [done|]. congruence.
    + rewrite lookup_insert_ne by congruence. rewrite Hck.
      split; [by left|]. intros [Hin|[= Hkk _ _]]; [done|]. congruence.
  - intros k. destruct (decide (k = k0)) as [->|Hne].
    + rewrite lookup_insert_eq. split; [|by eexists].
      intros _. exists p0, c0. apply elem_of_app. right. by apply list_elem_of_singleton.
    + rewrite lookup_insert_ne by congruence. rewrite Hsome.
      setoid_rewrite elem_of_app. setoid_rewrite list_elem_of_singleton.
      split; [intros (p & c & H); eauto|].
      intros (p & c & [H|[= -> _ _]]); [eauto|done].
Qed.

Lemma from_v1_fold_spec fcs0 l :
  NoDup (map v1_key l) ->
  from_v1_fold_state fcs0 l (fold_left from_v1_step l (∅, ∅, fcs0)).
Proof.
  intros Hnd.
  enough (H : forall P st, from_v1_fold_state fcs0 P st -> NoDup (map v1_key (P ++ l)) ->
            from_v1_fold_state fcs0 (P ++ l) (fold_left from_v1_step l st)).
  { apply (H [] (∅, ∅, fcs0)); [|done].
    split; [intros k pile; simpl; by rewrite lookup_empty|]. simpl.
    split; [done|split; [by intros ? ? ? ?%elem_of_nil|split; [done|split]]].
    - intros k p c. rewrite lookup_empty. simpl. unfold pile_checksum_for. simpl.
      rewrite !lookup_empty. split; [discriminate|by intros ?%elem_of_nil].
    - intros k. rewrite lookup_empty. split; [by intros [? ?]|]. by intros (? & ? & ?%elem_of_nil). }
  clear Hnd. induction l as [|x l IH]; intros P st Hs Hn; cbn [fold_left]; [by rewrite app_nil_r|].
  replace (P ++ x :: l) with ((P ++ [x]) ++ l) in Hn |- * by (by rewrite <- app_assoc).
  apply IH; [|done]. apply from_v1_step_spec; [done|].
  rewrite !map_app, NoDup_app in Hn. destruct Hn as [Hn _].
  rewrite NoDup_app in Hn. destruct Hn as (_ & Hd & _). simpl.
  intros Hin. apply (Hd _ Hin). by left.
Qed.

Lemma v1_fits old k p c :
  (k, p, c) ∈ v1_all_files old -> fits_v1_hoard (v1_hoard old) k = true.
Proof.
  unfold v1_all_files. destruct (v1_hoard old) as [m|ps]; intros Hin.
  - apply list_elem_of_In, in_map_iff in Hin as [[p' c'] [[= <- _ _] _]]. done.
  - apply (v1_key_elem _ k p c), v1_named_keys_in in Hin as (n & Hn & _).
    simpl in Hn. by subst.
Qed.

Lemma omap_named_lookup (l : list (option string * Pile)) n :
  (list_to_map (omap (fun '(k, p) => match k with Some n => Some (n, p) | None => None end) l)
     : gmap string Pile) !! n =
  (list_to_map l : gmap (option string) Pile) !! Some n.
Proof.
  induction l as [|[[k|] p] l IH]; simpl; [by rewrite !lookup_empty| |].
  - destruct (decide (k = n)) as [->|Hne].
    + by rewrite !lookup_insert_eq.
    + rewrite !lookup_insert_ne by congruence. done.
  - rewrite lookup_insert_ne by done. done.
Qed.

Lemma named_piles_lookup files n : named_piles files !! n = files !! Some n.
Proof. unfold named_piles. by rewrite omap_named_lookup, list_to_map_to_list. Qed.

Lemma attach_checksum fs del k p :
  pile_checksum_for (default pile_default (attach_deleted fs del !! k)) p =
  pile_checksum_for (default pile_default (fs !! k)) p.
Proof. rewrite attach_deleted_lookup. by destruct (del !! k). Qed.

Lemma default_anon_checksum o p :
  pile_checksum_for (default empty_anonymous_pile o) p = pile_checksum_for (default pile_default o) p.
Proof. destruct o; [done|]. unfold pile_checksum_for. simpl. by rewrite !lookup_empty. Qed.

Lemma checksum_default_opt o p :
  match o with Some pile => pile_checksum_for pile p | None => None end =
  pile_checksum_for (default pile_default o) p.
Proof. destruct o; [done|]. unfold pile_checksum_for. simpl. by rewrite !lookup_empty. Qed.

Lemma attach_deleted_spec fs these fcs file_set k p :
  from_v1_inv (fs, these, fcs) ->
  ((exists pile, attach_deleted fs (group_deleted (file_set ∖ these)) !! k = Some pile /\
                 p ∈ deleted pile) <-> (k, p) ∈ file_set ∖ these) /\
  (attach_deleted fs (group_deleted (file_set ∖ these)) !! k = None <->
     fs !! k = None /\ pile_paths k (file_set ∖ these) = ∅).
Proof.
  intros Hinv. rewrite attach_deleted_lookup, group_deleted_lookup.
  destruct (decide (pile_paths k (file_set ∖ these) = ∅)) as [He|He].
  - split; [|tauto]. split.
    + intros (pile & Hk & Hp). destruct (Hinv k pile Hk) as (_ & Hd & _). set_solver.
    + intros Hin. exfalso. apply elem_of_pile_paths in Hin. set_solver.
  - split; [|split; [discriminate|tauto]].
    split.
    + intros (pile & [= <-] & Hp). simpl in Hp. by apply elem_of_pile_paths.
    + intros Hin. eexists. split; [reflexivity|]. simpl. by apply elem_of_pile_paths.
Qed.

Lemma from_v1_parts fcs file_set old op fcs' fs' :
  from_v1 fcs file_set old = (op, fcs', fs') ->
  exists fs these,
    from_v1_fold_state fcs (v1_all_files old) (fs, these, fcs') /\ fs' = these /\
    files op = match v1_hoard old with
               | AnonymousV1 _ => Anonymous (default empty_anonymous_pile
                   (attach_deleted fs (group_deleted (file_set ∖ these)) !! None))
               | NamedV1 _ => Named (named_piles (attach_deleted fs (group_deleted (file_set ∖ these))))
               end.
Proof.
  unfold from_v1. pose proof (from_v1_fold_spec fcs _ (v1_keys_nodup old)) as Hs.
  destruct (fold_left from_v1_step (v1_all_files old) (∅, ∅, fcs)) as [[fs these] fcs''].
  intros E. injection E as <- <- <-. exists fs, these. split; [done|split; [done|]].
  simpl. by destruct (v1_hoard old).
Qed.

Lemma from_v1_checksum_aux fcs file_set old op fcs' fs' :
  from_v1 fcs file_set old = (op, fcs', fs') ->
  forall k p c, checksum_for op k p = Some c <-> (k, p, c) ∈ v1_all_files old.
Proof.
  intros E k p c. destruct (from_v1_parts _ _ _ _ _ _ E) as (fs & these & Hs & _ & Hf).
  destruct Hs as (_ & _ & _ & _ & Hck & _). simpl in Hck.
  unfold checksum_for. rewrite Hf.
  split; [|intros Hin; pose proof (v1_fits old k p c Hin) as Hfit].
  - destruct (v1_hoard old), k; simpl; try discriminate.
    + by rewrite default_anon_checksum, attach_checksum, Hck.
    + by rewrite named_piles_lookup, checksum_default_opt, attach_checksum, Hck.
  - destruct (v1_hoard old), k; simpl in Hfit |- *; try discriminate.
    + by rewrite default_anon_checksum, attach_checksum, Hck.
    + by rewrite named_piles_lookup, checksum_default_opt, attach_checksum, Hck.
Qed.

Lemma checksum_contains op k p c :
  checksum_for op k p = Some c -> contains_file op k p false = true.
Proof.
  unfold checksum_for, contains_file. destruct (get_pile k (files op)) as [pile|]; [|done].
  unfold pile_checksum_for, pile_contains_file. rewrite !orb_true_iff, andb_true_iff, !bool_decide_eq_true.
  destruct (created pile !! p) eqn:E1; [intros _; left; left; left; apply elem_of_dom; by eexists|].
  destruct (modified pile !! p) eqn:E2; [intros _; left; left; right; apply elem_of_dom; by eexists|].
  intros E3. right. split; [done|]. apply elem_of_dom. by eexists.
Qed.

(** Extra X7: converting a v1 log with [from_v1] keeps its files:
    [checksum_for] on the converted log gives [Some c] exactly for the files
    of the v1 log with checksum [c], and these are exactly the entries of
    [all_files_with_checksums] that carry a checksum. *)
Theorem from_v1_checksums fcs file_set old_v1 :
  let '(op, _, _) := from_v1 fcs file_set old_v1 in
  (forall k p c, checksum_for op k p = Some c <-> (k, p, c) ∈ v1_all_files old_v1) /\
  (forall k p c, (k, p, Some c) ∈ all_files_with_checksums op <->
                 (k, p, c) ∈ v1_all_files old_v1).
Proof.
  pose proof (from_v1_piles_disjoint fcs file_set old_v1) as Hd.
  destruct (from_v1 fcs file_set old_v1) as [[op fcs'] fs'] eqn:E.
  pose proof (from_v1_checksum_aux _ _ _ _ _ _ E) as Hc.
  split; [exact Hc|]. intros k p c. rewrite (all_files_contains op Hd), <- Hc.
  split; [by intros [_ <-]|]. intros H. split; [by eapply checksum_contains|done].
Qed.

Lemma anon_entries old m :
  v1_hoard old = AnonymousV1 m ->
  (exists p c, (None, p, c) ∈ v1_all_files old) <-> v1_all_files old <> [].
Proof.
  intros Hh. split.
  - intros (p & c & Hin) He. rewrite He in Hin. by apply elem_of_nil in Hin.
  - destruct (v1_all_files old) as [|[[k p] c] l] eqn:E; [done|]. intros _.
    assert (Hin : (k, p, c) ∈ v1_all_files old) by (rewrite E; by left).
    apply v1_fits in Hin. rewrite Hh in Hin. destruct k; [done|].
    exists p, c. by left.
Qed.

Lemma from_v1_deleted_aux fcs file_set old op fcs' fs' :
  from_v1 fcs file_set old = (op, fcs', fs') ->
  forall k p,
    (exists pile, get_pile k (files op) = Some pile /\ p ∈ deleted pile) <->
    fits_v1_hoard (v1_hoard old) k = true /\
    (((k, p) ∈ file_set /\ (k, p) ∉ map v1_key (v1_all_files old)) \/
     (k = None /\ p = "" /\ v1_all_files old = [] /\ pile_paths None file_set = ∅)).
Proof.
  intros E k p. destruct (from_v1_parts _ _ _ _ _ _ E) as (fs & these & Hs & _ & Hf).
  destruct Hs as (Hinv & Hth & _ & _ & _ & Hsome). simpl in Hth, Hsome.
  rewrite Hf.
  assert (Hth' : forall q, q ∈ file_set ∖ these <-> q ∈ file_set /\ q ∉ map v1_key (v1_all_files old)).
  { intros q. rewrite elem_of_difference, Hth, elem_of_list_to_set. done. }
  destruct (attach_deleted_spec fs these fcs' file_set k p Hinv) as [Hdel Hnone].
  destruct (v1_hoard old) as [m|ps] eqn:Hh; destruct k as [n|]; simpl.
  - split; [by intros (? & ? & _)|]. intros [? _]. done.
  - destruct (attach_deleted fs (group_deleted (file_set ∖ these)) !! None) as [pile|] eqn:EA.
    + simpl. rewrite <- Hth'. split.
      * intros (pile' & [= <-] & Hp). split; [done|left]. apply Hdel. by exists pile.
      * intros [_ [Hin|(_ & -> & Hl & Hpp)]].
        -- apply Hdel in Hin as (pile' & Hk & Hp). injection Hk as <-. by eexists.
        -- exfalso. assert (Hn : fs !! None = None).
           { destruct (fs !! None) eqn:Efs; [|done]. exfalso.
             apply (anon_entries old m Hh); [|done].
             apply Hsome. by eexists. }
           assert (Hpp' : pile_paths None (file_set ∖ these) = ∅).
           { rewrite Hth, Hl. simpl. rewrite difference_empty_L. done. }
           discriminate (proj2 Hnone (conj Hn Hpp')).
    + simpl. destruct (proj1 Hnone eq_refl) as [Hn Hpp].
      assert (Hl : v1_all_files old = []).
      { destruct (v1_all_files old) eqn:El; [done|]. exfalso.
        destruct (proj2 (anon_entries old m Hh)) as (p' & c' & Hin); [by rewrite El|].
        destruct (proj2 (Hsome None)) as [? Hx]; [exists p', c'; by rewrite <- El|]. congruence. }
      assert (Hpp2 : pile_paths None file_set = ∅).
      { rewrite Hth, Hl in Hpp. simpl in Hpp. by rewrite difference_empty_L in Hpp. }
      split.
      * intros (pile & [= <-] & Hp). simpl in Hp. apply elem_of_singleton in Hp as ->.
        split; [done|right]. done.
      * intros [_ [[Hin Hnin]|(_ & -> & _ & _)]].
        -- exfalso. assert (Hin' : p ∈ pile_paths None (file_set ∖ these))
             by (apply elem_of_pile_paths, Hth'; done).
           rewrite Hpp in Hin'. set_solver.
        -- eexists. split; [reflexivity|]. simpl. set_solver.
  - rewrite named_piles_lookup, <- Hth', <- Hdel. split.
    + intros H. split; [done|by left].
    + intros [_ [H|(? & _)]]; [done|discriminate].
  - split; [by intros (? & ? & _)|]. intros [? _]. done.
Qed.

(** Extra X8: the entries without checksum in the log converted by
    [from_v1] are the files of [file_set] absent from the v1 log, in a pile
    of the hoard's kind (no name for an anonymous hoard, a name for a named
    one); for an empty anonymous v1 log with no anonymous file in
    [file_set], the empty path is listed as deleted. *)
Theorem from_v1_deleted fcs file_set old_v1 :
  let '(op, _, _) := from_v1 fcs file_set old_v1 in
  forall k p,
    (k, p, None) ∈ all_files_with_checksums op <->
    fits_v1_hoard (v1_hoard old_v1) k = true /\
    (((k, p) ∈ file_set /\ (k, p) ∉ map v1_key (v1_all_files old_v1)) \/
     (k = None /\ p = "" /\ v1_all_files old_v1 = [] /\ pile_paths None file_set = ∅)).
Proof.
  destruct (from_v1 fcs file_set old_v1) as [[op fcs'] fs'] eqn:E.
  intros k p. rewrite all_files_elem, <- (from_v1_deleted_aux _ _ _ _ _ _ E).
  setoid_rewrite pile_all_elem. done.
Qed.

(** Extra X9: the state [from_v1] returns for the next conversion: the
    new file set is the set of (pile, path) pairs of the v1 log, the
    checksum map records [Some c] for each file of the v1 log, and every
    other entry of the checksum map is left as it was. *)
Theorem from_v1_carry fcs file_set old_v1 :
  let '(_, fcs', file_set') := from_v1 fcs file_set old_v1 in
  file_set' = list_to_set (map v1_key (v1_all_files old_v1)) /\
  (forall k p c, (k, p, c) ∈ v1_all_files old_v1 -> fcs' !! (k, p) = Some (Some c)) /\
  (forall pf, pf ∉ map v1_key (v1_all_files old_v1) -> fcs' !! pf = fcs !! pf).
Proof.
  destruct (from_v1 fcs file_set old_v1) as [[op fcs'] fs'] eqn:E.
  destruct (from_v1_parts _ _ _ _ _ _ E) as (fs & these & Hs & -> & _).
  destruct Hs as (_ & Hth & Hf1 & Hf2 & _). simpl in *. done.
Qed.

End UpgradeV1Results.

Section DeletionFold.
Import Operation Util.

Lemma remove_file_cases p fs :
  ((p ∈ fs_files fs) /\ (p ∉ fs_protected fs) /\
   remove_file p fs = (Ok tt, {| fs_files := fs_files fs ∖ {[p]}; fs_protected := fs_protected fs |})) \/
  (~ (p ∈ fs_files fs /\ p ∉ fs_protected fs) /\ exists e, remove_file p fs = (Err e, fs)).
Proof.
  unfold remove_file.
  destruct (decide (p ∈ fs_files fs)); [destruct (decide (p ∈ fs_protected fs))|].
  - right. split; [tauto|by eexists].
  - left. done.
  - right. split; [tauto|by eexists].
Qed.

Lemma delete_fold_state acc paths fs :
  (delete_fold acc paths fs).2 =
  {| fs_files := fs_files fs ∖ (list_to_set paths ∖ fs_protected fs);
     fs_protected := fs_protected fs |}.
Proof.
  revert acc fs. induction paths as [|p paths IH]; intros acc [files prot].
  - simpl. f_equal. set_solver.
  - cbn [delete_fold].
    destruct (remove_file_cases p {| fs_files := files; fs_protected := prot |})
      as [(Hin & Hnp & ->)|(Hnot & e & ->)]; rewrite IH; simpl in *; f_equal.
    + set_solver.
    + destruct (decide (p ∈ files)), (decide (p ∈ prot)); [set_solver| |set_solver|set_solver].
      exfalso. tauto.
Qed.



Lemma delete_all_eq paths fs :
  delete_all paths fs =
  (match (delete_fold (Ok (0, tt)) paths fs).1 with
   | Ok (count, _) => Ok count | Err e => Err e end,
   (delete_fold (Ok (0, tt)) paths fs).2).
Proof. unfold delete_all. by destruct (delete_fold (Ok (0, tt)) paths fs). Qed.

(** Extra X10: the deletion fold of [cleanup_operations] removes every
    listed file that exists and is removable, whatever errors occur on the
    other files, and touches nothing else. *)
Theorem delete_all_state paths fs :
  (delete_all paths fs).2 =
  {| fs_files := fs_files fs ∖ (list_to_set paths ∖ fs_protected fs);
     fs_protected := fs_protected fs |}.
Proof. rewrite delete_all_eq. apply delete_fold_state. Qed.



End DeletionFold.
